(** * GitHub issue and solution extractor: a shallow embedding

    The development follows [github_extractor.py].  Python text is read as a
    list of 8-bit characters (code points U+0000 to U+00FF), Python integers
    as [Z].  The tracker's answers are a record of functions from requests
    to responses; every request made and every report section printed is
    logged, so that the order and number of calls can be stated.

    Two settings of the run-time are outside the program and are treated as
    such: the limit of the interpreter on the number of digits that [int]
    reads and [str] writes is taken as lifted, and the check that the URL
    library makes of a host in brackets is a parameter ([UrlLib]). *)

From Stdlib Require Import List ZArith NArith Lia Bool Ascii String DecimalString.
From Stdlib Require DecimalPos.
Import ListNotations.
Open Scope Z_scope.

(* ================================================================== *)
(** ** Text *)

Definition text := list ascii.

Definition txt (s : string) : text := list_ascii_of_string s.

Definition code (c : ascii) : N := N_of_ascii c.

Definition in_range (lo hi : N) (c : ascii) : bool :=
  (lo <=? code c)%N && (code c <=? hi)%N.

(** [\d] on the modelled code points: the ten ASCII digits. *)
Definition is_digit (c : ascii) : bool := in_range 48 57 c.

(** [\s]: TAB..CR, FS..US, space, NEL, NBSP. *)
Definition is_space (c : ascii) : bool :=
  in_range 9 13 c || in_range 28 32 c || (code c =? 133)%N || (code c =? 160)%N.

(** The blanks [int] skips around a literal: TAB..CR, space, NEL and NBSP.
    The separators FS..US, blanks for [\s] and [str.strip], are none for
    [int]. *)
Definition is_int_space (c : ascii) : bool :=
  in_range 9 13 c || (code c =? 32)%N || (code c =? 133)%N || (code c =? 160)%N.

(** [\w]: alphanumeric code points and the underscore. *)
Definition is_word (c : ascii) : bool :=
  is_digit c || in_range 65 90 c || in_range 97 122 c || (code c =? 95)%N
  || (code c =? 170)%N || (code c =? 178)%N || (code c =? 179)%N
  || (code c =? 181)%N || (code c =? 185)%N || (code c =? 186)%N
  || in_range 188 190 c || in_range 192 214 c || in_range 216 246 c
  || in_range 248 255 c.

(** Lower-casing of the ASCII letters; the case-insensitive patterns of the
    program hold ASCII literals only. *)
Definition lower (c : ascii) : ascii :=
  if in_range 65 90 c then ascii_of_N (code c + 32) else c.

Definition digit_val (c : ascii) : Z := Z.of_N (code c) - 48.

(** [p.startswith] read from the side of the subject: [starts_with p s]. *)
Fixpoint starts_with (p s : text) : bool :=
  match p, s with
  | [], _ => true
  | a :: p', b :: s' => (a =? b)%char && starts_with p' s'
  | _ :: _, [] => false
  end.

(** [sub in s]. *)
Fixpoint contains (sub s : text) : bool :=
  starts_with sub s
  || match s with
     | [] => false
     | _ :: t => contains sub t
     end.

(** [c in s] for a single character. *)
Definition has_char (c : ascii) (s : text) : bool :=
  existsb (fun x => (x =? c)%char) s.

(** [s.split(sep)] for a one-character separator. *)
Fixpoint split (sep : ascii) (s : text) : list text :=
  match s with
  | [] => [[]]
  | c :: t =>
      if (c =? sep)%char then [] :: split sep t
      else match split sep t with
           | p :: ps => (c :: p) :: ps
           | [] => [[c]]
           end
  end.

Fixpoint lstrip (p : ascii -> bool) (s : text) : text :=
  match s with
  | c :: t => if p c then lstrip p t else s
  | [] => []
  end.

(** [s.strip(chars)]. *)
Definition strip (p : ascii -> bool) (s : text) : text :=
  rev (lstrip p (rev (lstrip p s))).

(** [str(n)] for an integer: its decimal writing. *)
Definition py_str (n : Z) : text :=
  list_ascii_of_string (NilZero.string_of_int (Z.to_int n)).

(** Digits after the first one, a single underscore allowed between two
    digits. *)
Fixpoint digits_us (acc : Z) (s : text) : option Z :=
  match s with
  | [] => Some acc
  | c :: t =>
      if is_digit c then digits_us (10 * acc + digit_val c) t
      else if (c =? "_")%char then
        match t with
        | d :: t' =>
            if is_digit d then digits_us (10 * acc + digit_val d) t' else None
        | [] => None
        end
      else None
  end.

Definition unsigned_literal (s : text) : option Z :=
  match s with
  | d :: t => if is_digit d then digits_us (digit_val d) t else None
  | [] => None
  end.

(** [int(s)] in base ten; [None] stands for [ValueError].  The limit the
    interpreter sets on the number of digits of a literal
    ([sys.set_int_max_str_digits], 4300 unless configured, none when set to
    0) is a setting of the interpreter and no part of this definition:
    what is stated of [py_int] is stated of [int] below that limit. *)
Definition py_int (s : text) : option Z :=
  match strip is_int_space s with
  | "-"%char :: u => option_map Z.opp (unsigned_literal u)
  | "+"%char :: u => unsigned_literal u
  | u => unsigned_literal u
  end.

(* ================================================================== *)
(** ** Regular expressions

    A backtracking matcher in continuation-passing style for the fragment
    of [re] the program uses: literals, [\d], [\s], [\b], concatenation,
    ordered alternation, greedy [?] and [+], and one capturing group. *)

Inductive regex : Type :=
| Eps
| Lit (c : ascii)
| Digit
| Space
| WordB
| Cat (r1 r2 : regex)
| Alt (r1 r2 : regex)
| Opt (r : regex)
| Plus (r : regex)
| Group (r : regex).

(** A continuation receives the character before the position, the rest of
    the subject and the text of the group so far. *)
Definition cont (A : Type) : Type :=
  option ascii -> text -> option text -> option A.

(** [ic] is [re.IGNORECASE]. *)
Definition char_eq (ic : bool) (c x : ascii) : bool :=
  if ic then (lower c =? lower x)%char else (c =? x)%char.

Definition word_before (prev : option ascii) : bool :=
  match prev with
  | Some c => is_word c
  | None => false
  end.

Definition word_after (s : text) : bool :=
  match s with
  | c :: _ => is_word c
  | [] => false
  end.

Definition one_char {A} (p : ascii -> bool) (s : text) (cap : option text)
  (k : cont A) : option A :=
  match s with
  | x :: s' => if p x then k (Some x) s' cap else None
  | [] => None
  end.

Definition or_else {A} (a b : option A) : option A :=
  match a with
  | Some x => Some x
  | None => b
  end.

(** Greedy repetition: one more [step], then as many more as the fuel allows,
    falling back to the continuation. *)
Fixpoint plus_loop {A}
  (step : option ascii -> text -> option text -> cont A -> option A)
  (n : nat) (prev : option ascii) (s : text) (cap : option text)
  (k : cont A) : option A :=
  step prev s cap
    (fun p' s' c' =>
       match n with
       | O => k p' s' c'
       | S n' => or_else (plus_loop step n' p' s' c' k) (k p' s' c')
       end).

Fixpoint rmatch {A} (ic : bool) (r : regex) (prev : option ascii) (s : text)
  (cap : option text) (k : cont A) {struct r} : option A :=
  match r with
  | Eps => k prev s cap
  | Lit c => one_char (char_eq ic c) s cap k
  | Digit => one_char is_digit s cap k
  | Space => one_char is_space s cap k
  | WordB => if xorb (word_before prev) (word_after s) then k prev s cap else None
  | Cat r1 r2 =>
      rmatch ic r1 prev s cap (fun p' s' c' => rmatch ic r2 p' s' c' k)
  | Alt r1 r2 => or_else (rmatch ic r1 prev s cap k) (rmatch ic r2 prev s cap k)
  | Opt r1 => or_else (rmatch ic r1 prev s cap k) (k prev s cap)
  | Plus r1 => plus_loop (rmatch ic r1) (List.length s) prev s cap k
  | Group r1 =>
      rmatch ic r1 prev s cap
        (fun p' s' _ =>
           k p' s' (Some (firstn (List.length s - List.length s') s)))
  end.

(** A match at the current position: its length and the group's text (the
    empty string when the group took no part, as [re] reports it). *)
Definition match_at (ic : bool) (r : regex) (prev : option ascii) (s : text)
  : option (nat * text) :=
  rmatch ic r prev s None
    (fun _ s' cap =>
       Some ((List.length s - List.length s')%nat,
             match cap with Some g => g | None => [] end)).

(** [re.search]: the leftmost position with a match. *)
Fixpoint search_from (ic : bool) (r : regex) (prev : option ascii) (s : text)
  : option (nat * text) :=
  match match_at ic r prev s with
  | Some m => Some m
  | None =>
      match s with
      | [] => None
      | c :: t => search_from ic r (Some c) t
      end
  end.

Definition re_search (ic : bool) (r : regex) (s : text) : bool :=
  match search_from ic r None s with
  | Some _ => true
  | None => false
  end.

(** [re.findall] for a pattern with one group: the group of every match,
    left to right, matches not overlapping.  [skip] counts the characters
    still covered by the last match. *)
Fixpoint findall_from (ic : bool) (r : regex) (prev : option ascii) (s : text)
  (skip : nat) : list text :=
  match s with
  | [] =>
      match skip with
      | O => match match_at ic r prev [] with
             | Some (_, g) => [g]
             | None => []
             end
      | S _ => []
      end
  | c :: t =>
      match skip with
      | S k => findall_from ic r (Some c) t k
      | O =>
          match match_at ic r prev s with
          | Some (len, g) => g :: findall_from ic r (Some c) t (Nat.pred len)
          | None => findall_from ic r (Some c) t 0
          end
      end
  end.

Definition re_findall (ic : bool) (r : regex) (s : text) : list text :=
  findall_from ic r None s 0.

(** A string of literals, as [re.escape] or an interpolated number gives. *)
Fixpoint lits (l : text) : regex :=
  match l with
  | [] => Eps
  | c :: t => Cat (Lit c) (lits t)
  end.

(** [(?:closes?|fixes?|resolves?)] *)
Definition closing_verb : regex :=
  Alt (Cat (lits (txt "close")) (Opt (Lit "s")))
      (Alt (Cat (lits (txt "fixe")) (Opt (Lit "s")))
           (Cat (lits (txt "resolve")) (Opt (Lit "s")))).

(* ================================================================== *)
(** ** [urllib.parse.urlparse(url).path]

    Modelled from the Python library reference: leading control characters
    and blanks are dropped, TAB, CR and LF are removed, a scheme is split off
    at the first colon, a network location after [//], then the fragment, the
    query and the parameters of the last segment.  [None] stands for the
    [ValueError] of a network location with an unpaired bracket, or with a
    bracketed host that the library does not accept. *)

(** The library's check of a network location that holds a host in brackets
    (an IPv6 or IPvFuture literal).  Its rules have changed between versions
    of the library (none up to Python 3.11.3, those of [ipaddress] for what
    stands between the brackets since, more on what stands around them
    later), and the program does not depend on them: the check is a
    parameter of the embedding. *)
Class UrlLib := { bracketed_netloc_ok : text -> bool }.

(** The library that checks only that brackets are paired. *)
Definition unchecked_brackets : UrlLib :=
  {| bracketed_netloc_ok := fun _ => true |}.

Fixpoint split_once (sep : ascii) (s : text) : option (text * text) :=
  match s with
  | [] => None
  | c :: t =>
      if (c =? sep)%char then Some ([], t)
      else match split_once sep t with
           | Some (a, b) => Some (c :: a, b)
           | None => None
           end
  end.

Definition is_ascii_alpha (c : ascii) : bool :=
  in_range 65 90 c || in_range 97 122 c.

Definition is_scheme_char (c : ascii) : bool :=
  is_ascii_alpha c || is_digit c
  || (c =? "+")%char || (c =? "-")%char || (c =? ".")%char.

Definition is_unsafe_url_char (c : ascii) : bool :=
  (code c =? 9)%N || (code c =? 10)%N || (code c =? 13)%N.

Definition url_scheme (url : text) : text * text :=
  match split_once ":" url with
  | Some (c0 :: sch, rest) =>
      if is_ascii_alpha c0 && forallb is_scheme_char (c0 :: sch)
      then (map lower (c0 :: sch), rest)
      else ([], url)
  | _ => ([], url)
  end.

Definition is_netloc_delim (c : ascii) : bool :=
  (c =? "/")%char || (c =? "?")%char || (c =? "#")%char.

Fixpoint take_until (p : ascii -> bool) (s : text) : text * text :=
  match s with
  | [] => ([], [])
  | c :: t => if p c then ([], s)
              else let '(a, b) := take_until p t in (c :: a, b)
  end.

Definition uses_params : list text :=
  map txt [""; "ftp"; "hdl"; "prospero"; "http"; "imap"; "https"; "shttp";
           "rtsp"; "rtspu"; "sip"; "sips"; "mms"; "sftp"; "tel"]%string.

Definition text_eqb (a b : text) : bool :=
  if list_eq_dec ascii_dec a b then true else false.

(** [_splitparams]: cut at the first [;] of the last segment. *)
Definition drop_params (url : text) : text :=
  let segs := split "/" url in
  let front := removelast segs in
  let tail := last segs [] in
  let tail' := fst (take_until (fun c => (c =? ";")%char) tail) in
  List.concat (map (fun p => p ++ ["/"%char]) front) ++ tail'.

Definition urlparse_path {U : UrlLib} (url : text) : option text :=
  let url := lstrip (fun c => (code c <=? 32)%N) url in
  let url := filter (fun c => negb (is_unsafe_url_char c)) url in
  let '(scheme, url) := url_scheme url in
  let after_netloc :=
    match url with
    | "/"%char :: "/"%char :: rest =>
        let '(netloc, url') := take_until is_netloc_delim rest in
        if xorb (has_char "[" netloc) (has_char "]" netloc) then None
        else if has_char "[" netloc && negb (bracketed_netloc_ok netloc)
             then None
             else Some url'
    | _ => Some url
    end in
  match after_netloc with
  | None => None
  | Some url =>
      let url := fst (take_until (fun c => (c =? "#")%char) url) in
      let url := fst (take_until (fun c => (c =? "?")%char) url) in
      Some (if existsb (text_eqb scheme) uses_params && has_char ";" url
            then drop_params url else url)
  end.

(* ================================================================== *)
(** ** Records of the tracker API

    The JSON objects, with the keys the program reads.  An optional body is
    [None] for JSON null. *)

Record Issue := {
  issue_state : text;
  issue_body : option text }.

Record Comment := {
  comment_body : option text }.

Record PullRequest := {
  pr_number : Z;
  pr_state : text;
  pr_merged : bool;
  pr_body : option text }.

(** [event['source']]: its ['type'] and, when [event['source']['issue']]
    has the key ['pull_request'], the ['url'] under it. *)
Record Source := {
  source_type : text;
  source_pull_request_url : option text }.

Record Event := {
  event_kind : text;
  event_source : option Source;
  event_commit_id : option text }.

Record Response (A : Type) := {
  status_code : Z;
  json : A }.

Arguments status_code {A} _.
Arguments json {A} _.

(** What the API answers to each of the four reads, for one credential.
    The answers do not change while the program runs. *)
Record Tracker := {
  issue_resp : text -> text -> Z -> Response Issue;
  comments_resp : text -> text -> Z -> Z -> Response (list Comment);
  events_resp : text -> text -> Z -> Response (list Event);
  pull_resp : text -> text -> Z -> Response PullRequest }.

Inductive Request :=
| GetIssue (owner repo : text) (issue_number : Z)
| GetComments (owner repo : text) (issue_number : Z) (page : Z)
| GetEvents (owner repo : text) (issue_number : Z)
| GetPull (owner repo : text) (pr_number : Z).

Inductive exn :=
| IssueNotFound (issue_number : Z)
| ApiRequestFailed (status : Z)
| ValueError.

(** Sections of the printed report. *)
Inductive Output :=
| PrintHeader
| PrintIssueDetails (i : Issue)
| PrintSearching
| PrintWarningOpen (issue_number : Z)
| PrintSolution (p : PullRequest)
| PrintNoSolution
| PrintError (e : exn).

Inductive Action :=
| Http (r : Request)
| Print (o : Output).

(* ================================================================== *)
(** ** Computations: a log of actions, and a value, an exception or no
    answer within the fuel *)

Inductive outcome (A : Type) :=
| Return (a : A)
| Raise (e : exn)
| OutOfFuel.

Arguments Return {A} _.
Arguments Raise {A} _.
Arguments OutOfFuel {A}.

Definition M (A : Type) : Type := outcome A * list Action.

Definition ret {A} (a : A) : M A := (Return a, []).

Definition raise {A} (e : exn) : M A := (Raise e, []).

Definition tell (a : Action) : M unit := (Return tt, [a]).

Definition bind {A B} (m : M A) (f : A -> M B) : M B :=
  match m with
  | (Return a, l1) => let '(o, l2) := f a in (o, l1 ++ l2)
  | (Raise e, l1) => (Raise e, l1)
  | (OutOfFuel, l1) => (OutOfFuel, l1)
  end.

(** [try: m  except Exception as e: h e] *)
Definition try_except {A} (m : M A) (h : exn -> M A) : M A :=
  match m with
  | (Raise e, l1) => let '(o, l2) := h e in (o, l1 ++ l2)
  | other => other
  end.

Notation "x <- m ;; k" := (bind m (fun x => k))
  (at level 61, m at next level, right associativity).
Notation "m ;;; k" := (bind m (fun _ => k))
  (at level 61, right associativity).

Definition of_option {A} (o : option A) (e : exn) : M A :=
  match o with
  | Some a => ret a
  | None => raise e
  end.

(** [[int(m) for m in matches]] *)
Fixpoint int_all (l : list text) : M (list Z) :=
  match l with
  | [] => ret []
  | m :: t =>
      n <- of_option (py_int m) ValueError ;;
      ns <- int_all t ;;
      ret (n :: ns)
  end.

(** [list(set(l))]: some duplicate-free enumeration of the members of [l].
    The order is the interpreter's; the program fixes no more than this. *)
Class PySet := {
  list_set : list Z -> list Z;
  list_set_NoDup : forall l, NoDup (list_set l);
  list_set_In : forall l x, In x (list_set l) <-> In x l }.

(** One such enumeration: members in order of first appearance. *)
Definition first_seen : PySet := {|
  list_set := fun l => rev (nodup Z.eq_dec (rev l));
  list_set_NoDup := fun l =>
    @NoDup_rev Z (nodup Z.eq_dec (rev l)) (NoDup_nodup Z.eq_dec (rev l));
  list_set_In := fun l x =>
    iff_trans (iff_sym (@in_rev Z (nodup Z.eq_dec (rev l)) x))
      (iff_trans (@nodup_In Z Z.eq_dec (rev l) x) (iff_sym (@in_rev Z l x))) |}.

(* ================================================================== *)
(** ** The patterns of the program *)

(** [#(\d+)] *)
Definition hashtag_pattern : regex := Cat (Lit "#") (Group (Plus Digit)).

(** [https://github\.com/<owner>/<repo>/pull/(\d+)], owner and repository
    escaped *)
Definition pull_url_prefix (owner repo : text) : text :=
  txt "https://github.com/" ++ owner ++ txt "/" ++ repo ++ txt "/pull/".

Definition url_pattern (owner repo : text) : regex :=
  Cat (lits (pull_url_prefix owner repo)) (Group (Plus Digit)).

(** [(?:closes?|fixes?|resolves?)\s+#(\d+)] *)
Definition closing_pattern : regex :=
  Cat closing_verb (Cat (Plus Space) hashtag_pattern).

(** [(?:closes?|fixes?|resolves?)\s+#{issue_number}\b] *)
Definition closing_pattern_for (issue_number : Z) : regex :=
  Cat closing_verb
    (Cat (Plus Space) (Cat (lits ("#"%char :: py_str issue_number)) WordB)).

(** Truth value of an optional string: neither null nor empty. *)
Definition truthy (o : option text) : bool :=
  match o with
  | Some (_ :: _) => true
  | _ => false
  end.

(** [pr.get('body', '') or ''] *)
Definition body_or_empty (o : option text) : text :=
  match o with
  | Some b => b
  | None => []
  end.

(** The test [f"#{issue_number}" in pr_body or str(issue_number) in pr_body]. *)
Definition mentions (issue_number : Z) (pr_body : text) : bool :=
  contains ("#"%char :: py_str issue_number) pr_body
  || contains (py_str issue_number) pr_body.

(** The test [re.search(closing_pattern, pr_body, re.IGNORECASE)]. *)
Definition closes (issue_number : Z) (pr_body : text) : bool :=
  re_search true (closing_pattern_for issue_number) pr_body.

(** [pr.get('state') == 'closed' and pr.get('merged')] *)
Definition closed_and_merged (pr : PullRequest) : bool :=
  text_eqb (pr_state pr) (txt "closed") && pr_merged pr.

(* ================================================================== *)
(** ** [class GitHubExtractor] *)

Section GitHubExtractor.

Context {S : PySet}.

(** The session of one extractor: the API as it answers its credential. *)
Variable self : Tracker.

Definition get_issue (owner repo : text) (issue_number : Z) : M Issue :=
  tell (Http (GetIssue owner repo issue_number)) ;;;
  let response := issue_resp self owner repo issue_number in
  if status_code response =? 404 then raise (IssueNotFound issue_number)
  else if negb (status_code response =? 200)
       then raise (ApiRequestFailed (status_code response))
       else ret (json response).

(** The [while True] loop of [get_issue_comments]; one unit of fuel per
    iteration. *)
Fixpoint comments_loop (fuel : nat) (owner repo : text) (issue_number : Z)
  (page : Z) (comments : list Comment) : M (list Comment) :=
  match fuel with
  | O => (OutOfFuel, [])
  | Datatypes.S fuel' =>
      tell (Http (GetComments owner repo issue_number page)) ;;;
      let response := comments_resp self owner repo issue_number page in
      if negb (status_code response =? 200) then ret comments
      else match json response with
           | [] => ret comments
           | page_comments =>
               comments_loop fuel' owner repo issue_number (page + 1)
                 (comments ++ page_comments)
           end
  end.

Definition get_issue_comments (fuel : nat) (owner repo : text)
  (issue_number : Z) : M (list Comment) :=
  comments_loop fuel owner repo issue_number 1 [].

Definition get_issue_events (owner repo : text) (issue_number : Z)
  : M (list Event) :=
  tell (Http (GetEvents owner repo issue_number)) ;;;
  let response := events_resp self owner repo issue_number in
  if status_code response =? 200 then ret (json response) else ret [].

(** [None] is the empty dictionary [{}]. *)
Definition get_pr (owner repo : text) (pr_number : Z)
  : M (option PullRequest) :=
  tell (Http (GetPull owner repo pr_number)) ;;;
  let response := pull_resp self owner repo pr_number in
  if status_code response =? 200 then ret (Some (json response)) else ret None.

Definition extract_pr_references (t : text) (owner repo : text)
  : M (list Z) :=
  hashtags <- int_all (re_findall false hashtag_pattern t) ;;
  urls <- int_all (re_findall false (url_pattern owner repo) t) ;;
  closings <- int_all (re_findall true closing_pattern t) ;;
  ret (list_set (hashtags ++ urls ++ closings)).

(** [for comment in comments: ...] *)
Fixpoint comments_refs (owner repo : text) (comments : list Comment)
  (pr_candidates : list Z) : M (list Z) :=
  match comments with
  | [] => ret pr_candidates
  | comment :: rest =>
      if truthy (comment_body comment) then
        pr_refs <- extract_pr_references
                     (body_or_empty (comment_body comment)) owner repo ;;
        comments_refs owner repo rest (pr_candidates ++ pr_refs)
      else comments_refs owner repo rest pr_candidates
  end.

(** [for event in events: ...]; the [elif] branch of the source only
    passes. *)
Fixpoint events_refs (events : list Event) (pr_candidates : list Z)
  : M (list Z) :=
  match events with
  | [] => ret pr_candidates
  | event :: rest =>
      match (if text_eqb (event_kind event) (txt "cross-referenced")
             then event_source event else None) with
      | Some source =>
          if text_eqb (source_type source) (txt "issue") then
            match source_pull_request_url source with
            | Some pr_url =>
                pr_number <- of_option
                               (py_int (last (split "/" pr_url) []))
                               ValueError ;;
                events_refs rest (pr_candidates ++ [pr_number])
            | None => events_refs rest pr_candidates
            end
          else events_refs rest pr_candidates
      | None =>
          if text_eqb (event_kind event) (txt "closed")
             && truthy (event_commit_id event)
          then events_refs rest pr_candidates
          else events_refs rest pr_candidates
      end
  end.

(** [for pr_num in pr_candidates: ...], with [solving_pr] as its state; the
    [break] is the branch that does not go on. *)
Fixpoint solving_loop (owner repo : text) (issue_number : Z)
  (pr_candidates : list Z) (solving_pr : option PullRequest)
  : M (option PullRequest) :=
  match pr_candidates with
  | [] => ret solving_pr
  | pr_num :: rest =>
      pr <- get_pr owner repo pr_num ;;
      match pr with
      | Some p =>
          if closed_and_merged p then
            let pr_body := body_or_empty (pr_body p) in
            if mentions issue_number pr_body then
              if closes issue_number pr_body then ret (Some p)
              else match solving_pr with
                   | None => solving_loop owner repo issue_number rest (Some p)
                   | Some _ =>
                       solving_loop owner repo issue_number rest solving_pr
                   end
            else solving_loop owner repo issue_number rest solving_pr
          else solving_loop owner repo issue_number rest solving_pr
      | None => solving_loop owner repo issue_number rest solving_pr
      end
  end.

Definition find_solving_pr (fuel : nat) (owner repo : text)
  (issue_number : Z) : M (option PullRequest) :=
  issue <- get_issue owner repo issue_number ;;
  (if negb (text_eqb (issue_state issue) (txt "closed"))
   then tell (Print (PrintWarningOpen issue_number)) else ret tt) ;;;
  from_body <-
    (if truthy (issue_body issue)
     then extract_pr_references (body_or_empty (issue_body issue)) owner repo
     else ret []) ;;
  comments <- get_issue_comments fuel owner repo issue_number ;;
  from_comments <- comments_refs owner repo comments from_body ;;
  events <- get_issue_events owner repo issue_number ;;
  pr_candidates <- events_refs events from_comments ;;
  solving_loop owner repo issue_number (list_set pr_candidates) None.

Definition print_issue_and_solution (fuel : nat) (owner repo : text)
  (issue_number : Z) : M unit :=
  try_except
    (tell (Print PrintHeader) ;;;
     issue <- get_issue owner repo issue_number ;;
     tell (Print (PrintIssueDetails issue)) ;;;
     tell (Print PrintSearching) ;;;
     solving_pr <- find_solving_pr fuel owner repo issue_number ;;
     match solving_pr with
     | Some p => tell (Print (PrintSolution p))
     | None => tell (Print PrintNoSolution)
     end)
    (fun e => tell (Print (PrintError e))).

End GitHubExtractor.

(** [None] stands for [ValueError]: the explicit one at the end, that of a
    tuple assignment with the wrong number of parts, or that of [int]. *)
Definition parse_github_url {U : UrlLib} (url : text)
  : option (text * text * Z) :=
  if starts_with (txt "http") url then
    match urlparse_path url with
    | None => None
    | Some path =>
        let path_parts := split "/" (strip (fun c => (c =? "/")%char) path) in
        if (4 <=? List.length path_parts)%nat
           && text_eqb (nth 2 path_parts []) (txt "issues")
        then
          match py_int (nth 3 path_parts []) with
          | Some issue_number =>
              Some (nth 0 path_parts [], nth 1 path_parts [], issue_number)
          | None => None
          end
        else None
    end
  else if has_char "#" url then
    match split "#" url with
    | [repo_part; issue_part] =>
        if has_char "/" repo_part then
          match split "/" repo_part with
          | [owner; repo] =>
              match py_int issue_part with
              | Some issue_number => Some (owner, repo, issue_number)
              | None => None
              end
          | _ => None
          end
        else None
    | _ => None
    end
  else None.

(** [main], after the command line is read: the exit status.  [api] gives
    the tracker as it answers a credential. *)
Definition main {S : PySet} {U : UrlLib} (api : text -> Tracker) (fuel : nat)
  (issue token : text) : M Z :=
  try_except
    (parsed <- of_option (parse_github_url issue) ValueError ;;
     let '(owner, repo, issue_number) := parsed in
     let extractor := api token in
     print_issue_and_solution extractor fuel owner repo issue_number ;;;
     ret 0)
    (fun e => tell (Print (PrintError e)) ;;; ret 1).

(* ================================================================== *)
(** ** Terms of the selection

    What [get_pr] hands to the selection loop for a candidate, and the two
    tests of the loop on it, as the program makes them. *)

Definition fetched (self : Tracker) (owner repo : text) (c : Z)
  : option PullRequest :=
  if status_code (pull_resp self owner repo c) =? 200
  then Some (json (pull_resp self owner repo c)) else None.

(** Eligible: present, closed, merged, and the body mentions the issue
    (the tests of lines 146 and 149). *)
Definition eligible (issue_number : Z) (o : option PullRequest) : bool :=
  match o with
  | Some p =>
      closed_and_merged p && mentions issue_number (body_or_empty (pr_body p))
  | None => false
  end.

(** Strong, as the loop tests it before its [break]: eligible, and
    [re.search] finds the program's own closing pattern,
    [(?:closes?|fixes?|resolves?)\s+#N\b], in the body.  This is the
    program's test, not the keyword list of the specification, which is
    [spec_strong] below. *)
Definition strong (issue_number : Z) (o : option PullRequest) : bool :=
  match o with
  | Some p =>
      eligible issue_number o && closes issue_number (body_or_empty (pr_body p))
  | None => false
  end.

(** The closing keywords in the words of the specification: [close(s)],
    [fix(es)], [resolve(s)], that is close, closes, fix, fixes, resolve and
    resolves. *)
Definition spec_closing_verb : regex :=
  Alt (Cat (lits (txt "close")) (Opt (Lit "s")))
      (Alt (Cat (lits (txt "fix")) (Opt (lits (txt "es"))))
           (Cat (lits (txt "resolve")) (Opt (Lit "s")))).

(** The specification's pattern of a strong match: a closing keyword, then
    whitespace, then [#N] as a whole token, case-insensitive. *)
Definition spec_closing_pattern_for (issue_number : Z) : regex :=
  Cat spec_closing_verb
    (Cat (Plus Space) (Cat (lits ("#"%char :: py_str issue_number)) WordB)).

Definition spec_closes (issue_number : Z) (pr_body : text) : bool :=
  re_search true (spec_closing_pattern_for issue_number) pr_body.

(** A strong match in the words of the specification: eligible, and the
    body matches the specification's pattern. *)
Definition spec_strong (issue_number : Z) (o : option PullRequest) : bool :=
  match o with
  | Some p =>
      eligible issue_number o
      && spec_closes issue_number (body_or_empty (pr_body p))
  | None => false
  end.

(** The first eligible candidate in the order of iteration. *)
Fixpoint first_eligible (self : Tracker) (owner repo : text)
  (issue_number : Z) (cands : list Z) : option PullRequest :=
  match cands with
  | [] => None
  | c :: rest =>
      if eligible issue_number (fetched self owner repo c)
      then fetched self owner repo c
      else first_eligible self owner repo issue_number rest
  end.

(** The pull-request numbers requested in a log, in order. *)
Fixpoint pulls_requested (log : list Action) : list Z :=
  match log with
  | [] => []
  | Http (GetPull _ _ n) :: rest => n :: pulls_requested rest
  | _ :: rest => pulls_requested rest
  end.

(** The requests of a log, in order. *)
Fixpoint requests (log : list Action) : list Request :=
  match log with
  | [] => []
  | Http r :: rest => r :: requests rest
  | Print _ :: rest => requests rest
  end.

(** A position in a text where [marker] is immediately followed by a
    digit. *)
Definition digit_after (marker t : text) : Prop :=
  exists a d b, t = a ++ marker ++ d :: b /\ is_digit d = true.

(** The same, decided. *)
Fixpoint has_digit_after (marker t : text) : bool :=
  starts_with marker t
  && match skipn (List.length marker) t with
     | d :: _ => is_digit d
     | [] => false
     end
  || match t with
     | [] => false
     | _ :: t' => has_digit_after marker t'
     end.

(** [s'] is what is left of [s] after some prefix. *)
Definition suffix (s' s : text) : Prop := exists m, s = m ++ s'.

Definition not_digit (c : ascii) : bool := negb (is_digit c).

(** The longest run of digits a text starts with. *)
Definition leading_digits (s : text) : text := fst (take_until not_digit s).

Definition after_digits (s : text) : text := snd (take_until not_digit s).

(** The continuation at the end of a pattern tried on [s]. *)
Definition at_end (s : text) : cont (nat * text) :=
  fun _ s' cap =>
    Some ((List.length s - List.length s')%nat,
          match cap with Some g => g | None => [] end).

(** The value [int] gives a literal it accepts. *)
Definition int_value (s : text) : Z :=
  match py_int s with
  | Some v => v
  | None => 0
  end.

(** The page numbers [page], [page + 1], ... asked for in [k] turns. *)
Fixpoint page_numbers (page : Z) (k : nat) : list Z :=
  match k with
  | O => []
  | Datatypes.S k' => page :: page_numbers (page + 1) k'
  end.

(** A page that keeps the pagination going: fetched and not empty. *)
Definition page_continues (self : Tracker) (owner repo : text)
  (issue_number page : Z) : Prop :=
  status_code (comments_resp self owner repo issue_number page) = 200
  /\ json (comments_resp self owner repo issue_number page) <> [].

(** A page that ends it: failed, or fetched and empty. *)
Definition page_stops (self : Tracker) (owner repo : text)
  (issue_number page : Z) : Prop :=
  status_code (comments_resp self owner repo issue_number page) <> 200
  \/ json (comments_resp self owner repo issue_number page) = [].

(** The exceptions of the primary issue fetch. *)
Definition is_fetch_error (e : exn) : bool :=
  match e with
  | IssueNotFound _ | ApiRequestFailed _ => true
  | ValueError => false
  end.

(** A computation that asks for no pull request and raises at most
    [ValueError]. *)
Definition quiet {A} (m : M A) : Prop :=
  pulls_requested (snd m) = []
  /\ forall e, fst m = Raise e -> e = ValueError.

(** A computation that, after a log without pull requests, runs out of
    fuel, raises [ValueError], or is the selection loop on a set of
    candidates. *)
Definition reaches_loop {S : PySet} (self : Tracker) (owner repo : text)
  (issue_number : Z) (m : M (option PullRequest)) : Prop :=
  exists pre, pulls_requested pre = [] /\
    (m = (OutOfFuel, pre)
     \/ m = (Raise ValueError, pre)
     \/ exists cands,
          m = (fst (solving_loop self owner repo issue_number
                      (list_set cands) None),
               pre ++ snd (solving_loop self owner repo issue_number
                             (list_set cands) None))).

(* ================================================================== *)
(** ** Sample trackers *)

Definition ok {A} (a : A) : Response A := {| status_code := 200; json := a |}.

Definition not_found {A} (a : A) : Response A :=
  {| status_code := 404; json := a |}.

Definition blank_issue : Issue := {| issue_state := []; issue_body := None |}.

Definition blank_pull : PullRequest :=
  {| pr_number := 0; pr_state := []; pr_merged := false; pr_body := None |}.

Definition merged_pull (n : Z) (body : string) : PullRequest :=
  {| pr_number := n; pr_state := txt "closed"; pr_merged := true;
     pr_body := Some (txt body) |}.

(** The scenario of the specification: issue 42 mentions #7, its one
    comment mentions #99 and #42, and only pull request 99 exists. *)
Definition scenario (pr99_body : string) : Tracker := {|
  issue_resp := fun _ _ _ =>
    ok {| issue_state := txt "closed";
          issue_body := Some (txt "see #7 for context") |};
  comments_resp := fun _ _ _ page =>
    if page =? 1
    then ok [{| comment_body := Some (txt "fixed by #99, closes #42 via #99") |}]
    else ok [];
  events_resp := fun _ _ _ => ok [];
  pull_resp := fun _ _ n =>
    if n =? 99 then ok (merged_pull 99 pr99_body) else not_found blank_pull |}.

(** Issue 42 mentions #1, #2 and #3; pull request 1 names the issue in
    passing, pull request 2 says [Fix #42], pull request 3 does not exist. *)
Definition fix_tracker : Tracker := {|
  issue_resp := fun _ _ _ =>
    ok {| issue_state := txt "closed";
          issue_body := Some (txt "see #1, #2 and #3") |};
  comments_resp := fun _ _ _ _ => ok [];
  events_resp := fun _ _ _ => ok [];
  pull_resp := fun _ _ n =>
    if n =? 1 then ok (merged_pull 1 "Related work, see issue 42")
    else if n =? 2 then ok (merged_pull 2 "Fix #42")
    else not_found blank_pull |}.

(** Issue 42 mentions #1, #2 and #3; pull request 1 names the issue in
    passing, pull request 2 says in French that it settles it, pull request
    3 does not exist. *)
Definition fixe_tracker : Tracker := {|
  issue_resp := fun _ _ _ =>
    ok {| issue_state := txt "closed";
          issue_body := Some (txt "see #1, #2 and #3") |};
  comments_resp := fun _ _ _ _ => ok [];
  events_resp := fun _ _ _ => ok [];
  pull_resp := fun _ _ n =>
    if n =? 1 then ok (merged_pull 1 "Related work, see issue 42")
    else if n =? 2 then ok (merged_pull 2 "Ce correctif fixe #42")
    else not_found blank_pull |}.

(** The issue is there, every other read fails with status 500. *)
Definition flaky_tracker : Tracker := {|
  issue_resp := fun _ _ _ =>
    ok {| issue_state := txt "closed"; issue_body := Some (txt "see #7") |};
  comments_resp := fun _ _ _ _ => {| status_code := 500; json := [] |};
  events_resp := fun _ _ _ => {| status_code := 500; json := [] |};
  pull_resp := fun _ _ _ => {| status_code := 500; json := blank_pull |} |}.

(** The tracker is down: every read answers 500. *)
Definition down_tracker : Tracker := {|
  issue_resp := fun _ _ _ => {| status_code := 500; json := blank_issue |};
  comments_resp := fun _ _ _ _ => {| status_code := 500; json := [] |};
  events_resp := fun _ _ _ => {| status_code := 500; json := [] |};
  pull_resp := fun _ _ _ => {| status_code := 500; json := blank_pull |} |}.

(** A tracker that knows nothing: every read answers 404. *)
Definition empty_tracker : Tracker := {|
  issue_resp := fun _ _ _ => not_found blank_issue;
  comments_resp := fun _ _ _ _ => not_found [];
  events_resp := fun _ _ _ => not_found [];
  pull_resp := fun _ _ _ => not_found blank_pull |}.

(* ================================================================== *)
(** ** Terms of further properties *)

(** The characters of owner, repository and host names: letters, digits,
    hyphen, underscore and dot. *)
Definition is_name_char (c : ascii) : bool :=
  is_ascii_alpha c || is_digit c
  || (c =? "-")%char || (c =? "_")%char || (c =? ".")%char.

(** The digits of a decimal number, as text. *)
Definition uint_text (d : Decimal.uint) : text :=
  list_ascii_of_string (NilEmpty.string_of_uint d).

(** The character before the position reached after reading [m]. *)
Definition prev_after (m : text) (prev : option ascii) : option ascii :=
  match rev m with
  | c :: _ => Some c
  | [] => prev
  end.

(** The words the alternative [closes?|fixes?|resolves?] accepts, in any
    letter case. *)
Definition is_closing_verb (v : text) : bool :=
  existsb (text_eqb (map lower v))
    (map txt ["close"; "closes"; "fixe"; "fixes"; "resolve"; "resolves"]%string).

(** The first strong candidate in the order of iteration. *)
Fixpoint first_strong (self : Tracker) (owner repo : text)
  (issue_number : Z) (cands : list Z) : option PullRequest :=
  match cands with
  | [] => None
  | c :: rest =>
      if strong issue_number (fetched self owner repo c)
      then fetched self owner repo c
      else first_strong self owner repo issue_number rest
  end.

(** A cross-reference event of type issue whose pull-request link does not
    end in a segment that [int] reads. *)
Definition unreadable_link (event : Event) : bool :=
  text_eqb (event_kind event) (txt "cross-referenced")
  && match event_source event with
     | Some source =>
         text_eqb (source_type source) (txt "issue")
         && match source_pull_request_url source with
            | Some pr_url =>
                match py_int (last (split "/" pr_url) []) with
                | Some _ => false
                | None => true
                end
            | None => false
            end
     | None => false
     end.

(** The issue is there and has one event, whose link ends in a slash. *)
Definition odd_event_tracker : Tracker := {|
  issue_resp := fun _ _ _ =>
    ok {| issue_state := txt "closed"; issue_body := Some (txt "see #7") |};
  comments_resp := fun _ _ _ _ => ok [];
  events_resp := fun _ _ _ =>
    ok [{| event_kind := txt "cross-referenced";
           event_source :=
             Some {| source_type := txt "issue";
                     source_pull_request_url :=
                       Some (txt "https://api.github.com/repos/octo/repo/pulls/7/") |};
           event_commit_id := None |}];
  pull_resp := fun _ _ _ => not_found blank_pull |}.

(** The issue is there and has one event, which links pull request 7. *)
Definition linked_event_tracker : Tracker := {|
  issue_resp := fun _ _ _ =>
    ok {| issue_state := txt "closed"; issue_body := None |};
  comments_resp := fun _ _ _ _ => ok [];
  events_resp := fun _ _ _ =>
    ok [{| event_kind := txt "cross-referenced";
           event_source :=
             Some {| source_type := txt "issue";
                     source_pull_request_url :=
                       Some (txt "https://api.github.com/repos/octo/repo/pulls"
                             ++ "/"%char :: py_str 7) |};
           event_commit_id := None |}];
  pull_resp := fun _ _ _ => not_found blank_pull |}.

(* ================================================================== *)
(** ** Text lemmas *)

Lemma starts_with_spec (p s : text) :
  starts_with p s = true <-> exists r, s = p ++ r.
Proof.
  revert s; induction p as [|a p IH]; intros s; simpl.
  - split; [intros _; now exists s | auto].
  - destruct s as [|b s].
    + split; [discriminate | intros [r Hr]; discriminate].
    + rewrite andb_true_iff, IH, Ascii.eqb_eq. split.
      * intros [-> [r ->]]. now exists r.
      * intros [r Hr]. injection Hr as -> ->. split; [reflexivity | now exists r].
Qed.

Lemma contains_spec (sub s : text) :
  contains sub s = true <-> exists a b, s = a ++ sub ++ b.
Proof.
  induction s as [|c s IH].
  - simpl. rewrite orb_false_r, starts_with_spec. split.
    + intros [r Hr]. now exists [], r.
    + intros [a [b Hab]]. destruct a; [now exists b | discriminate].
  - cbn [contains]. rewrite orb_true_iff, starts_with_spec, IH. split.
    + intros [[r Hr] | [a [b Hab]]].
      * now exists [], r.
      * exists (c :: a), b. now rewrite Hab.
    + intros [a [b Hab]]. destruct a as [|x a].
      * left. now exists b.
      * right. injection Hab as _ ->. now exists a, b.
Qed.

(** A text that contains [c :: sub] contains [sub]. *)
Lemma contains_tail (c : ascii) (sub s : text) :
  contains (c :: sub) s = true -> contains sub s = true.
Proof.
  rewrite !contains_spec. intros [a [b ->]].
  exists (a ++ [c]), b. now rewrite <- app_assoc.
Qed.

Lemma mentions_bare (issue_number : Z) (body : text) :
  mentions issue_number body = contains (py_str issue_number) body.
Proof.
  unfold mentions.
  destruct (contains ("#"%char :: py_str issue_number) body) eqn:E; [|reflexivity].
  apply contains_tail in E. now rewrite E.
Qed.

(* ================================================================== *)
(** ** Logs *)

Lemma pulls_requested_app (l1 l2 : list Action) :
  pulls_requested (l1 ++ l2) = pulls_requested l1 ++ pulls_requested l2.
Proof.
  induction l1 as [|a l1 IH]; [reflexivity|].
  destruct a as [[]|]; simpl; now rewrite IH.
Qed.

Lemma requests_app (l1 l2 : list Action) :
  requests (l1 ++ l2) = requests l1 ++ requests l2.
Proof.
  induction l1 as [|a l1 IH]; [reflexivity|].
  destruct a; simpl; now rewrite IH.
Qed.

Lemma bind_log {A B} (m : M A) (f : A -> M B) :
  snd (bind m f) =
  snd m ++ match fst m with
           | Return a => snd (f a)
           | _ => []
           end.
Proof.
  destruct m as [[a|e|] l]; simpl; [|now rewrite app_nil_r..].
  now destruct (f a).
Qed.

Lemma bind_outcome {A B} (m : M A) (f : A -> M B) :
  fst (bind m f) =
  match fst m with
  | Return a => fst (f a)
  | Raise e => Raise e
  | OutOfFuel => OutOfFuel
  end.
Proof.
  destruct m as [[a|e|] l]; simpl; [|reflexivity..].
  now destruct (f a).
Qed.

(* ================================================================== *)
(** ** The selection loop *)

Section Selection.

Context {S : PySet}.
Variable self : Tracker.
Variables owner repo : text.
Variable issue_number : Z.

Lemma get_pr_fetched (c : Z) :
  get_pr self owner repo c
  = (Return (fetched self owner repo c), [Http (GetPull owner repo c)]).
Proof.
  unfold get_pr, fetched. simpl.
  now destruct (status_code (pull_resp self owner repo c) =? 200).
Qed.

(** One turn of the loop on a candidate that is not a strong match. *)
Lemma solving_loop_step_weak (c : Z) (rest : list Z)
  (solving_pr : option PullRequest) :
  strong issue_number (fetched self owner repo c) = false ->
  solving_loop self owner repo issue_number (c :: rest) solving_pr =
  bind (tell (Http (GetPull owner repo c)))
    (fun _ =>
       solving_loop self owner repo issue_number rest
         (match solving_pr with
          | Some q => Some q
          | None => if eligible issue_number (fetched self owner repo c)
                    then fetched self owner repo c else None
          end)).
Proof.
  intros Hs. cbn [solving_loop]. rewrite get_pr_fetched.
  destruct (fetched self owner repo c) as [p|] eqn:Hf; cbn [bind tell ret app].
  - cbn [strong eligible] in *.
    destruct (closed_and_merged p); cbn [andb] in *.
    + destruct (mentions issue_number (body_or_empty (pr_body p)));
        cbn [andb] in *.
      * rewrite Hs. now destruct solving_pr.
      * now destruct solving_pr.
    + now destruct solving_pr.
  - now destruct solving_pr.
Qed.

(** One turn of the loop on a strong match: the [break]. *)
Lemma solving_loop_step_strong (c : Z) (rest : list Z)
  (solving_pr : option PullRequest) :
  strong issue_number (fetched self owner repo c) = true ->
  solving_loop self owner repo issue_number (c :: rest) solving_pr =
  (Return (fetched self owner repo c), [Http (GetPull owner repo c)]).
Proof.
  intros Hs. cbn [solving_loop]. rewrite get_pr_fetched.
  destruct (fetched self owner repo c) as [p|] eqn:Hf; [|discriminate].
  cbn [strong eligible] in Hs.
  apply andb_true_iff in Hs as [He Hc].
  apply andb_true_iff in He as [Hcm Hm].
  cbn [bind tell ret app]. now rewrite Hcm, Hm, Hc.
Qed.

(** Without a strong match the loop visits every candidate and keeps the
    first eligible one. *)
Lemma solving_loop_no_strong (cands : list Z)
  (solving_pr : option PullRequest) :
  (forall c, In c cands -> strong issue_number (fetched self owner repo c) = false) ->
  solving_loop self owner repo issue_number cands solving_pr =
  (Return (match solving_pr with
           | Some q => Some q
           | None => first_eligible self owner repo issue_number cands
           end),
   map (fun x => Http (GetPull owner repo x)) cands).
Proof.
  revert solving_pr; induction cands as [|c rest IH]; intros sp Hns.
  - simpl. now destruct sp.
  - rewrite solving_loop_step_weak by (apply Hns; now left).
    rewrite IH by (intros x Hx; apply Hns; now right).
    cbn [bind tell map app first_eligible]. f_equal. f_equal.
    destruct sp; [reflexivity|].
    destruct (fetched self owner repo c) as [p|]; [|reflexivity].
    now destruct (eligible issue_number (Some p)).
Qed.

(** With a strong match behind candidates that are not, the loop stops at
    it: the candidates after it are never fetched. *)
Lemma solving_loop_strong (pre post : list Z) (c : Z)
  (solving_pr : option PullRequest) :
  (forall x, In x pre -> strong issue_number (fetched self owner repo x) = false) ->
  strong issue_number (fetched self owner repo c) = true ->
  solving_loop self owner repo issue_number (pre ++ c :: post) solving_pr =
  (Return (fetched self owner repo c),
   map (fun x => Http (GetPull owner repo x)) (pre ++ [c])).
Proof.
  revert solving_pr; induction pre as [|x pre IH]; intros sp Hpre Hc.
  - now apply solving_loop_step_strong.
  - cbn [app]. rewrite solving_loop_step_weak by (apply Hpre; now left).
    rewrite IH by (auto; intros y Hy; apply Hpre; now right).
    reflexivity.
Qed.

(** The loop fetches a prefix of the candidates, each once, in order. *)
Lemma solving_loop_log (cands : list Z) (solving_pr : option PullRequest) :
  exists n, snd (solving_loop self owner repo issue_number cands solving_pr)
            = map (fun x => Http (GetPull owner repo x)) (firstn n cands).
Proof.
  revert solving_pr; induction cands as [|c rest IH]; intros sp.
  - exists 0%nat. reflexivity.
  - destruct (strong issue_number (fetched self owner repo c)) eqn:Hs.
    + exists 1%nat. now rewrite solving_loop_step_strong.
    + rewrite solving_loop_step_weak by assumption.
      rewrite bind_log. cbn [tell fst snd app].
      destruct (IH (match sp with
                    | Some q => Some q
                    | None => if eligible issue_number (fetched self owner repo c)
                              then fetched self owner repo c else None
                    end)) as [n Hn].
      exists (Datatypes.S n). cbn [firstn map]. now rewrite Hn.
Qed.

(** The loop always returns: it neither raises nor runs out of fuel. *)
Lemma solving_loop_returns (cands : list Z) (solving_pr : option PullRequest) :
  exists r, fst (solving_loop self owner repo issue_number cands solving_pr)
            = Return r.
Proof.
  revert solving_pr; induction cands as [|c rest IH]; intros sp.
  - now exists sp.
  - destruct (strong issue_number (fetched self owner repo c)) eqn:Hs.
    + rewrite solving_loop_step_strong by assumption.
      now exists (fetched self owner repo c).
    + rewrite solving_loop_step_weak by assumption.
      rewrite bind_outcome. cbn [tell fst]. apply IH.
Qed.

End Selection.

(* ================================================================== *)
(** ** Character lemmas *)

Lemma code_ascii_of_N (n : N) : (n < 256)%N -> code (ascii_of_N n) = n.
Proof. intros H. unfold code. now apply N_ascii_embedding. Qed.

(** A character that is no ASCII letter is matched, case ignored or not, by
    itself only. *)
Lemma char_eq_caseless (ic : bool) (c x : ascii) :
  is_ascii_alpha c = false -> char_eq ic c x = true -> x = c.
Proof.
  intros Hc H. unfold char_eq in H.
  destruct ic; apply Ascii.eqb_eq in H; [|now symmetry].
  unfold lower in H.
  assert (Hlc : in_range 65 90 c = false).
  { unfold is_ascii_alpha in Hc. now apply orb_false_iff in Hc as [? _]. }
  rewrite Hlc in H.
  destruct (in_range 65 90 x) eqn:Hx; [|now symmetry].
  exfalso. unfold is_ascii_alpha in Hc. apply orb_false_iff in Hc as [_ Hc].
  unfold in_range in *.
  apply andb_true_iff in Hx as [H1 H2].
  apply N.leb_le in H1, H2.
  assert (Hcode : code c = (code x + 32)%N).
  { rewrite H. apply code_ascii_of_N. lia. }
  rewrite Hcode in Hc.
  apply andb_false_iff in Hc as [Hc|Hc]; apply N.leb_gt in Hc; lia.
Qed.

Lemma digit_not_alpha (c : ascii) : is_digit c = true -> is_ascii_alpha c = false.
Proof.
  unfold is_digit, is_ascii_alpha, in_range. intros H.
  apply andb_true_iff in H as [H1 H2]. apply N.leb_le in H1, H2.
  apply orb_false_iff; split; apply andb_false_iff; left; apply N.leb_gt; lia.
Qed.

Lemma digit_not_int_space (c : ascii) :
  is_digit c = true -> is_int_space c = false.
Proof.
  unfold is_digit, is_int_space, in_range. intros H.
  apply andb_true_iff in H as [H1 H2]. apply N.leb_le in H1, H2.
  repeat (apply orb_false_iff; split).
  - apply andb_false_iff; right; apply N.leb_gt; lia.
  - apply N.eqb_neq; lia.
  - apply N.eqb_neq; lia.
  - apply N.eqb_neq; lia.
Qed.

(* ================================================================== *)
(** ** Runs of digits *)

Lemma take_until_app (p : ascii -> bool) (s : text) :
  s = fst (take_until p s) ++ snd (take_until p s).
Proof.
  induction s as [|c s IH]; [reflexivity|]. simpl.
  destruct (p c); [reflexivity|].
  destruct (take_until p s) as [a b]. simpl in *. now rewrite IH at 1.
Qed.

Lemma leading_digits_app (s : text) : s = leading_digits s ++ after_digits s.
Proof. apply take_until_app. Qed.

Lemma leading_digits_all (s : text) : forallb is_digit (leading_digits s) = true.
Proof.
  unfold leading_digits. induction s as [|c s IH]; [reflexivity|]. simpl.
  destruct (not_digit c) eqn:Hn; [reflexivity|].
  destruct (take_until not_digit s) as [a b]. simpl in *.
  unfold not_digit in Hn. apply negb_false_iff in Hn. now rewrite Hn.
Qed.

Lemma after_digits_head (s : text) :
  match after_digits s with
  | c :: _ => is_digit c = false
  | [] => True
  end.
Proof.
  unfold after_digits. induction s as [|c s IH]; [exact I|]. simpl.
  destruct (not_digit c) eqn:Hn; simpl.
  - unfold not_digit in Hn. now apply negb_true_iff in Hn.
  - now destruct (take_until not_digit s) as [a b].
Qed.

(** A run of digits followed by no digit is the longest one. *)
Lemma leading_digits_unique (ds rest : text) :
  forallb is_digit ds = true ->
  match rest with c :: _ => is_digit c = false | [] => True end ->
  leading_digits (ds ++ rest) = ds /\ after_digits (ds ++ rest) = rest.
Proof.
  unfold leading_digits, after_digits. intros Hds Hrest.
  induction ds as [|d ds IH]; simpl.
  - destruct rest as [|c rest]; simpl; [split; reflexivity|].
    assert (Hn : not_digit c = true) by (unfold not_digit; now rewrite Hrest).
    rewrite Hn. split; reflexivity.
  - simpl in Hds. apply andb_true_iff in Hds as [Hd Hds].
    assert (Hn : not_digit d = false) by (unfold not_digit; now rewrite Hd).
    rewrite Hn.
    destruct (take_until not_digit (ds ++ rest)) as [a b].
    destruct (IH Hds) as [E1 E2]. simpl in *. now subst.
Qed.

(* ================================================================== *)
(** ** The matcher *)

Lemma suffix_refl (s : text) : suffix s s.
Proof. now exists []. Qed.

Lemma suffix_cons (c : ascii) (s' s : text) : suffix s' s -> suffix s' (c :: s).
Proof. intros [m ->]. now exists (c :: m). Qed.

Lemma suffix_trans (s1 s2 s3 : text) : suffix s1 s2 -> suffix s2 s3 -> suffix s1 s3.
Proof. intros [m ->] [m' ->]. exists (m' ++ m). now rewrite app_assoc. Qed.

Lemma one_char_inv {A} (p : ascii -> bool) (s : text) (cap : option text)
  (k : cont A) (x : A) :
  one_char p s cap k = Some x ->
  exists c s', s = c :: s' /\ p c = true /\ k (Some c) s' cap = Some x.
Proof.
  destruct s as [|c s']; simpl; [discriminate|].
  destruct (p c) eqn:Hp; [|discriminate]. intros H. now exists c, s'.
Qed.

Lemma plus_loop_unfold {A}
  (step : option ascii -> text -> option text -> cont A -> option A)
  (n : nat) (prev : option ascii) (s : text) (cap : option text) (k : cont A) :
  plus_loop step n prev s cap k =
  step prev s cap
    (fun p' s' c' =>
       match n with
       | O => k p' s' c'
       | Datatypes.S n' => or_else (plus_loop step n' p' s' c' k) (k p' s' c')
       end).
Proof. now destruct n. Qed.

(** Whatever a step consumes, the repetition hands the continuation a
    suffix of the subject. *)
Lemma plus_loop_suffix {A}
  (step : option ascii -> text -> option text -> cont A -> option A) :
  (forall prev s cap k x, step prev s cap k = Some x ->
     exists p' s' c', suffix s' s /\ k p' s' c' = Some x) ->
  forall n prev s cap k x, plus_loop step n prev s cap k = Some x ->
     exists p' s' c', suffix s' s /\ k p' s' c' = Some x.
Proof.
  intros Hstep. induction n as [|n IH]; intros prev s cap k x H;
    rewrite plus_loop_unfold in H; apply Hstep in H as (p1 & s1 & c1 & Hsuf & H).
  - now exists p1, s1, c1.
  - destruct (plus_loop step n p1 s1 c1 k) as [y|] eqn:E; simpl in H.
    + injection H as ->. apply IH in E as (p2 & s2 & c2 & Hsuf2 & E).
      exists p2, s2, c2. split; [eapply suffix_trans; eauto | assumption].
    + now exists p1, s1, c1.
Qed.

(** A successful match has called its continuation on a suffix of the
    subject, with success. *)
Lemma rmatch_suffix {A} (ic : bool) (r : regex) :
  forall prev s cap (k : cont A) x, rmatch ic r prev s cap k = Some x ->
    exists p' s' c', suffix s' s /\ k p' s' c' = Some x.
Proof.
  induction r as [|c| | | |r1 IH1 r2 IH2|r1 IH1 r2 IH2|r1 IH1|r1 IH1|r1 IH1];
    intros prev s cap k x H; cbn [rmatch] in H.
  - exists prev, s, cap. split; [apply suffix_refl | assumption].
  - apply one_char_inv in H as (c0 & s' & -> & _ & H).
    exists (Some c0), s', cap. split; [apply suffix_cons, suffix_refl | assumption].
  - apply one_char_inv in H as (c0 & s' & -> & _ & H).
    exists (Some c0), s', cap. split; [apply suffix_cons, suffix_refl | assumption].
  - apply one_char_inv in H as (c0 & s' & -> & _ & H).
    exists (Some c0), s', cap. split; [apply suffix_cons, suffix_refl | assumption].
  - destruct (xorb (word_before prev) (word_after s)); [|discriminate].
    exists prev, s, cap. split; [apply suffix_refl | assumption].
  - apply IH1 in H as (p1 & s1 & c1 & Hs1 & H).
    apply IH2 in H as (p2 & s2 & c2 & Hs2 & H).
    exists p2, s2, c2. split; [eapply suffix_trans; eauto | assumption].
  - destruct (rmatch ic r1 prev s cap k) as [y|] eqn:E; simpl in H.
    + injection H as ->. now apply IH1 in E.
    + now apply IH2 in H.
  - destruct (rmatch ic r1 prev s cap k) as [y|] eqn:E; simpl in H.
    + injection H as ->. now apply IH1 in E.
    + exists prev, s, cap. split; [apply suffix_refl | assumption].
  - eapply plus_loop_suffix in H; [exact H | exact IH1].
  - apply IH1 in H as (p1 & s1 & c1 & Hs1 & H).
    now exists p1, s1, (Some (firstn (List.length s - List.length s1) s)).
Qed.

(** A repeated character class is greedy: where the continuation accepts
    the end of the longest run, that is where the match ends. *)
Lemma plus_class_greedy {A} (p : ascii -> bool)
  (step : option ascii -> text -> option text -> cont A -> option A) :
  (forall prev s cap k, step prev s cap k = one_char p s cap k) ->
  forall (ds rest : text) (n : nat) (prev : option ascii) (cap : option text)
    (k : cont A) (d0 : ascii),
  ds <> [] ->
  forallb p ds = true ->
  match rest with c :: _ => p c = false | [] => True end ->
  (List.length ds <= Datatypes.S n)%nat ->
  k (Some (last ds d0)) rest cap <> None ->
  plus_loop step n prev (ds ++ rest) cap k = k (Some (last ds d0)) rest cap.
Proof.
  intros Hstep.
  induction ds as [|d ds IH]; intros rest n prev cap k d0 Hne Hds Hrest Hn Hk;
    [contradiction|].
  apply andb_true_iff in Hds as [Hd Hds].
  change ((d :: ds) ++ rest) with (d :: (ds ++ rest)).
  rewrite plus_loop_unfold, Hstep. cbn [one_char]. rewrite Hd.
  destruct ds as [|d2 ds].
  - cbn [app last]. destruct n as [|n]; [reflexivity|].
    rewrite plus_loop_unfold, Hstep.
    destruct rest as [|c rest]; cbn [one_char]; [reflexivity|].
    now rewrite Hrest.
  - destruct n as [|n]; [simpl in Hn; lia|].
    rewrite (IH rest n (Some d) cap k d0); try assumption.
    + change (last (d :: d2 :: ds) d0) with (last (d2 :: ds) d0) in *.
      destruct (k (Some (last (d2 :: ds) d0)) rest cap); [reflexivity|].
      now contradiction Hk.
    + discriminate.
    + simpl in *. lia.
Qed.

Lemma plus_digit_none {A} (ic : bool) (n : nat) (prev : option ascii)
  (s : text) (cap : option text) (k : cont A) :
  leading_digits s = [] ->
  plus_loop (rmatch ic Digit) n prev s cap k = None.
Proof.
  intros H. rewrite plus_loop_unfold. cbn [rmatch].
  destruct s as [|c s]; [reflexivity|]. cbn [one_char].
  unfold leading_digits in H. simpl in H.
  destruct (not_digit c) eqn:Hn.
  - unfold not_digit in Hn. apply negb_true_iff in Hn. now rewrite Hn.
  - now destruct (take_until not_digit s).
Qed.

(** [(\d+)] before a continuation that never fails: the group is the
    longest run of digits. *)
Lemma digits_group_rmatch {A} (ic : bool) (prev : option ascii) (s : text)
  (cap : option text) (k : cont A) :
  (forall p s' c, k p s' c <> None) ->
  rmatch ic (Group (Plus Digit)) prev s cap k =
  match leading_digits s with
  | [] => None
  | d :: ds => k (Some (last (d :: ds) d)) (after_digits s) (Some (d :: ds))
  end.
Proof.
  intros Hk. cbn [rmatch].
  destruct (leading_digits s) as [|d ds] eqn:E.
  - now apply (plus_digit_none ic).
  - pose proof (leading_digits_app s) as Happ.
    pose proof (leading_digits_all s) as Hall.
    pose proof (after_digits_head s) as Hhead.
    rewrite E in Happ, Hall.
    set (rest := after_digits s) in *.
    assert (Hfirst : firstn (List.length s - List.length rest) s = d :: ds).
    { rewrite Happ at 1 2. rewrite length_app.
      replace (List.length (d :: ds) + List.length rest - List.length rest)%nat
        with (List.length (d :: ds) + 0)%nat by lia.
      rewrite firstn_app_2. cbn [firstn]. apply app_nil_r. }
    assert (Hlen : (List.length (d :: ds) <= Datatypes.S (List.length s))%nat).
    { rewrite Happ at 1. rewrite length_app. lia. }
    set (K := fun (p' : option ascii) (s' : text) (_ : option text) =>
                k p' s' (Some (firstn (List.length s - List.length s') s))).
    set (n := List.length s) in *.
    rewrite Happ.
    rewrite (plus_class_greedy is_digit _ (fun _ _ _ _ => eq_refl)
               (d :: ds) rest n prev cap K d); try assumption.
    + unfold K. now rewrite Hfirst.
    + discriminate.
    + unfold K. apply Hk.
Qed.

Lemma rmatch_cat {A} (ic : bool) (r1 r2 : regex) (prev : option ascii)
  (s : text) (cap : option text) (k : cont A) :
  rmatch ic (Cat r1 r2) prev s cap k =
  rmatch ic r1 prev s cap (fun p' s' c' => rmatch ic r2 p' s' c' k).
Proof. reflexivity. Qed.

Lemma at_end_total (s : text) (p : option ascii) (s' : text) (c : option text) :
  at_end s p s' c <> None.
Proof. discriminate. Qed.

(** A string of literals that are matched by themselves only consumes
    exactly that string. *)
Lemma lits_inv {A} (ic : bool) (l : text) :
  (forall c x, In c l -> char_eq ic c x = true -> x = c) ->
  forall prev s cap (k : cont A) y,
    rmatch ic (lits l) prev s cap k = Some y ->
    exists p' rest, s = l ++ rest /\ k p' rest cap = Some y.
Proof.
  induction l as [|c l IH]; intros Hl prev s cap k y H.
  - now exists prev, s.
  - cbn [lits rmatch] in H.
    apply one_char_inv in H as (c0 & s' & -> & Hc & H).
    apply Hl in Hc; [subst c0 | now left].
    apply IH in H as (p' & rest & -> & H); [now exists p', rest|].
    intros c' x Hin. apply Hl. now right.
Qed.

Lemma last_nonempty {T} (l : list T) (a b : T) : l <> [] -> last l a = last l b.
Proof.
  induction l as [|x l IH]; [contradiction|]. intros _.
  destruct l as [|y l]; [reflexivity|]. apply IH. discriminate.
Qed.

Lemma hashtag_rmatch_unfold {A} (ic : bool) (prev : option ascii) (s : text)
  (cap : option text) (k : cont A) :
  rmatch ic hashtag_pattern prev s cap k =
  one_char (char_eq ic "#") s cap
    (fun p' s' c' => rmatch ic (Group (Plus Digit)) p' s' c' k).
Proof. reflexivity. Qed.

(** What [#(\d+)] matches before a continuation that never fails. *)
Lemma hashtag_rmatch_inv {A} (ic : bool) (prev : option ascii) (s : text)
  (cap : option text) (k : cont A) (y : A) :
  (forall p s' c, k p s' c <> None) ->
  rmatch ic hashtag_pattern prev s cap k = Some y ->
  exists g rest,
    s = "#"%char :: g ++ rest /\ g <> [] /\ forallb is_digit g = true
    /\ match rest with c :: _ => is_digit c = false | [] => True end
    /\ k (Some (last g "#"%char)) rest (Some g) = Some y.
Proof.
  intros Hk H. rewrite hashtag_rmatch_unfold in H.
  apply one_char_inv in H as (c0 & t & -> & Hc & H).
  apply char_eq_caseless in Hc; [subst c0 | reflexivity].
  rewrite digits_group_rmatch in H by assumption.
  destruct (leading_digits t) as [|d ds] eqn:E; [discriminate|].
  exists (d :: ds), (after_digits t). repeat split.
  - f_equal. rewrite <- E. apply leading_digits_app.
  - discriminate.
  - rewrite <- E. apply leading_digits_all.
  - apply after_digits_head.
  - rewrite <- H. f_equal. f_equal. apply last_nonempty. discriminate.
Qed.

Lemma hashtag_match_inv (ic : bool) (prev : option ascii) (s : text)
  (len : nat) (g : text) :
  match_at ic hashtag_pattern prev s = Some (len, g) ->
  exists rest,
    s = "#"%char :: g ++ rest /\ g <> [] /\ forallb is_digit g = true
    /\ match rest with c :: _ => is_digit c = false | [] => True end
    /\ len = Datatypes.S (List.length g).
Proof.
  intros H. unfold match_at in H.
  apply (hashtag_rmatch_inv ic prev s None (at_end s)) in H;
    [|apply at_end_total].
  destruct H as (g0 & rest & -> & Hne & Hd & Hr & H).
  unfold at_end in H. injection H as <- <-.
  exists rest. repeat split; try assumption.
  rewrite length_app. destruct (List.length rest); lia.
Qed.

Lemma hashtag_match_intro (prev : option ascii) (g rest : text) :
  g <> [] -> forallb is_digit g = true ->
  match rest with c :: _ => is_digit c = false | [] => True end ->
  match_at false hashtag_pattern prev ("#"%char :: g ++ rest)
  = Some (Datatypes.S (List.length g), g).
Proof.
  intros Hne Hd Hr. unfold match_at.
  change (rmatch false hashtag_pattern prev ("#"%char :: g ++ rest) None
            (at_end ("#"%char :: g ++ rest))
          = Some (Datatypes.S (List.length g), g)).
  rewrite hashtag_rmatch_unfold. cbn [one_char char_eq].
  rewrite Ascii.eqb_refl.
  rewrite digits_group_rmatch by apply at_end_total.
  destruct (leading_digits_unique g rest Hd Hr) as [E1 E2].
  rewrite E1, E2. destruct g as [|d ds]; [contradiction|].
  unfold at_end. f_equal. f_equal.
  cbn [List.length]. rewrite length_app. cbn [List.length]. lia.
Qed.

(** [re.search] succeeds only on a match at some position. *)
Lemma search_from_sound (ic : bool) (r : regex) (s : text) :
  forall prev m, search_from ic r prev s = Some m ->
    exists p' s', suffix s' s /\ match_at ic r p' s' = Some m.
Proof.
  induction s as [|c s IH]; intros prev m H; cbn [search_from] in H.
  - destruct (match_at ic r prev []) as [m'|] eqn:E; [|discriminate].
    injection H as ->. exists prev, []. split; [apply suffix_refl | assumption].
  - destruct (match_at ic r prev (c :: s)) as [m'|] eqn:E.
    + injection H as ->. exists prev, (c :: s).
      split; [apply suffix_refl | assumption].
    + apply IH in H as (p' & s' & Hs & H). exists p', s'.
      split; [now apply suffix_cons | assumption].
Qed.

(** Every item of [re.findall] is the group of a match at some position. *)
Lemma findall_from_sound (ic : bool) (r : regex) (g : text) (s : text) :
  forall prev skip, In g (findall_from ic r prev s skip) ->
    exists p' s' len, suffix s' s /\ match_at ic r p' s' = Some (len, g).
Proof.
  induction s as [|c s IH]; intros prev skip H; cbn [findall_from] in H.
  - destruct skip; [|contradiction].
    destruct (match_at ic r prev []) as [[len g']|] eqn:E; [|contradiction].
    destruct H as [->|[]]. exists prev, [], len.
    split; [apply suffix_refl | assumption].
  - destruct skip as [|k].
    + destruct (match_at ic r prev (c :: s)) as [[len g']|] eqn:E.
      * destruct H as [->|H].
        -- exists prev, (c :: s), len. split; [apply suffix_refl | assumption].
        -- apply IH in H as (p' & s' & l' & Hs & H). exists p', s', l'.
           split; [now apply suffix_cons | assumption].
      * apply IH in H as (p' & s' & l' & Hs & H). exists p', s', l'.
        split; [now apply suffix_cons | assumption].
    + apply IH in H as (p' & s' & l' & Hs & H). exists p', s', l'.
      split; [now apply suffix_cons | assumption].
Qed.

Lemma app_overlap_in {T} (a : list T) (x : T) (b g r : list T) :
  a ++ x :: b = g ++ r -> (List.length a < List.length g)%nat -> In x g.
Proof.
  revert g; induction a as [|y a IH]; intros g H Hlen.
  - destruct g as [|z g]; [simpl in Hlen; lia|].
    injection H as -> _. now left.
  - destruct g as [|z g]; [simpl in Hlen; lia|].
    injection H as _ H. right. apply IH; [assumption | simpl in Hlen; lia].
Qed.

(** [#(\d+)] misses no [#] that digits follow: the characters a match
    covers after its own [#] are digits, so no other [#] is skipped. *)
Lemma findall_hashtag_complete (g rest : text) :
  g <> [] -> forallb is_digit g = true ->
  match rest with c :: _ => is_digit c = false | [] => True end ->
  forall pre prev skip,
    (skip <= List.length pre)%nat ->
    forallb is_digit (firstn skip (pre ++ "#"%char :: g ++ rest)) = true ->
    In g (findall_from false hashtag_pattern prev
            (pre ++ "#"%char :: g ++ rest) skip).
Proof.
  intros Hne Hd Hr. induction pre as [|c pre IH]; intros prev skip Hskip Hfirst.
  - assert (skip = 0%nat) by (simpl in Hskip; lia). subst skip.
    cbn [app findall_from]. rewrite hashtag_match_intro by assumption.
    now left.
  - cbn [app findall_from]. destruct skip as [|k].
    + destruct (match_at false hashtag_pattern prev
                  (c :: pre ++ "#"%char :: g ++ rest)) as [[len g']|] eqn:E.
      * right. apply hashtag_match_inv in E as (rest' & Hs & Hne' & Hd' & Hr' & ->).
        injection Hs as -> Hs. cbn [Nat.pred]. apply IH.
        -- destruct (Nat.le_gt_cases (List.length g') (List.length pre))
             as [Hle|Hgt]; [assumption|].
           apply app_overlap_in in Hs; [|assumption].
           rewrite forallb_forall in Hd'. apply Hd' in Hs. discriminate.
        -- rewrite Hs.
           replace (List.length g') with (List.length g' + 0)%nat by lia.
           rewrite firstn_app_2. cbn [firstn]. now rewrite app_nil_r.
      * apply IH; [lia | reflexivity].
    + apply IH.
      * simpl in Hskip. lia.
      * cbn [app firstn forallb] in Hfirst.
        now apply andb_true_iff in Hfirst as [_ ?].
Qed.

(** Whatever stands before it, a [#(\d+)] that closes a pattern finds
    nothing that [#(\d+)] alone does not find. *)
Lemma keyword_in_hashtag (ic : bool) (verb : regex) (t g : text) :
  In g (re_findall ic (Cat verb (Cat (Plus Space) hashtag_pattern)) t) ->
  In g (re_findall false hashtag_pattern t).
Proof.
  unfold re_findall. intros H.
  apply findall_from_sound in H as (p1 & s1 & len & Hs1 & H).
  unfold match_at in H. rewrite rmatch_cat in H.
  apply rmatch_suffix in H as (p2 & s2 & c2 & Hs2 & H).
  rewrite rmatch_cat in H.
  apply rmatch_suffix in H as (p3 & s3 & c3 & Hs3 & H).
  apply (hashtag_rmatch_inv ic p3 s3 c3) in H; [|intros; discriminate].
  destruct H as (g0 & rest & -> & Hne & Hd & Hr & H).
  injection H as _ <-.
  destruct (suffix_trans _ _ _ Hs3 (suffix_trans _ _ _ Hs2 Hs1)) as [pre ->].
  apply findall_hashtag_complete; try assumption; [lia | reflexivity].
Qed.

(** Every reference the closing pattern finds, the hashtag pattern finds. *)
Lemma closing_in_hashtag (t g : text) :
  In g (re_findall true closing_pattern t) ->
  In g (re_findall false hashtag_pattern t).
Proof. apply keyword_in_hashtag. Qed.

(* ================================================================== *)
(** ** [int] and [str] *)

Lemma lstrip_keep (p : ascii -> bool) (s : text) :
  match s with c :: _ => p c = false | [] => True end -> lstrip p s = s.
Proof. destruct s as [|c s]; [reflexivity|]. simpl. now intros ->. Qed.

Lemma digits_us_digits (t : text) :
  forallb is_digit t = true -> forall acc, exists v, digits_us acc t = Some v.
Proof.
  induction t as [|c t IH]; intros H acc; [now exists acc|].
  simpl in H. apply andb_true_iff in H as [Hc Ht].
  cbn [digits_us]. rewrite Hc. now apply IH.
Qed.

Lemma py_int_unsigned (d : ascii) (t : text) :
  is_digit d = true -> strip is_int_space (d :: t) = d :: t ->
  py_int (d :: t) = unsigned_literal (d :: t).
Proof.
  intros Hd Hs. unfold py_int. rewrite Hs.
  destruct d as [[] [] [] [] [] [] [] []]; vm_compute in Hd;
    try discriminate Hd; reflexivity.
Qed.

(** [int] accepts every non-empty string of digits. *)
Lemma py_int_digits (g : text) :
  g <> [] -> forallb is_digit g = true -> exists v, py_int g = Some v.
Proof.
  intros Hne Hd.
  assert (Hfa : forall c, In c g -> is_int_space c = false).
  { intros c Hc. apply digit_not_int_space. rewrite forallb_forall in Hd. auto. }
  assert (Hs : strip is_int_space g = g).
  { unfold strip. rewrite (lstrip_keep is_int_space g).
    2:{ destruct g as [|c g]; [exact I|]. apply Hfa. now left. }
    rewrite (lstrip_keep is_int_space (rev g)).
    2:{ destruct (rev g) as [|c r] eqn:E; [exact I|].
        apply Hfa. apply in_rev. rewrite E. now left. }
    apply rev_involutive. }
  destruct g as [|d t]; [contradiction|].
  simpl in Hd. apply andb_true_iff in Hd as [Hd Ht].
  rewrite py_int_unsigned by assumption.
  cbn [unsigned_literal]. rewrite Hd. now apply digits_us_digits.
Qed.

Lemma int_all_digits (l : list text) :
  (forall g, In g l -> g <> [] /\ forallb is_digit g = true) ->
  int_all l = (Return (map int_value l), []).
Proof.
  induction l as [|g l IH]; intros H; [reflexivity|].
  cbn [int_all map]. unfold int_value at 1.
  destruct (H g (or_introl eq_refl)) as [Hne Hd].
  destruct (py_int_digits g Hne Hd) as [v ->].
  cbn [of_option ret bind]. rewrite IH by (intros g' Hg'; apply H; now right).
  reflexivity.
Qed.

Lemma uint_chars (d : Decimal.uint) (c : ascii) :
  In c (list_ascii_of_string (NilEmpty.string_of_uint d)) ->
  is_ascii_alpha c = false.
Proof.
  induction d; simpl; try contradiction; intros [<-|H]; auto.
Qed.

(** [str(n)] holds digits and at most a sign: no letter. *)
Lemma py_str_chars (n : Z) (c : ascii) :
  In c (py_str n) -> is_ascii_alpha c = false.
Proof.
  unfold py_str, NilZero.string_of_int, NilZero.string_of_uint.
  destruct (Z.to_int n) as [d|d].
  - destruct d; try apply uint_chars. simpl. now intros [<-|[]].
  - cbn [list_ascii_of_string]. intros [<-|H]; [reflexivity|].
    revert H. destruct d; try apply uint_chars. simpl. now intros [<-|[]].
Qed.

(* ================================================================== *)
(** ** What the three patterns find *)

Lemma findall_hashtag_inv (t g : text) :
  In g (re_findall false hashtag_pattern t) ->
  g <> [] /\ forallb is_digit g = true /\ digit_after (txt "#") t.
Proof.
  intros H. apply findall_from_sound in H as (p & s & len & [pre ->] & H).
  apply hashtag_match_inv in H as (rest & -> & Hne & Hd & _).
  repeat split; try assumption.
  destruct g as [|d ds]; [contradiction|].
  exists pre, d, (ds ++ rest). split; [reflexivity|].
  simpl in Hd. now apply andb_true_iff in Hd as [? _].
Qed.

Lemma findall_closing_inv (t g : text) :
  In g (re_findall true closing_pattern t) ->
  g <> [] /\ forallb is_digit g = true /\ digit_after (txt "#") t.
Proof. intros H. now apply findall_hashtag_inv, closing_in_hashtag. Qed.

Lemma findall_url_inv (owner repo t g : text) :
  In g (re_findall false (url_pattern owner repo) t) ->
  g <> [] /\ forallb is_digit g = true
  /\ digit_after (pull_url_prefix owner repo) t.
Proof.
  intros H. apply findall_from_sound in H as (p & s & len & [pre ->] & H).
  unfold match_at, url_pattern in H. rewrite rmatch_cat in H.
  apply lits_inv in H as (p' & rest & -> & H).
  2:{ intros c x _ Hc. simpl in Hc. apply Ascii.eqb_eq in Hc. now symmetry. }
  rewrite digits_group_rmatch in H by (intros; discriminate).
  destruct (leading_digits rest) as [|d ds] eqn:E; [discriminate|].
  injection H as _ <-.
  pose proof (leading_digits_all rest) as Hall. rewrite E in Hall.
  repeat split; [discriminate | assumption |].
  exists pre, d, (ds ++ after_digits rest). split.
  - rewrite (leading_digits_app rest) at 1. now rewrite E.
  - simpl in Hall. now apply andb_true_iff in Hall as [? _].
Qed.

Section References.

Context {S : PySet}.

(** The extraction never raises and logs nothing: it returns the members of
    the three lists of matches, read as numbers. *)
Lemma extract_pr_references_returns (t owner repo : text) :
  extract_pr_references t owner repo =
  (Return (list_set
             (map int_value (re_findall false hashtag_pattern t)
              ++ map int_value (re_findall false (url_pattern owner repo) t)
              ++ map int_value (re_findall true closing_pattern t))),
   []).
Proof.
  unfold extract_pr_references.
  rewrite int_all_digits by (intros g Hg; apply findall_hashtag_inv in Hg; tauto).
  rewrite (int_all_digits (re_findall false (url_pattern owner repo) t))
    by (intros g Hg; apply findall_url_inv in Hg; tauto).
  rewrite (int_all_digits (re_findall true closing_pattern t))
    by (intros g Hg; apply findall_closing_inv in Hg; tauto).
  reflexivity.
Qed.

End References.

(** A body that matches the closing pattern for an issue holds [#] and the
    issue number, as written. *)
Lemma closes_mentions (issue_number : Z) (body : text) :
  closes issue_number body = true ->
  contains ("#"%char :: py_str issue_number) body = true.
Proof.
  unfold closes, re_search. intros H.
  destruct (search_from true (closing_pattern_for issue_number) None body)
    as [m|] eqn:E; [clear H | discriminate].
  apply search_from_sound in E as (p1 & s1 & Hs1 & E).
  unfold match_at, closing_pattern_for in E. rewrite rmatch_cat in E.
  apply rmatch_suffix in E as (p2 & s2 & c2 & Hs2 & E).
  rewrite rmatch_cat in E.
  apply rmatch_suffix in E as (p3 & s3 & c3 & Hs3 & E).
  rewrite rmatch_cat in E.
  apply lits_inv in E as (p4 & rest & -> & _).
  - destruct (suffix_trans _ _ _ Hs3 (suffix_trans _ _ _ Hs2 Hs1)) as [pre ->].
    apply contains_spec. now exists pre, rest.
  - intros c x [<-|Hc]; apply char_eq_caseless; [reflexivity|].
    now apply py_str_chars in Hc.
Qed.

Lemma strong_spec (issue_number : Z) (p : PullRequest) :
  strong issue_number (Some p) =
  closed_and_merged p && closes issue_number (body_or_empty (pr_body p)).
Proof.
  cbn [strong eligible]. unfold mentions.
  destruct (closes issue_number (body_or_empty (pr_body p))) eqn:E.
  - apply closes_mentions in E. rewrite E. simpl. now rewrite !andb_true_r.
  - now rewrite !andb_false_r.
Qed.

(* ================================================================== *)
(** ** The fetches *)

Section Fetches.

Context {S : PySet}.
Variable self : Tracker.
Variables owner repo : text.
Variable issue_number : Z.

Lemma get_issue_ok :
  status_code (issue_resp self owner repo issue_number) = 200 ->
  get_issue self owner repo issue_number =
  (Return (json (issue_resp self owner repo issue_number)),
   [Http (GetIssue owner repo issue_number)]).
Proof. unfold get_issue. now intros ->. Qed.

Lemma get_issue_fails :
  status_code (issue_resp self owner repo issue_number) <> 200 ->
  exists e, is_fetch_error e = true /\
    get_issue self owner repo issue_number =
    (Raise e, [Http (GetIssue owner repo issue_number)]).
Proof.
  intros H. unfold get_issue. cbn [tell bind].
  destruct (status_code (issue_resp self owner repo issue_number) =? 404) eqn:E4.
  - now exists (IssueNotFound issue_number).
  - apply Z.eqb_neq in H. rewrite H.
    now exists (ApiRequestFailed
                  (status_code (issue_resp self owner repo issue_number))).
Qed.

(** The pagination: [k] pages that continue, then one that stops. *)
Lemma comments_loop_pages (k : nat) :
  forall fuel page comments,
    (k < fuel)%nat ->
    (forall p, In p (page_numbers page k) ->
       page_continues self owner repo issue_number p) ->
    page_stops self owner repo issue_number (page + Z.of_nat k) ->
    comments_loop self fuel owner repo issue_number page comments =
    (Return (comments ++
             List.concat
               (map (fun p => json (comments_resp self owner repo issue_number p))
                  (page_numbers page k))),
     map (fun p => Http (GetComments owner repo issue_number p))
       (page_numbers page (Datatypes.S k))).
Proof.
  induction k as [|k IH]; intros fuel page comments Hfuel Hgo Hstop;
    (destruct fuel as [|fuel]; [lia|]); cbn [comments_loop tell bind].
  - replace (page + Z.of_nat 0) with page in Hstop by lia.
    cbn [page_numbers map concat]. rewrite app_nil_r.
    destruct Hstop as [Hst|Hst].
    + apply Z.eqb_neq in Hst. now rewrite Hst.
    + rewrite Hst.
      now destruct (negb (status_code
                            (comments_resp self owner repo issue_number page)
                          =? 200)).
  - destruct (Hgo page (or_introl eq_refl)) as [Hst Hne].
    rewrite Hst. cbn [Z.eqb negb Pos.eqb].
    destruct (json (comments_resp self owner repo issue_number page))
      as [|c0 cs] eqn:Ej; [contradiction|].
    rewrite (IH fuel (page + 1) (comments ++ c0 :: cs)).
    + cbn [page_numbers map concat app]. rewrite Ej, <- app_assoc. reflexivity.
    + lia.
    + intros p Hp. apply Hgo. now right.
    + replace (page + 1 + Z.of_nat k) with (page + Z.of_nat (Datatypes.S k)) by lia.
      assumption.
Qed.

(** The pagination raises nothing and asks for comment pages only. *)
Lemma comments_loop_quiet (fuel : nat) :
  forall page comments,
    (forall e, fst (comments_loop self fuel owner repo issue_number page comments)
               <> Raise e)
    /\ pulls_requested
         (snd (comments_loop self fuel owner repo issue_number page comments)) = [].
Proof.
  induction fuel as [|fuel IH]; intros page comments; cbn [comments_loop].
  - split; [discriminate | reflexivity].
  - rewrite bind_outcome, bind_log. cbn [tell fst snd app pulls_requested].
    destruct (negb (status_code
                      (comments_resp self owner repo issue_number page)
                    =? 200)).
    + split; [discriminate | reflexivity].
    + destruct (json (comments_resp self owner repo issue_number page)).
      * split; [discriminate | reflexivity].
      * apply IH.
Qed.

Lemma get_issue_events_returns :
  get_issue_events self owner repo issue_number =
  (Return (if status_code (events_resp self owner repo issue_number) =? 200
           then json (events_resp self owner repo issue_number) else []),
   [Http (GetEvents owner repo issue_number)]).
Proof.
  unfold get_issue_events. cbn [tell bind].
  now destruct (status_code (events_resp self owner repo issue_number) =? 200).
Qed.

Lemma comments_refs_returns (comments : list Comment) :
  forall pr_candidates, exists l,
    comments_refs owner repo comments pr_candidates = (Return l, []).
Proof.
  induction comments as [|c comments IH]; intros cands; cbn [comments_refs].
  - now exists cands.
  - destruct (truthy (comment_body c)); [|apply IH].
    rewrite extract_pr_references_returns. cbn [bind].
    match goal with |- context [comments_refs _ _ _ ?l] =>
      destruct (IH l) as [l' ->] end.
    now exists l'.
Qed.

(** Reading the events logs nothing, and raises nothing but the
    [ValueError] of a link that does not end in a number. *)
Lemma events_refs_quiet (events : list Event) :
  forall pr_candidates,
    snd (events_refs events pr_candidates) = []
    /\ forall e, fst (events_refs events pr_candidates) = Raise e -> e = ValueError.
Proof.
  induction events as [|ev events IH]; intros cands; cbn [events_refs].
  - split; [reflexivity | discriminate].
  - destruct (if text_eqb (event_kind ev) (txt "cross-referenced")
              then event_source ev else None) as [src|];
      [|destruct (text_eqb (event_kind ev) (txt "closed")
                  && truthy (event_commit_id ev)); apply IH].
    destruct (text_eqb (source_type src) (txt "issue")); [|apply IH].
    destruct (source_pull_request_url src) as [url|]; [|apply IH].
    destruct (py_int (last (split "/" url) [])) as [n|]; cbn [of_option].
    + rewrite bind_log, bind_outcome. cbn [ret fst snd app]. apply IH.
    + split; [reflexivity | now intros e [= <-]].
Qed.

End Fetches.

(* ================================================================== *)
(** ** [find_solving_pr] as a whole *)

Section Run.

Context {S : PySet}.
Variable self : Tracker.
Variables owner repo : text.
Variable issue_number : Z.

Lemma find_solving_pr_fails (fuel : nat) :
  status_code (issue_resp self owner repo issue_number) <> 200 ->
  exists e, is_fetch_error e = true /\
    find_solving_pr self fuel owner repo issue_number =
    (Raise e, [Http (GetIssue owner repo issue_number)]).
Proof.
  intros H. destruct (get_issue_fails self owner repo issue_number H)
    as (e & He & Hg).
  exists e. split; [assumption|]. unfold find_solving_pr. now rewrite Hg.
Qed.

Lemma reaches_loop_bind {A} (m : M A) (f : A -> M (option PullRequest)) :
  quiet m ->
  (forall a, reaches_loop self owner repo issue_number (f a)) ->
  reaches_loop self owner repo issue_number (bind m f).
Proof.
  intros [Hq He] Hf. destruct m as [[a|e|] l1]; cbn [fst snd bind] in *.
  - destruct (Hf a) as (pre & Hpre & H). destruct (f a) as [o l2].
    exists (l1 ++ pre). split; [now rewrite pulls_requested_app, Hq, Hpre|].
    destruct H as [H|[H|(cands & H)]]; injection H as -> ->.
    + now left.
    + right; now left.
    + right; right. exists cands. now rewrite app_assoc.
  - exists l1. split; [assumption|]. right; left. now rewrite (He e eq_refl).
  - exists l1. split; [assumption|]. now left.
Qed.

(** After a successful issue fetch, a run reaches the selection loop unless
    the pagination runs out of fuel or an event link is no number. *)
Lemma find_solving_pr_reaches_loop (fuel : nat) :
  status_code (issue_resp self owner repo issue_number) = 200 ->
  reaches_loop self owner repo issue_number
    (find_solving_pr self fuel owner repo issue_number).
Proof.
  intros Hok. unfold find_solving_pr.
  apply reaches_loop_bind.
  { rewrite (get_issue_ok self owner repo issue_number Hok).
    split; [reflexivity | discriminate]. }
  intros issue. apply reaches_loop_bind.
  { destruct (negb (text_eqb (issue_state issue) (txt "closed")));
      (split; [reflexivity | discriminate]). }
  intros _. apply reaches_loop_bind.
  { destruct (truthy (issue_body issue)).
    - rewrite extract_pr_references_returns. split; [reflexivity | discriminate].
    - split; [reflexivity | discriminate]. }
  intros from_body. apply reaches_loop_bind.
  { destruct (comments_loop_quiet self owner repo issue_number fuel 1 [])
      as [Hnr Hlc].
    split; [exact Hlc | intros e He; now contradiction (Hnr e)]. }
  intros comments. apply reaches_loop_bind.
  { destruct (comments_refs_returns owner repo comments from_body) as (l & ->).
    split; [reflexivity | discriminate]. }
  intros from_comments. apply reaches_loop_bind.
  { rewrite get_issue_events_returns. split; [reflexivity | discriminate]. }
  intros events. apply reaches_loop_bind.
  { destruct (events_refs_quiet events from_comments) as [Hl He].
    split; [now rewrite Hl | exact He]. }
  intros cands. exists []. split; [reflexivity|]. right; right.
  exists cands.
  now destruct (solving_loop self owner repo issue_number (list_set cands) None).
Qed.

End Run.

(* ================================================================== *)
(** ** The report and [main] *)

Section Report.

Context {S : PySet}.
Variable self : Tracker.
Variables owner repo : text.
Variable issue_number : Z.

(** Every exception is caught inside [print_issue_and_solution]. *)
Lemma print_issue_and_solution_catches (fuel : nat) (e : exn) :
  fst (print_issue_and_solution self fuel owner repo issue_number) <> Raise e.
Proof.
  unfold print_issue_and_solution, try_except.
  match goal with |- context [match ?m with _ => _ end] => destruct m as [[[]|e'|] l] end;
    cbn [tell fst]; discriminate.
Qed.

(** A failed issue fetch is reported by [print_issue_and_solution] itself,
    which then returns as usual. *)
Lemma print_issue_and_solution_fetch_error (fuel : nat) :
  status_code (issue_resp self owner repo issue_number) <> 200 ->
  exists e, is_fetch_error e = true /\
    print_issue_and_solution self fuel owner repo issue_number =
    (Return tt,
     [Print PrintHeader; Http (GetIssue owner repo issue_number);
      Print (PrintError e)]).
Proof.
  intros H. destruct (get_issue_fails self owner repo issue_number H)
    as (e & He & Hg).
  exists e. split; [assumption|].
  unfold print_issue_and_solution. now rewrite Hg.
Qed.

End Report.

Lemma main_rejects {S : PySet} {U : UrlLib} (api : text -> Tracker) (fuel : nat)
  (issue token : text) :
  parse_github_url issue = None ->
  main api fuel issue token = (Return 1, [Print (PrintError ValueError)]).
Proof. intros H. unfold main. now rewrite H. Qed.

Lemma main_accepts {S : PySet} {U : UrlLib} (api : text -> Tracker) (fuel : nat)
  (issue token owner repo : text) (issue_number : Z) :
  parse_github_url issue = Some (owner, repo, issue_number) ->
  main api fuel issue token =
  match print_issue_and_solution (api token) fuel owner repo issue_number with
  | (Return _, l) => (Return 0, l)
  | (Raise e, l) => (Return 1, l ++ [Print (PrintError e)])
  | (OutOfFuel, l) => (OutOfFuel, l)
  end.
Proof.
  intros H. unfold main. rewrite H. cbn [of_option ret bind app].
  destruct (print_issue_and_solution (api token) fuel owner repo issue_number)
    as [[[]|e|] l]; cbn [bind ret try_except tell app];
    now rewrite ?app_nil_r.
Qed.

(* ================================================================== *)
(** ** [str.split] *)

Lemma split_nonempty (sep : ascii) (s : text) : split sep s <> [].
Proof.
  destruct s as [|c s]; simpl; [discriminate|].
  destruct (c =? sep)%char; [discriminate|].
  destruct (split sep s); discriminate.
Qed.

Lemma split_one (sep : ascii) (s b : text) :
  split sep s = [b] -> s = b /\ has_char sep b = false.
Proof.
  revert b; induction s as [|c s IH]; intros b H; simpl in H.
  - injection H as <-. now split.
  - destruct (c =? sep)%char eqn:Ec.
    + injection H as _ H. now apply split_nonempty in H.
    + destruct (split sep s) as [|p ps] eqn:Es; [now apply split_nonempty in Es|].
      injection H as <- ->. destruct (IH p eq_refl) as [-> Hp].
      split; [reflexivity|]. simpl. now rewrite Ec.
Qed.

Lemma split_two (sep : ascii) (s a b : text) :
  split sep s = [a; b] ->
  s = a ++ sep :: b /\ has_char sep a = false /\ has_char sep b = false.
Proof.
  revert a; induction s as [|c s IH]; intros a H; simpl in H; [discriminate|].
  destruct (c =? sep)%char eqn:Ec.
  - injection H as <- H. apply split_one in H as [-> Hb].
    apply Ascii.eqb_eq in Ec as ->. now repeat split.
  - destruct (split sep s) as [|p ps] eqn:Es; [now apply split_nonempty in Es|].
    injection H as <- ->. destruct (IH p eq_refl) as (-> & Hp & Hb).
    repeat split; [| assumption]. simpl. now rewrite Ec.
Qed.

(** An accepted identifier that does not start with [http] is
    [owner/repo#number], with one [#] and one [/]. *)
Lemma parse_github_url_short {U : UrlLib} (url owner repo : text) (n : Z) :
  starts_with (txt "http") url = false ->
  parse_github_url url = Some (owner, repo, n) ->
  exists num,
    url = owner ++ txt "/" ++ repo ++ txt "#" ++ num
    /\ py_int num = Some n
    /\ has_char "/" owner = false /\ has_char "#" owner = false
    /\ has_char "/" repo = false /\ has_char "#" repo = false
    /\ has_char "#" num = false.
Proof.
  intros Hh H. unfold parse_github_url in H. rewrite Hh in H.
  destruct (has_char "#" url); [|discriminate].
  destruct (split "#" url) as [|repo_part [|issue_part [|]]] eqn:Es;
    try discriminate.
  destruct (has_char "/" repo_part); [|discriminate].
  destruct (split "/" repo_part) as [|o [|r [|]]] eqn:Er; try discriminate.
  destruct (py_int issue_part) as [v|] eqn:Ei; [|discriminate].
  injection H as -> -> ->.
  apply split_two in Es as (-> & Hrp & Hip).
  apply split_two in Er as (-> & Ho & Hr).
  exists issue_part. cbn [txt list_ascii_of_string app].
  unfold has_char in Hrp. rewrite existsb_app in Hrp.
  apply orb_false_iff in Hrp as [Ho' Hr']. cbn [existsb] in Hr'.
  apply orb_false_iff in Hr' as [_ Hr'].
  repeat split; try assumption.
  now rewrite <- app_assoc.
Qed.

(** The first part of a split text, and what the other parts are cut
    from. *)
Lemma split_head (sep : ascii) (s a : text) (rest : list text) :
  split sep s = a :: rest ->
  has_char sep a = false
  /\ match rest with
     | [] => s = a
     | _ :: _ => exists s', s = a ++ sep :: s' /\ split sep s' = rest
     end.
Proof.
  revert a rest; induction s as [|c s IH]; intros a rest H; simpl in H.
  - injection H as <- <-. now split.
  - destruct (c =? sep)%char eqn:Ec.
    + injection H as <- <-. split; [reflexivity|].
      destruct (split sep s) as [|p ps] eqn:Es; [now apply split_nonempty in Es|].
      apply Ascii.eqb_eq in Ec as ->. now exists s.
    + destruct (split sep s) as [|p ps] eqn:Es; [now apply split_nonempty in Es|].
      injection H as <- <-. destruct (IH p ps eq_refl) as [Hp Hs].
      split; [simpl; now rewrite Ec|].
      destruct ps as [|q ps].
      * now rewrite Hs.
      * destruct Hs as (s' & -> & Hs). now exists s'.
Qed.

(** An accepted identifier that starts with [http] is a URL whose path,
    without the slashes around it, is [owner/repo/issues/number], possibly
    followed by further segments. *)
Lemma parse_github_url_long {U : UrlLib} (url owner repo : text) (n : Z) :
  starts_with (txt "http") url = true ->
  parse_github_url url = Some (owner, repo, n) ->
  exists path num tail,
    urlparse_path url = Some path
    /\ strip (fun c => (c =? "/")%char) path
       = owner ++ txt "/" ++ repo ++ txt "/issues/" ++ num ++ tail
    /\ match tail with [] => True | c :: _ => c = "/"%char end
    /\ py_int num = Some n
    /\ has_char "/" owner = false /\ has_char "/" repo = false
    /\ has_char "/" num = false.
Proof.
  intros Hh H. unfold parse_github_url in H. rewrite Hh in H.
  destruct (urlparse_path url) as [path|] eqn:Ep; [|discriminate].
  cbv zeta in H.
  destruct (split "/" (strip (fun c => (c =? "/")%char) path))
    as [|a [|b [|c [|d rest]]]] eqn:Es;
    cbn [List.length Nat.leb andb nth] in H; try discriminate.
  unfold text_eqb in H.
  destruct (list_eq_dec ascii_dec c (txt "issues")) as [->|]; [|discriminate].
  destruct (py_int d) as [v|] eqn:Ei; [|discriminate].
  injection H as <- <- <-.
  apply split_head in Es as (Ha & s1 & E1 & Es).
  apply split_head in Es as (Hb & s2 & E2 & Es).
  apply split_head in Es as (_ & s3 & E3 & Es).
  apply split_head in Es as (Hd & Es).
  exists path, d.
  exists (match rest with [] => [] | _ :: _ => skipn (List.length d) s3 end).
  split; [reflexivity|].
  rewrite E1, E2, E3. cbn [txt list_ascii_of_string app].
  destruct rest as [|e rest].
  - subst s3. rewrite app_nil_r. now repeat split.
  - destruct Es as (s4 & -> & _).
    rewrite skipn_app, skipn_all, Nat.sub_diag. cbn [skipn app].
    now repeat split.
Qed.

(* ================================================================== *)
(** ** Termination of a run *)

Section Completion.

Context {S : PySet}.
Variable self : Tracker.
Variables owner repo : text.
Variable issue_number : Z.

Lemma bind_finishes {A B} (m : M A) (f : A -> M B) :
  fst m <> OutOfFuel -> (forall a, fst (f a) <> OutOfFuel) ->
  fst (bind m f) <> OutOfFuel.
Proof.
  intros Hm Hf. rewrite bind_outcome.
  destruct (fst m); [apply Hf | discriminate | contradiction].
Qed.

Lemma events_refs_finishes (events : list Event) :
  forall pr_candidates, fst (events_refs events pr_candidates) <> OutOfFuel.
Proof.
  induction events as [|ev events IH]; intros cands; cbn [events_refs].
  - discriminate.
  - destruct (if text_eqb (event_kind ev) (txt "cross-referenced")
              then event_source ev else None) as [src|];
      [|destruct (text_eqb (event_kind ev) (txt "closed")
                  && truthy (event_commit_id ev)); apply IH].
    destruct (text_eqb (source_type src) (txt "issue")); [|apply IH].
    destruct (source_pull_request_url src) as [url|]; [|apply IH].
    apply bind_finishes; [|intros; apply IH].
    destruct (py_int (last (split "/" url) [])); discriminate.
Qed.

(** With fuel for the pagination, [find_solving_pr] finishes. *)
Lemma find_solving_pr_finishes (fuel k : nat) :
  (k < fuel)%nat ->
  (forall p, In p (page_numbers 1 k) ->
     page_continues self owner repo issue_number p) ->
  page_stops self owner repo issue_number (1 + Z.of_nat k) ->
  fst (find_solving_pr self fuel owner repo issue_number) <> OutOfFuel.
Proof.
  intros Hk Hgo Hstop. unfold find_solving_pr.
  apply bind_finishes.
  { unfold get_issue. cbn [tell bind].
    destruct (status_code (issue_resp self owner repo issue_number) =? 404);
      [discriminate|].
    destruct (negb (status_code (issue_resp self owner repo issue_number) =? 200));
      discriminate. }
  intros issue. apply bind_finishes.
  { destruct (negb (text_eqb (issue_state issue) (txt "closed"))); discriminate. }
  intros _. apply bind_finishes.
  { destruct (truthy (issue_body issue)); [|discriminate].
    rewrite extract_pr_references_returns. discriminate. }
  intros from_body. apply bind_finishes.
  { unfold get_issue_comments.
    rewrite (comments_loop_pages self owner repo issue_number k fuel 1 [])
      by assumption.
    discriminate. }
  intros comments. apply bind_finishes.
  { destruct (comments_refs_returns owner repo comments from_body) as (l & ->).
    discriminate. }
  intros from_comments. apply bind_finishes.
  { rewrite get_issue_events_returns. discriminate. }
  intros events. apply bind_finishes; [apply events_refs_finishes|].
  intros cands.
  destruct (solving_loop_returns self owner repo issue_number (list_set cands) None)
    as [r ->].
  discriminate.
Qed.

Lemma print_issue_and_solution_finishes (fuel k : nat) :
  (k < fuel)%nat ->
  (forall p, In p (page_numbers 1 k) ->
     page_continues self owner repo issue_number p) ->
  page_stops self owner repo issue_number (1 + Z.of_nat k) ->
  fst (print_issue_and_solution self fuel owner repo issue_number) = Return tt.
Proof.
  intros Hk Hgo Hstop.
  pose proof (find_solving_pr_finishes fuel k Hk Hgo Hstop) as Hf.
  unfold print_issue_and_solution, try_except.
  match goal with |- context [match ?m with _ => _ end] =>
    assert (Hm : fst m <> OutOfFuel); [|destruct m as [[[]|e|] l]] end.
  - apply bind_finishes; [discriminate|]. intros _.
    apply bind_finishes.
    { unfold get_issue. cbn [tell bind].
      destruct (status_code (issue_resp self owner repo issue_number) =? 404);
        [discriminate|].
      destruct (negb (status_code (issue_resp self owner repo issue_number) =? 200));
        discriminate. }
    intros issue. apply bind_finishes; [discriminate|]. intros _.
    apply bind_finishes; [discriminate|]. intros _.
    apply bind_finishes; [exact Hf|].
    intros [p|]; discriminate.
  - reflexivity.
  - reflexivity.
  - now contradiction Hm.
Qed.

End Completion.

Lemma firstn_incl {T} (n : nat) (l : list T) (x : T) :
  In x (firstn n l) -> In x l.
Proof.
  revert n; induction l as [|y l IH]; intros n H.
  - now rewrite firstn_nil in H.
  - destruct n; [contradiction|]. cbn [firstn] in H.
    destruct H as [->|H]; [now left | right; eauto].
Qed.

Lemma firstn_NoDup {T} (n : nat) (l : list T) : NoDup l -> NoDup (firstn n l).
Proof.
  revert n; induction l as [|x l IH]; intros n H.
  - rewrite firstn_nil. constructor.
  - destruct n; [constructor|]. cbn [firstn]. inversion H; subst.
    constructor; [|now apply IH].
    intros Hin. apply firstn_incl in Hin. contradiction.
Qed.

Lemma pulls_requested_map (owner repo : text) (l : list Z) :
  pulls_requested (map (fun c => Http (GetPull owner repo c)) l) = l.
Proof. induction l as [|c l IH]; [reflexivity|]. simpl. now rewrite IH. Qed.

Lemma has_digit_after_spec (marker t : text) :
  has_digit_after marker t = true <-> digit_after marker t.
Proof.
  induction t as [|c t IH]; cbn [has_digit_after].
  - rewrite orb_false_r, andb_true_iff, starts_with_spec. split.
    + intros [[r Hr] H]. symmetry in Hr. apply app_eq_nil in Hr as [-> ->].
      discriminate.
    + intros (a & d & b & H & _). symmetry in H.
      apply app_eq_nil in H as [_ H]. apply app_eq_nil in H as [_ H].
      discriminate.
  - rewrite orb_true_iff, andb_true_iff, starts_with_spec, IH. split.
    + intros [[[r Hr] H]|(a & d & b & -> & Hd)].
      * rewrite Hr, skipn_app, skipn_all, Nat.sub_diag in H. cbn [app skipn] in H.
        destruct r as [|d r]; [discriminate|].
        exists [], d, r. now split.
      * exists (c :: a), d, b. now split.
    + intros (a & d & b & H & Hd). destruct a as [|x a].
      * left. cbn [app] in H. split; [now exists (d :: b)|].
        rewrite H, skipn_app, skipn_all, Nat.sub_diag. exact Hd.
      * right. injection H as _ ->. now exists a, d, b.
Qed.

Lemma list_set_nil {S : PySet} : list_set [] = [].
Proof.
  destruct (list_set []) as [|x l] eqn:E; [reflexivity|].
  exfalso. apply (list_set_In [] x). rewrite E. now left.
Qed.

Lemma no_items {T} (l : list T) : (forall x, ~ In x l) -> l = [].
Proof.
  destruct l as [|x l]; [reflexivity|]. intros H.
  now contradiction (H x (or_introl eq_refl)).
Qed.

(* ================================================================== *)
(** ** Selection: strong and weak matches *)

(** A pull request the loop fetches and finds strong is returned at once:
    it is the last one fetched.  Holds for the closing pattern as the
    program has it. *)
Lemma strong_match_short_circuits (self : Tracker) (owner repo : text)
  (issue_number : Z) (cands : list Z) (c : Z) :
  forall solving_pr,
    In c (pulls_requested
            (snd (solving_loop self owner repo issue_number cands solving_pr))) ->
    strong issue_number (fetched self owner repo c) = true ->
    fst (solving_loop self owner repo issue_number cands solving_pr)
    = Return (fetched self owner repo c)
    /\ exists before,
         pulls_requested
           (snd (solving_loop self owner repo issue_number cands solving_pr))
         = before ++ [c].
Proof.
  induction cands as [|x rest IH]; intros sp Hin Hs; [contradiction|].
  destruct (strong issue_number (fetched self owner repo x)) eqn:Hx.
  - rewrite solving_loop_step_strong in * by assumption.
    cbn [snd fst pulls_requested] in *. destruct Hin as [->|[]].
    split; [reflexivity | now exists []].
  - rewrite solving_loop_step_weak in * by assumption.
    rewrite bind_log in Hin. rewrite bind_log, bind_outcome.
    cbn [tell fst snd app pulls_requested] in *.
    destruct Hin as [->|Hin]; [congruence|].
    destruct (IH _ Hin Hs) as [Hr [before Hb]].
    split; [assumption|]. exists (x :: before). now rewrite Hb.
Qed.

(** C1: the closing pattern of the selection does not accept the bare verb
    of [Fix #42] (its alternative [fixes?] needs [fixe]), so a closed,
    merged pull request with that body is kept as a weak match only: issue
    42 resolves to pull request 1, fetched before it, and with none but
    ineligible candidates beside it the loop still fetches the candidate
    after it.  With [Fixes #42] the pattern matches. *)
Theorem C1_bare_fix_is_no_strong_match :
  closes 42 (txt "Fix #42") = false
  /\ closes 42 (txt "Fixes #42") = true
  /\ find_solving_pr (S := first_seen) fix_tracker 1 (txt "octo") (txt "repo") 42
     = (Return (Some (merged_pull 1 "Related work, see issue 42")),
        [Http (GetIssue (txt "octo") (txt "repo") 42);
         Http (GetComments (txt "octo") (txt "repo") 42 1);
         Http (GetEvents (txt "octo") (txt "repo") 42);
         Http (GetPull (txt "octo") (txt "repo") 1);
         Http (GetPull (txt "octo") (txt "repo") 2);
         Http (GetPull (txt "octo") (txt "repo") 3)])
  /\ solving_loop fix_tracker (txt "octo") (txt "repo") 42 [2; 3] None
     = (Return (Some (merged_pull 2 "Fix #42")),
        [Http (GetPull (txt "octo") (txt "repo") 2);
         Http (GetPull (txt "octo") (txt "repo") 3)]).
Proof. repeat split; vm_compute; reflexivity. Qed.

(** Each of the specification's reasons makes a candidate ineligible. *)
Lemma ineligible_cases (issue_number : Z) (o : option PullRequest) :
  match o with
  | None => True
  | Some p =>
      text_eqb (pr_state p) (txt "closed") = false
      \/ pr_merged p = false
      \/ contains (py_str issue_number) (body_or_empty (pr_body p)) = false
  end ->
  eligible issue_number o = false.
Proof.
  destruct o as [p|]; [|reflexivity]. cbn [eligible].
  rewrite mentions_bare. unfold closed_and_merged.
  intros [H|[H|H]]; rewrite H; now rewrite ?andb_false_r.
Qed.

(** When no fetched candidate passes the loop's own test for a strong
    match, the loop returns the first eligible pull request in the order of
    iteration, and none when no candidate is eligible, in particular when
    every fetched pull request is absent, open, unmerged or has a body
    without the issue number. *)
Lemma weak_match_or_none (self : Tracker) (owner repo : text)
  (issue_number : Z) (cands : list Z) :
  (forall c, In c cands ->
     strong issue_number (fetched self owner repo c) = false) ->
  (forall pre c post,
     cands = pre ++ c :: post ->
     (forall x, In x pre ->
        eligible issue_number (fetched self owner repo x) = false) ->
     eligible issue_number (fetched self owner repo c) = true ->
     fst (solving_loop self owner repo issue_number cands None)
     = Return (fetched self owner repo c))
  /\ ((forall c, In c cands ->
         eligible issue_number (fetched self owner repo c) = false) ->
      fst (solving_loop self owner repo issue_number cands None) = Return None)
  /\ ((forall c, In c cands ->
         match fetched self owner repo c with
         | None => True
         | Some p =>
             text_eqb (pr_state p) (txt "closed") = false
             \/ pr_merged p = false
             \/ contains (py_str issue_number) (body_or_empty (pr_body p)) = false
         end) ->
      fst (solving_loop self owner repo issue_number cands None) = Return None).
Proof.
  intros Hns. rewrite solving_loop_no_strong by assumption. cbn [fst].
  assert (Hnone : (forall c, In c cands ->
                     eligible issue_number (fetched self owner repo c) = false) ->
                  first_eligible self owner repo issue_number cands = None).
  { clear Hns. induction cands as [|c rest IH]; intros H; [reflexivity|].
    cbn [first_eligible]. rewrite (H c (or_introl eq_refl)).
    apply IH. intros x Hx. apply H. now right. }
  split; [|split].
  - intros pre c post -> Hpre Hc. f_equal. clear Hns Hnone.
    induction pre as [|x pre IH]; cbn [app first_eligible].
    + now rewrite Hc.
    + rewrite (Hpre x (or_introl eq_refl)). apply IH.
      intros y Hy. apply Hpre. now right.
  - intros H. now rewrite Hnone.
  - intros H. rewrite Hnone; [reflexivity|].
    intros c Hc. apply ineligible_cases. now apply H.
Qed.

(** C2: the claim fails on the program by the slip of C1, from its other
    side: the alternative [fixes?] of the closing pattern accepts [fixe],
    which is none of the keywords close(s), fix(es), resolve(s).  For issue
    42 with candidates 1, 2 and 3, no fetched pull request is a strong match
    in the words of the specification and pull request 1 is the first
    eligible one; the program takes pull request 2, whose body holds
    [fixe #42], for a strong match, returns it and does not fetch
    candidate 3. *)
Theorem C2_fixe_is_taken_for_a_strong_match :
  spec_strong 42 (fetched fixe_tracker (txt "octo") (txt "repo") 1) = false
  /\ spec_strong 42 (fetched fixe_tracker (txt "octo") (txt "repo") 2) = false
  /\ spec_strong 42 (fetched fixe_tracker (txt "octo") (txt "repo") 3) = false
  /\ first_eligible fixe_tracker (txt "octo") (txt "repo") 42 [1; 2; 3]
     = Some (merged_pull 1 "Related work, see issue 42")
  /\ strong 42 (fetched fixe_tracker (txt "octo") (txt "repo") 2) = true
  /\ find_solving_pr (S := first_seen) fixe_tracker 1 (txt "octo") (txt "repo") 42
     = (Return (Some (merged_pull 2 "Ce correctif fixe #42")),
        [Http (GetIssue (txt "octo") (txt "repo") 42);
         Http (GetComments (txt "octo") (txt "repo") 42 1);
         Http (GetEvents (txt "octo") (txt "repo") 42);
         Http (GetPull (txt "octo") (txt "repo") 1);
         Http (GetPull (txt "octo") (txt "repo") 2)])
  /\ spec_closes 42 (txt "Fix #42") = true
  /\ spec_closes 42 (txt "fixes #42") = true
  /\ spec_closes 42 (txt "Closes #42") = true
  /\ spec_closes 42 (txt "resolve #42") = true
  /\ spec_closes 42 (txt "fixes #421") = false.
Proof. repeat split; vm_compute; reflexivity. Qed.

(** C10: in the eligibility test the disjunct on [#N] adds nothing: a body
    that holds [#N] holds the decimal string of [N], so a closed and merged
    pull request is eligible exactly when its body holds that string, also
    inside a longer number such as 1429 for issue 42. *)
Theorem C10_hash_disjunct_redundant (issue_number : Z) (body : text) :
  (contains ("#"%char :: py_str issue_number) body = true ->
   contains (py_str issue_number) body = true)
  /\ mentions issue_number body = contains (py_str issue_number) body
  /\ (forall p, closed_and_merged p = true ->
        eligible issue_number (Some p)
        = contains (py_str issue_number) (body_or_empty (pr_body p)))
  /\ eligible 42 (Some (merged_pull 7 "bump to build 1429")) = true
  /\ contains (txt "#42") (txt "bump to build 1429") = false.
Proof.
  split; [apply contains_tail|].
  split; [apply mentions_bare|].
  split; [|split; vm_compute; reflexivity].
  intros p Hp. cbn [eligible]. now rewrite Hp, mentions_bare.
Qed.

Lemma C10_witness :
  contains (txt "42") (txt "Closes #42, see 1429") = true.
Proof.
  apply (proj1 (C10_hash_disjunct_redundant 42 (txt "Closes #42, see 1429"))).
  vm_compute. reflexivity.
Defined.

(* ================================================================== *)
(** ** Extraction of references *)

(** C3, as stated, fails: a text whose only digit follows the pull-request
    URL of the repository has no digit after [#], [fix], [close] or
    [resolve], and yet yields a candidate. *)
Lemma C3_counterexample :
  has_digit_after (txt "#") (txt "https://github.com/octo/repo/pull/7") = false
  /\ has_digit_after (txt "fix") (txt "https://github.com/octo/repo/pull/7") = false
  /\ has_digit_after (txt "close") (txt "https://github.com/octo/repo/pull/7") = false
  /\ has_digit_after (txt "resolve") (txt "https://github.com/octo/repo/pull/7") = false
  /\ extract_pr_references (S := first_seen)
       (txt "https://github.com/octo/repo/pull/7") (txt "octo") (txt "repo")
     = (Return [7], []).
Proof. repeat split; vm_compute; reflexivity. Qed.

(** C3, amended: a text with no digit immediately after [#] and none
    immediately after the pull-request URL prefix of the repository yields
    no candidate. *)
Theorem C3_no_reference_no_candidate {S : PySet} (t owner repo : text) :
  has_digit_after (txt "#") t = false ->
  has_digit_after (pull_url_prefix owner repo) t = false ->
  extract_pr_references t owner repo = (Return [], []).
Proof.
  intros Hh Hu. rewrite extract_pr_references_returns.
  assert (Nh : ~ digit_after (txt "#") t).
  { intros H. apply has_digit_after_spec in H. congruence. }
  assert (Nu : ~ digit_after (pull_url_prefix owner repo) t).
  { intros H. apply has_digit_after_spec in H. congruence. }
  rewrite (no_items (re_findall false hashtag_pattern t))
    by (intros g Hg; apply findall_hashtag_inv in Hg; tauto).
  rewrite (no_items (re_findall false (url_pattern owner repo) t))
    by (intros g Hg; apply findall_url_inv in Hg; tauto).
  rewrite (no_items (re_findall true closing_pattern t))
    by (intros g Hg; apply findall_closing_inv in Hg; tauto).
  cbn [map app]. now rewrite list_set_nil.
Qed.

Lemma C3_witness :
  extract_pr_references (S := first_seen)
    (txt "fix the build, close the # 12 tab; see pull/7") (txt "octo") (txt "repo")
  = (Return [], []).
Proof.
  apply (@C3_no_reference_no_candidate first_seen
           (txt "fix the build, close the # 12 tab; see pull/7")
           (txt "octo") (txt "repo")); vm_compute; reflexivity.
Defined.

(** C9: whatever the closing pattern finds, the hashtag pattern finds, and
    this for any verb before the blanks; so the extraction returns the
    members of the hashtag and URL matches, and no other. *)
Theorem C9_closing_subset_of_hashtag {S : PySet} (t owner repo : text) :
  (forall g, In g (re_findall true closing_pattern t) ->
             In g (re_findall false hashtag_pattern t))
  /\ (forall ic verb g,
        In g (re_findall ic (Cat verb (Cat (Plus Space) hashtag_pattern)) t) ->
        In g (re_findall false hashtag_pattern t))
  /\ exists hashtags urls closings,
       int_all (re_findall false hashtag_pattern t) = (Return hashtags, [])
       /\ int_all (re_findall false (url_pattern owner repo) t) = (Return urls, [])
       /\ int_all (re_findall true closing_pattern t) = (Return closings, [])
       /\ incl closings hashtags
       /\ exists refs,
            extract_pr_references t owner repo = (Return refs, [])
            /\ forall n, In n refs <-> In n hashtags \/ In n urls.
Proof.
  split; [intros g; apply closing_in_hashtag|].
  split; [intros ic verb g; apply keyword_in_hashtag|].
  exists (map int_value (re_findall false hashtag_pattern t)),
         (map int_value (re_findall false (url_pattern owner repo) t)),
         (map int_value (re_findall true closing_pattern t)).
  assert (Hincl : incl (map int_value (re_findall true closing_pattern t))
                       (map int_value (re_findall false hashtag_pattern t))).
  { intros n Hn. apply in_map_iff in Hn as (g & <- & Hg).
    apply in_map. now apply closing_in_hashtag. }
  repeat split.
  - apply int_all_digits. intros g Hg. apply findall_hashtag_inv in Hg. tauto.
  - apply int_all_digits. intros g Hg. apply findall_url_inv in Hg. tauto.
  - apply int_all_digits. intros g Hg. apply findall_closing_inv in Hg. tauto.
  - exact Hincl.
  - eexists. split; [apply extract_pr_references_returns|].
    intros n. rewrite list_set_In, !in_app_iff. split.
    + intros [H|[H|H]]; auto.
    + intros [H|H]; auto.
Qed.

Lemma C9_witness :
  incl [42] [99; 42; 99]
  /\ extract_pr_references (S := first_seen)
       (txt "fixed by #99, closes #42 via #99") (txt "octo") (txt "repo")
     = (Return [99; 42], []).
Proof.
  destruct (C9_closing_subset_of_hashtag (S := first_seen)
              (txt "fixed by #99, closes #42 via #99") (txt "octo") (txt "repo"))
    as (_ & _ & hs & us & cs & Hh & Hu & Hc & Hincl & refs & Hrefs & _).
  vm_compute in Hh, Hc. injection Hh as <-. injection Hc as <-.
  split; [exact Hincl | vm_compute; reflexivity].
Defined.

(** C7: in a run of [find_solving_pr] no pull request is asked for twice,
    and every extraction returns a list without duplicates. *)
Theorem C7_candidates_deduplicated {S : PySet} (self : Tracker) (fuel : nat)
  (owner repo : text) (issue_number : Z) :
  NoDup (pulls_requested
           (snd (find_solving_pr self fuel owner repo issue_number)))
  /\ forall t, exists refs,
       extract_pr_references t owner repo = (Return refs, []) /\ NoDup refs.
Proof.
  split.
  - destruct (Z.eq_dec (status_code (issue_resp self owner repo issue_number)) 200)
      as [Hok|Hko].
    + destruct (find_solving_pr_reaches_loop self owner repo issue_number fuel Hok)
        as (pre & Hpre & [->|[->|(cands & ->)]]); cbn [snd];
        try (rewrite Hpre; constructor).
      rewrite pulls_requested_app, Hpre. cbn [app].
      destruct (solving_loop_log self owner repo issue_number (list_set cands) None)
        as [n ->].
      rewrite pulls_requested_map. apply firstn_NoDup, list_set_NoDup.
    + destruct (find_solving_pr_fails self owner repo issue_number fuel Hko)
        as (e & _ & ->).
      cbn. constructor.
  - intros t. eexists. split; [apply extract_pr_references_returns|].
    apply list_set_NoDup.
Qed.

Lemma C7_witness :
  NoDup (pulls_requested
           (snd (find_solving_pr (S := first_seen)
                   (scenario "Related work, see issue 42") 2
                   (txt "octo") (txt "repo") 42))).
Proof.
  exact (proj1 (C7_candidates_deduplicated (S := first_seen)
                  (scenario "Related work, see issue 42") 2
                  (txt "octo") (txt "repo") 42)).
Defined.

(* ================================================================== *)
(** ** Fetch failures and pagination *)

(** C8: the comments are fetched page by page from page 1; at the first
    page that fails or is empty the loop ends, having asked for that page
    and no further one, and returns the pages before it, concatenated.  It
    never raises, and with such a page within the fuel it terminates. *)
Theorem C8_pagination_stops_at_first_bad_page (self : Tracker)
  (owner repo : text) (issue_number : Z) (k fuel : nat) :
  (k < fuel)%nat ->
  (forall p, In p (page_numbers 1 k) ->
     page_continues self owner repo issue_number p) ->
  page_stops self owner repo issue_number (1 + Z.of_nat k) ->
  get_issue_comments self fuel owner repo issue_number =
  (Return (List.concat
             (map (fun p => json (comments_resp self owner repo issue_number p))
                (page_numbers 1 k))),
   map (fun p => Http (GetComments owner repo issue_number p))
     (page_numbers 1 (Datatypes.S k)))
  /\ forall fuel' e,
       fst (get_issue_comments self fuel' owner repo issue_number) <> Raise e.
Proof.
  intros Hk Hgo Hstop. split.
  - unfold get_issue_comments.
    now rewrite (comments_loop_pages self owner repo issue_number k fuel 1 []).
  - intros fuel' e. apply comments_loop_quiet.
Qed.

Lemma C8_witness :
  get_issue_comments (scenario "Closes #42") 2 (txt "octo") (txt "repo") 42 =
  (Return [{| comment_body := Some (txt "fixed by #99, closes #42 via #99") |}],
   [Http (GetComments (txt "octo") (txt "repo") 42 1);
    Http (GetComments (txt "octo") (txt "repo") 42 2)]).
Proof.
  refine (proj1 (C8_pagination_stops_at_first_bad_page (scenario "Closes #42")
                   (txt "octo") (txt "repo") 42 1 2 _ _ _)).
  - lia.
  - intros p [<-|[]]. split; [reflexivity | discriminate].
  - right. reflexivity.
Defined.

(** C5: the issue fetch raises on every status but 200, and that exception
    leaves [find_solving_pr]; no other fetch raises: the pagination returns
    what it has when a page fails, a failed events fetch gives the empty
    list, a failed pull-request fetch gives the empty record, which the
    loop passes over before going on with the candidates left.  After a
    successful issue fetch no fetch error leaves [find_solving_pr]. *)
Theorem C5_only_issue_fetch_aborts {S : PySet} (self : Tracker) (fuel : nat)
  (owner repo : text) (issue_number : Z) :
  (status_code (issue_resp self owner repo issue_number) = 200 ->
   fst (get_issue self owner repo issue_number)
   = Return (json (issue_resp self owner repo issue_number)))
  /\ (status_code (issue_resp self owner repo issue_number) <> 200 ->
      exists e, is_fetch_error e = true
        /\ fst (get_issue self owner repo issue_number) = Raise e
        /\ fst (find_solving_pr self fuel owner repo issue_number) = Raise e)
  /\ (forall e,
        fst (get_issue_comments self fuel owner repo issue_number) <> Raise e)
  /\ (forall k,
        (k < fuel)%nat ->
        (forall p, In p (page_numbers 1 k) ->
           page_continues self owner repo issue_number p) ->
        status_code (comments_resp self owner repo issue_number (1 + Z.of_nat k))
        <> 200 ->
        fst (get_issue_comments self fuel owner repo issue_number)
        = Return (List.concat
                    (map (fun p => json (comments_resp self owner repo issue_number p))
                       (page_numbers 1 k))))
  /\ (status_code (events_resp self owner repo issue_number) <> 200 ->
      get_issue_events self owner repo issue_number
      = (Return [], [Http (GetEvents owner repo issue_number)]))
  /\ (forall c rest solving_pr,
        status_code (pull_resp self owner repo c) <> 200 ->
        get_pr self owner repo c = (Return None, [Http (GetPull owner repo c)])
        /\ solving_loop self owner repo issue_number (c :: rest) solving_pr
           = bind (tell (Http (GetPull owner repo c)))
               (fun _ => solving_loop self owner repo issue_number rest solving_pr))
  /\ (status_code (issue_resp self owner repo issue_number) = 200 ->
      forall e,
        fst (find_solving_pr self fuel owner repo issue_number) = Raise e ->
        is_fetch_error e = false).
Proof.
  repeat split.
  - intros H. now rewrite get_issue_ok.
  - intros H.
    destruct (get_issue_fails self owner repo issue_number H) as (e & He & Hg).
    exists e. split; [assumption|]. split; [now rewrite Hg|].
    unfold find_solving_pr. now rewrite Hg.
  - intros e. apply comments_loop_quiet.
  - intros k Hk Hgo Hstop. unfold get_issue_comments.
    rewrite (comments_loop_pages self owner repo issue_number k fuel 1 []);
      [reflexivity | assumption | assumption | now left].
  - intros H. rewrite get_issue_events_returns.
    apply Z.eqb_neq in H. now rewrite H.
  - rewrite get_pr_fetched. unfold fetched.
    apply Z.eqb_neq in H. now rewrite H.
  - assert (Hf : fetched self owner repo c = None).
    { unfold fetched. apply Z.eqb_neq in H. now rewrite H. }
    rewrite solving_loop_step_weak by now rewrite Hf.
    rewrite Hf. now destruct solving_pr.
  - intros Hok e He.
    destruct (find_solving_pr_reaches_loop self owner repo issue_number fuel Hok)
      as (pre & _ & [H|[H|(cands & H)]]); rewrite H in He; cbn [fst] in He.
    + discriminate.
    + now injection He as <-.
    + destruct (solving_loop_returns self owner repo issue_number
                  (list_set cands) None) as [r Hr].
      rewrite Hr in He. discriminate.
Qed.

Lemma C5_witness :
  get_issue_events flaky_tracker (txt "octo") (txt "repo") 42
  = (Return [], [Http (GetEvents (txt "octo") (txt "repo") 42)])
  /\ get_pr flaky_tracker (txt "octo") (txt "repo") 7
     = (Return None, [Http (GetPull (txt "octo") (txt "repo") 7)])
  /\ fst (get_issue_comments flaky_tracker 1 (txt "octo") (txt "repo") 42)
     = Return [].
Proof.
  destruct (C5_only_issue_fetch_aborts (S := first_seen) flaky_tracker 1
              (txt "octo") (txt "repo") 42)
    as (_ & _ & _ & Hpages & Hevents & Hpull & _).
  split; [|split].
  - apply Hevents. vm_compute. discriminate.
  - apply (Hpull 7 [] None). vm_compute. discriminate.
  - apply (Hpages 0%nat).
    + lia.
    + intros p [].
    + vm_compute. discriminate.
Defined.

(* ================================================================== *)
(** ** Identifier and exit status *)

(** C6, as stated, fails: identifiers that are neither [owner/repo#number]
    nor a URL of the form [https://host/owner/repo/issues/number] are
    accepted when they start with [http] and their path fits. *)
Lemma C6_counterexample :
  has_char "#" (txt "http/repo/issues/42") = false
  /\ starts_with (txt "https://") (txt "http/repo/issues/42") = false
  /\ parse_github_url (U := unchecked_brackets) (txt "http/repo/issues/42")
     = Some (txt "http", txt "repo", 42)
  /\ parse_github_url (U := unchecked_brackets)
       (txt "https://github.com/octo/repo/issues/42/timeline")
     = Some (txt "octo", txt "repo", 42).
Proof. repeat split; vm_compute; reflexivity. Qed.

(** C6, amended: the two identifiers of the scenario parse to (octo, repo,
    42); [octo/repo], a pull-request URL, a repository URL, a URL without
    the number and one with an unpaired bracket in its host are rejected;
    an identifier that does not start with [http] is accepted only in the
    shape [owner/repo#number], with one [#], one [/] before it and a number
    that [int] reads; an identifier that starts with [http] is accepted only
    when the path of the URL, without the slashes around it, is
    [owner/repo/issues/number], possibly followed by further segments, with
    a number that [int] reads; and a rejected identifier ends the run with
    status 1 before any request is made. *)
Theorem C6_identifier_formats {S : PySet} {U : UrlLib} (api : text -> Tracker)
  (fuel : nat) (url token : text) :
  parse_github_url (txt "octo/repo#42") = Some (txt "octo", txt "repo", 42)
  /\ parse_github_url (txt "https://github.com/octo/repo/issues/42")
     = Some (txt "octo", txt "repo", 42)
  /\ parse_github_url (txt "octo/repo") = None
  /\ parse_github_url (txt "https://github.com/octo/repo/pull/42") = None
  /\ parse_github_url (txt "https://github.com/octo/repo") = None
  /\ parse_github_url (txt "https://github.com/octo/repo/issues/") = None
  /\ parse_github_url (txt "https://[github.com/octo/repo/issues/42") = None
  /\ (starts_with (txt "http") url = false ->
      has_char "#" url = false -> parse_github_url url = None)
  /\ (starts_with (txt "http") url = false ->
      forall owner repo n,
        parse_github_url url = Some (owner, repo, n) ->
        exists num,
          url = owner ++ txt "/" ++ repo ++ txt "#" ++ num
          /\ py_int num = Some n
          /\ has_char "/" owner = false /\ has_char "#" owner = false
          /\ has_char "/" repo = false /\ has_char "#" repo = false
          /\ has_char "#" num = false)
  /\ (starts_with (txt "http") url = true ->
      forall owner repo n,
        parse_github_url url = Some (owner, repo, n) ->
        exists path num tail,
          urlparse_path url = Some path
          /\ strip (fun c => (c =? "/")%char) path
             = owner ++ txt "/" ++ repo ++ txt "/issues/" ++ num ++ tail
          /\ match tail with [] => True | c :: _ => c = "/"%char end
          /\ py_int num = Some n
          /\ has_char "/" owner = false /\ has_char "/" repo = false
          /\ has_char "/" num = false)
  /\ (parse_github_url url = None ->
      fst (main api fuel url token) = Return 1
      /\ requests (snd (main api fuel url token)) = []).
Proof.
  do 7 (split; [vm_compute; reflexivity|]).
  split; [|split; [|split]].
  - intros Hh Hc. unfold parse_github_url. now rewrite Hh, Hc.
  - intros Hh owner repo n. now apply parse_github_url_short.
  - intros Hh owner repo n. now apply parse_github_url_long.
  - intros H. now rewrite main_rejects.
Qed.

Lemma C6_witness :
  fst (main (S := first_seen) (U := unchecked_brackets)
         (fun _ => empty_tracker) 1 (txt "octo/repo") (txt "token")) = Return 1
  /\ requests (snd (main (S := first_seen) (U := unchecked_brackets)
                      (fun _ => empty_tracker) 1
                      (txt "octo/repo") (txt "token"))) = [].
Proof.
  destruct (C6_identifier_formats (S := first_seen) (U := unchecked_brackets)
              (fun _ => empty_tracker) 1 (txt "octo/repo") (txt "token"))
    as (_ & _ & _ & _ & _ & _ & _ & Hreject & _ & _ & Hmain).
  apply Hmain. apply Hreject; vm_compute; reflexivity.
Defined.

(** What [main] returns, for every tracker: it lets no exception out; its
    status is 1 when the identifier does not parse, and 0 on every
    completion after the identifier has parsed, be a solution found or not,
    and also when the issue fetch has failed.  With fuel for the pagination
    the run completes. *)
Lemma main_exit_status {S : PySet} {U : UrlLib} (api : text -> Tracker)
  (fuel : nat) (issue token : text) :
  (forall e, fst (main api fuel issue token) <> Raise e)
  /\ (parse_github_url issue = None ->
      fst (main api fuel issue token) = Return 1)
  /\ (forall owner repo issue_number,
        parse_github_url issue = Some (owner, repo, issue_number) ->
        (forall code, fst (main api fuel issue token) = Return code -> code = 0)
        /\ (status_code (issue_resp (api token) owner repo issue_number) <> 200 ->
            fst (main api fuel issue token) = Return 0)
        /\ (forall k,
              (k < fuel)%nat ->
              (forall p, In p (page_numbers 1 k) ->
                 page_continues (api token) owner repo issue_number p) ->
              page_stops (api token) owner repo issue_number (1 + Z.of_nat k) ->
              fst (main api fuel issue token) = Return 0)).
Proof.
  assert (Hacc : forall owner repo issue_number,
            parse_github_url issue = Some (owner, repo, issue_number) ->
            fst (main api fuel issue token) =
            match fst (print_issue_and_solution (api token) fuel owner repo
                         issue_number) with
            | Return _ => Return 0
            | Raise _ => Return 1
            | OutOfFuel => OutOfFuel
            end).
  { intros owner repo n H. rewrite (main_accepts api fuel issue token owner repo n H).
    now destruct (print_issue_and_solution (api token) fuel owner repo n)
      as [[[]|e|] l]. }
  split; [|split].
  - intros e. destruct (parse_github_url issue) as [[[owner repo] n]|] eqn:E.
    + rewrite (Hacc owner repo n eq_refl).
      destruct (fst (print_issue_and_solution (api token) fuel owner repo n));
        discriminate.
    + rewrite main_rejects by assumption. discriminate.
  - intros H. now rewrite main_rejects.
  - intros owner repo n H. rewrite (Hacc owner repo n H).
    pose proof (print_issue_and_solution_catches (api token) owner repo n fuel)
      as Hc.
    split; [|split].
    + intros code.
      destruct (fst (print_issue_and_solution (api token) fuel owner repo n))
        as [u|e|]; [now intros [= <-] | now contradiction (Hc e) | discriminate].
    + intros Hs.
      destruct (print_issue_and_solution_fetch_error (api token) owner repo n
                  fuel Hs) as (e & _ & ->).
      reflexivity.
    + intros k Hk Hgo Hstop.
      now rewrite (print_issue_and_solution_finishes (api token) owner repo n
                     fuel k Hk Hgo Hstop).
Qed.

(** C4: the claim fails on the program where the issue fetch fails.  The
    issue of [octo/repo#42] answers 404 and [get_issue] raises; the handler
    of [main], which returns 1 and encloses the call, is not reached, since
    [print_issue_and_solution] catches the exception itself, prints the
    error line and returns: the exit status is 0.  The sibling path of an
    identifier that does not parse prints the same kind of line and exits
    with 1. *)
Theorem C4_failed_issue_fetch_exits_0 :
  status_code (issue_resp empty_tracker (txt "octo") (txt "repo") 42) = 404
  /\ get_issue empty_tracker (txt "octo") (txt "repo") 42
     = (Raise (IssueNotFound 42), [Http (GetIssue (txt "octo") (txt "repo") 42)])
  /\ main (S := first_seen) (U := unchecked_brackets) (fun _ => empty_tracker) 1
       (txt "octo/repo#42") (txt "token")
     = (Return 0,
        [Print PrintHeader;
         Http (GetIssue (txt "octo") (txt "repo") 42);
         Print (PrintError (IssueNotFound 42))])
  /\ main (S := first_seen) (U := unchecked_brackets) (fun _ => down_tracker) 1
       (txt "octo/repo#42") (txt "token")
     = (Return 0,
        [Print PrintHeader;
         Http (GetIssue (txt "octo") (txt "repo") 42);
         Print (PrintError (ApiRequestFailed 500))])
  /\ main (S := first_seen) (U := unchecked_brackets) (fun _ => empty_tracker) 1
       (txt "octo/repo") (txt "token")
     = (Return 1, [Print (PrintError ValueError)]).
Proof. repeat split; vm_compute; reflexivity. Qed.

(* ================================================================== *)
(** * Further properties of the program *)

(* ================================================================== *)
(** ** [int] after [str] *)

Lemma strip_keep (p : ascii -> bool) (s : text) :
  match s with c :: _ => p c = false | [] => True end ->
  match rev s with c :: _ => p c = false | [] => True end ->
  strip p s = s.
Proof.
  intros H1 H2. unfold strip.
  rewrite (lstrip_keep p s H1), (lstrip_keep p (rev s) H2).
  apply rev_involutive.
Qed.

Lemma uint_text_digits (d : Decimal.uint) : forallb is_digit (uint_text d) = true.
Proof. induction d; simpl; auto. Qed.

Lemma uint_text_nonempty (d : Decimal.uint) :
  d <> Decimal.Nil -> uint_text d <> [].
Proof. destruct d; [contradiction | discriminate..]. Qed.

(** The digits read after an accumulator that is not zero. *)
Lemma digits_us_uint_acc (d : Decimal.uint) :
  forall acc : positive,
    digits_us (Z.pos acc) (uint_text d) = Some (Z.pos (Pos.of_uint_acc d acc)).
Proof.
  induction d; intros acc; [reflexivity|..];
    cbn [uint_text NilEmpty.string_of_uint list_ascii_of_string digits_us
         Pos.of_uint_acc];
    (match goal with
     | |- context [is_digit ?c] => change (is_digit c) with true; cbv iota
     end);
    (match goal with
     | |- context [digit_val ?c] =>
         let x := eval vm_compute in (digit_val c) in
         change (digit_val c) with x
     end);
    (match goal with
     | |- digits_us ?v _ = Some (Z.pos (Pos.of_uint_acc _ ?a)) =>
         replace v with (Z.pos a) by lia
     end);
    apply IHd.
Qed.

(** The digits read from the start: leading zeros count for nothing. *)
Lemma digits_us_uint_zero (d : Decimal.uint) :
  digits_us 0 (uint_text d) = Some (Z.of_N (Pos.of_uint d)).
Proof.
  induction d; [reflexivity|..];
    cbn [uint_text NilEmpty.string_of_uint list_ascii_of_string digits_us];
    (match goal with
     | |- context [is_digit ?c] => change (is_digit c) with true; cbv iota
     end);
    [exact IHd|..];
    cbn [Pos.of_uint Z.of_N];
    (match goal with
     | |- context [digit_val ?c] =>
         let x := eval vm_compute in (digit_val c) in
         change (digit_val c) with x
     end);
    (match goal with
     | |- digits_us ?v _ = Some (Z.pos (Pos.of_uint_acc _ ?a)) =>
         replace v with (Z.pos a) by lia
     end);
    apply digits_us_uint_acc.
Qed.

Lemma unsigned_literal_uint (d : Decimal.uint) :
  d <> Decimal.Nil ->
  unsigned_literal (uint_text d) = Some (Z.of_N (Pos.of_uint d)).
Proof.
  intros Hd.
  destruct d; [contradiction|..];
    cbn [uint_text NilEmpty.string_of_uint list_ascii_of_string unsigned_literal];
    (match goal with
     | |- context [is_digit ?c] => change (is_digit c) with true; cbv iota
     end);
    [exact (digits_us_uint_zero d)|..];
    cbn [Pos.of_uint Z.of_N];
    (match goal with
     | |- context [digit_val ?c] =>
         let x := eval vm_compute in (digit_val c) in
         change (digit_val c) with x
     end);
    (match goal with
     | |- digits_us ?v _ = Some (Z.pos (Pos.of_uint_acc _ ?a)) =>
         replace v with (Z.pos a) by lia
     end);
    apply digits_us_uint_acc.
Qed.

(** [str] of an integer: an optional minus sign and its digits. *)
Lemma py_str_shape (n : Z) :
  exists d, d <> Decimal.Nil
    /\ Z.of_N (Pos.of_uint d) = Z.abs n
    /\ py_str n = if n <? 0 then "-"%char :: uint_text d else uint_text d.
Proof.
  unfold py_str. destruct n as [|p|p]; cbn [Z.to_int Z.ltb Z.compare Z.abs].
  - exists (Decimal.D0 Decimal.Nil). repeat split. discriminate.
  - exists (Pos.to_uint p). split; [apply DecimalPos.Unsigned.to_uint_nonnil|].
    split; [now rewrite DecimalPos.Unsigned.of_to|].
    cbn [NilZero.string_of_int]. unfold NilZero.string_of_uint.
    pose proof (DecimalPos.Unsigned.to_uint_nonnil p).
    now destruct (Pos.to_uint p).
  - exists (Pos.to_uint p). split; [apply DecimalPos.Unsigned.to_uint_nonnil|].
    split; [now rewrite DecimalPos.Unsigned.of_to|].
    cbn [NilZero.string_of_int list_ascii_of_string].
    unfold NilZero.string_of_uint.
    pose proof (DecimalPos.Unsigned.to_uint_nonnil p).
    now destruct (Pos.to_uint p).
Qed.

Lemma rev_head_in {T} (s : list T) (c : T) (r : list T) :
  rev s = c :: r -> In c s.
Proof. intros H. apply in_rev. rewrite H. now left. Qed.

(** [int(str(n))] is [n]. *)
Lemma py_int_py_str (n : Z) : py_int (py_str n) = Some n.
Proof.
  destruct (py_str_shape n) as (d & Hd & Hv & Hs). rewrite Hs.
  pose proof (uint_text_digits d) as Hall.
  pose proof (uint_text_nonempty d Hd) as Hne.
  rewrite forallb_forall in Hall.
  destruct (n <? 0) eqn:Hn.
  - assert (Hstrip : strip is_int_space ("-"%char :: uint_text d)
                     = "-"%char :: uint_text d).
    { apply strip_keep; [reflexivity|].
      destruct (rev ("-"%char :: uint_text d)) as [|c r] eqn:E; [exact I|].
      apply rev_head_in in E as [<-|E]; [reflexivity|].
      now apply digit_not_int_space, Hall. }
    unfold py_int. rewrite Hstrip, unsigned_literal_uint by assumption.
    cbn [option_map]. f_equal. apply Z.ltb_lt in Hn. lia.
  - assert (Hstrip : strip is_int_space (uint_text d) = uint_text d).
    { apply strip_keep.
      - destruct (uint_text d) as [|c r]; [exact I|].
        apply digit_not_int_space, Hall. now left.
      - destruct (rev (uint_text d)) as [|c r] eqn:E; [exact I|].
        apply rev_head_in in E. now apply digit_not_int_space, Hall. }
    destruct (uint_text d) as [|c t] eqn:Et; [contradiction|].
    rewrite py_int_unsigned; [|apply Hall; now left|assumption].
    rewrite <- Et, unsigned_literal_uint by assumption.
    f_equal. apply Z.ltb_ge in Hn. lia.
Qed.

(* ================================================================== *)
(** ** Identifiers that parse, and one family that does not *)

Lemma split_no_sep (sep : ascii) (s : text) :
  has_char sep s = false -> split sep s = [s].
Proof.
  induction s as [|c s IH]; [reflexivity|]. cbn [has_char existsb split].
  intros H. apply orb_false_iff in H as [Hc Hs]. rewrite Hc.
  unfold has_char in IH. now rewrite IH.
Qed.

Lemma split_app (sep : ascii) (a b : text) :
  has_char sep a = false ->
  split sep (a ++ sep :: b) = a :: split sep b.
Proof.
  induction a as [|c a IH]; cbn [app split has_char existsb]; intros H.
  - now rewrite Ascii.eqb_refl.
  - apply orb_false_iff in H as [Hc Ha]. rewrite Hc.
    unfold has_char in IH. now rewrite IH.
Qed.

Lemma has_char_app (c : ascii) (a b : text) :
  has_char c (a ++ b) = has_char c a || has_char c b.
Proof. apply existsb_app. Qed.

Lemma has_char_forallb (p : ascii -> bool) (sep : ascii) (s : text) :
  forallb p s = true -> p sep = false -> has_char sep s = false.
Proof.
  intros Hs Hsep. induction s as [|c s IH]; [reflexivity|].
  cbn [forallb has_char existsb] in *.
  apply andb_true_iff in Hs as [Hc Hs]. unfold has_char in IH.
  rewrite IH by assumption. rewrite orb_false_r.
  apply Ascii.eqb_neq. intros ->. congruence.
Qed.

Lemma starts_with_app (p a : text) (c : ascii) (b : text) :
  has_char c p = false ->
  starts_with p (a ++ c :: b) = starts_with p a.
Proof.
  revert a; induction p as [|x p IH]; intros a H; [reflexivity|].
  cbn [has_char existsb] in H. apply orb_false_iff in H as [Hx Hp].
  destruct a as [|y a]; cbn [app starts_with].
  - now rewrite Hx.
  - unfold has_char in IH. now rewrite IH.
Qed.

Lemma py_str_name_chars (n : Z) : forallb is_name_char (py_str n) = true.
Proof.
  destruct (py_str_shape n) as (d & _ & _ & ->).
  assert (H : forallb is_name_char (uint_text d) = true).
  { pose proof (uint_text_digits d) as Hd. rewrite forallb_forall in *.
    intros c Hc. unfold is_name_char. now rewrite (Hd c Hc), orb_true_r. }
  destruct (n <? 0); [cbn [forallb]; now rewrite H | exact H].
Qed.

(** X1: the short form is read back: for names without [/] and [#], and an
    owner that does not start with [http], [owner/repo#N] with [N] written
    as [str] writes it parses to (owner, repo, N), be [N] negative or not. *)
Theorem X1_short_identifier_round_trip {U : UrlLib}
  (owner repo : text) (n : Z) :
  starts_with (txt "http") owner = false ->
  has_char "/" owner = false -> has_char "#" owner = false ->
  has_char "/" repo = false -> has_char "#" repo = false ->
  parse_github_url (owner ++ txt "/" ++ repo ++ txt "#" ++ py_str n)
  = Some (owner, repo, n).
Proof.
  intros Hh Hso Hho Hsr Hhr. cbn [txt list_ascii_of_string app].
  unfold parse_github_url.
  rewrite starts_with_app by reflexivity. rewrite Hh.
  assert (Hn : has_char "#" (py_str n) = false).
  { apply (has_char_forallb is_name_char); [apply py_str_name_chars | reflexivity]. }
  assert (Hrp : has_char "#" (owner ++ "/"%char :: repo) = false).
  { rewrite has_char_app. cbn [has_char existsb]. unfold has_char in *.
    now rewrite Hho, Hhr. }
  replace (owner ++ "/"%char :: repo ++ "#"%char :: py_str n)
    with ((owner ++ "/"%char :: repo) ++ "#"%char :: py_str n)
    by now rewrite <- app_assoc.
  rewrite has_char_app. cbn [has_char existsb]. rewrite Ascii.eqb_refl.
  cbn [orb]. rewrite orb_true_r.
  rewrite split_app, split_no_sep by assumption.
  rewrite has_char_app. cbn [has_char existsb]. rewrite Ascii.eqb_refl.
  cbn [orb]. rewrite orb_true_r.
  rewrite split_app, split_no_sep by assumption.
  now rewrite py_int_py_str.
Qed.

Lemma X1_witness :
  parse_github_url (U := unchecked_brackets)
    (txt "octo" ++ txt "/" ++ txt "repo" ++ txt "#" ++ py_str (-7))
  = Some (txt "octo", txt "repo", -7).
Proof.
  apply (X1_short_identifier_round_trip (U := unchecked_brackets) (txt "octo") (txt "repo") (-7));
    vm_compute; reflexivity.
Defined.

(** A name character is none of the characters that structure a URL. *)
Lemma name_char_plain (c : ascii) :
  is_name_char c = true ->
  (c =? "/")%char = false /\ (c =? "#")%char = false
  /\ (c =? "?")%char = false /\ (c =? ";")%char = false
  /\ (c =? ":")%char = false /\ (c =? "[")%char = false
  /\ (c =? "]")%char = false /\ is_unsafe_url_char c = false
  /\ is_netloc_delim c = false.
Proof.
  intros H.
  destruct c as [[] [] [] [] [] [] [] []]; vm_compute in H;
    try discriminate H; vm_compute; repeat split.
Qed.

Lemma name_chars_lack (sep : ascii) (s : text) :
  forallb is_name_char s = true -> is_name_char sep = false ->
  has_char sep s = false.
Proof. apply has_char_forallb. Qed.

Lemma forallb_weaken (p q : ascii -> bool) (s : text) :
  (forall c, p c = true -> q c = true) ->
  forallb p s = true -> forallb q s = true.
Proof.
  intros Hpq. rewrite !forallb_forall. auto.
Qed.

Lemma filter_keep {T} (f : T -> bool) (s : list T) :
  forallb f s = true -> filter f s = s.
Proof.
  induction s as [|c s IH]; [reflexivity|]. cbn [forallb filter].
  intros H. apply andb_true_iff in H as [-> Hs]. now rewrite IH.
Qed.

Lemma take_until_split (p : ascii -> bool) (a : text) (c : ascii) (b : text) :
  forallb (fun x => negb (p x)) a = true -> p c = true ->
  take_until p (a ++ c :: b) = (a, c :: b).
Proof.
  intros Ha Hc. induction a as [|x a IH]; cbn [app take_until].
  - now rewrite Hc.
  - cbn [forallb] in Ha. apply andb_true_iff in Ha as [Hx Ha].
    apply negb_true_iff in Hx. now rewrite Hx, IH.
Qed.

Lemma take_until_all (p : ascii -> bool) (a : text) :
  forallb (fun x => negb (p x)) a = true -> take_until p a = (a, []).
Proof.
  intros Ha. induction a as [|x a IH]; [reflexivity|]. cbn [take_until].
  cbn [forallb] in Ha. apply andb_true_iff in Ha as [Hx Ha].
  apply negb_true_iff in Hx. now rewrite Hx, IH.
Qed.

Lemma lacks_forallb (sep : ascii) (s : text) :
  has_char sep s = false ->
  forallb (fun x => negb (x =? sep)%char) s = true.
Proof.
  induction s as [|c s IH]; [reflexivity|]. cbn [has_char existsb forallb].
  intros H. apply orb_false_iff in H as [-> Hs]. now apply IH.
Qed.

Lemma split_once_spec (sep : ascii) (s a b : text) :
  split_once sep s = Some (a, b) ->
  s = a ++ sep :: b /\ has_char sep a = false.
Proof.
  revert a; induction s as [|c s IH]; intros a H; [discriminate|].
  cbn [split_once] in H. destruct (c =? sep)%char eqn:Ec.
  - injection H as <- <-. apply Ascii.eqb_eq in Ec as ->. now split.
  - destruct (split_once sep s) as [[a' b']|]; [|discriminate].
    injection H as <- <-. destruct (IH a' eq_refl) as [-> Ha].
    split; [reflexivity|]. cbn [has_char existsb]. now rewrite Ec.
Qed.

Lemma has_char_In (c : ascii) (s : text) : has_char c s = true <-> In c s.
Proof.
  unfold has_char. rewrite existsb_exists. split.
  - intros (x & Hx & E). apply Ascii.eqb_eq in E. now subst.
  - intros H. exists c. split; [assumption | apply Ascii.eqb_refl].
Qed.

(** No scheme is split off a text whose part before the first colon holds
    a slash. *)
Lemma url_scheme_none (front rest : text) :
  has_char ":" front = false -> In "/"%char front ->
  url_scheme (front ++ rest) = ([], front ++ rest).
Proof.
  intros Hcolon Hslash. unfold url_scheme.
  destruct (split_once ":" (front ++ rest)) as [[a b]|] eqn:E; [|reflexivity].
  destruct a as [|c0 sch]; [reflexivity|].
  apply split_once_spec in E as [E Ha].
  assert (Hin : In "/"%char (c0 :: sch)).
  { apply app_eq_app in E as [l [[E1 E2]|[E1 E2]]].
    - destruct l as [|x l].
      + rewrite app_nil_r in E1. now rewrite <- E1.
      + injection E2 as <- _. exfalso.
        assert (Hc : has_char ":" front = true).
        { apply has_char_In. rewrite E1. apply in_or_app. right. now left. }
        congruence.
    - rewrite E1. apply in_or_app. now left. }
  assert (Hf : forallb is_scheme_char (c0 :: sch) = false).
  { destruct (forallb is_scheme_char (c0 :: sch)) eqn:F; [|reflexivity].
    rewrite forallb_forall in F. now apply F in Hin. }
  rewrite Hf. now rewrite andb_false_r.
Qed.

(** X2: an owner that starts with [http] cannot be named in the short
    form: [owner/repo#...] is then read as a URL, whose path has at most two
    segments, and is rejected, whatever follows the [#]. *)
Theorem X2_http_owner_rejected {U : UrlLib} (owner repo num : text) :
  starts_with (txt "http") owner = true ->
  forallb is_name_char owner = true ->
  forallb is_name_char repo = true ->
  parse_github_url (owner ++ txt "/" ++ repo ++ txt "#" ++ num) = None.
Proof.
  intros Hh Ho Hr. cbn [txt list_ascii_of_string app].
  assert (Hplain : forall c, In c (owner ++ "/"%char :: repo) ->
            (c =? "#")%char = false /\ (c =? "?")%char = false
            /\ (c =? ";")%char = false /\ (c =? ":")%char = false
            /\ is_unsafe_url_char c = false).
  { rewrite forallb_forall in Ho, Hr. intros c Hc.
    apply in_app_or in Hc as [Hc|[<-|Hc]];
      [apply Ho in Hc | repeat split | apply Hr in Hc];
      apply name_char_plain in Hc; tauto. }
  set (front := owner ++ "/"%char :: repo) in *.
  assert (Hlack : forall sep,
            (forall c, In c front -> (c =? sep)%char = false) ->
            has_char sep front = false).
  { intros sep H. destruct (has_char sep front) eqn:E; [|reflexivity].
    apply has_char_In in E. apply H in E. now rewrite Ascii.eqb_refl in E. }
  apply starts_with_spec in Hh as [o' Ho'].
  replace (owner ++ "/"%char :: repo ++ "#"%char :: num)
    with (front ++ "#"%char :: num)
    by (unfold front; now rewrite <- app_assoc).
  unfold parse_github_url.
  assert (Hstart : starts_with (txt "http") (front ++ "#"%char :: num) = true).
  { apply starts_with_spec. exists (o' ++ "/"%char :: repo ++ "#"%char :: num).
    unfold front. rewrite Ho', <- !app_assoc. reflexivity. }
  rewrite Hstart.
  assert (Hpath : urlparse_path (front ++ "#"%char :: num) = Some front).
  { unfold urlparse_path.
    rewrite lstrip_keep by (unfold front; rewrite Ho'; reflexivity).
    rewrite filter_app. cbn [filter]. change (negb (is_unsafe_url_char "#")) with true.
    cbv iota.
    rewrite (filter_keep _ front)
      by (apply forallb_forall; intros c Hc; apply Hplain in Hc;
          apply negb_true_iff; tauto).
    replace (front ++ "#"%char :: filter (fun c => negb (is_unsafe_url_char c)) num)
      with ((front ++ ["#"%char])
              ++ filter (fun c => negb (is_unsafe_url_char c)) num)
      by now rewrite <- app_assoc.
    rewrite url_scheme_none.
    2:{ rewrite has_char_app, Hlack by (intros c Hc; apply Hplain in Hc; tauto).
        reflexivity. }
    2:{ apply in_or_app. left. unfold front. apply in_or_app. right. now left. }
    rewrite <- app_assoc. cbn [app].
    assert (Hhead : exists r, front ++ "#"%char
                      :: filter (fun c => negb (is_unsafe_url_char c)) num
                    = "h"%char :: r).
    { unfold front. rewrite Ho'. eexists. reflexivity. }
    destruct Hhead as [r Hr']. rewrite Hr'. rewrite <- Hr'.
    rewrite take_until_split;
      [|apply lacks_forallb, Hlack; intros c Hc; apply Hplain in Hc; tauto
       |reflexivity].
    cbn [fst].
    rewrite take_until_all
      by (apply lacks_forallb, Hlack; intros c Hc; apply Hplain in Hc; tauto).
    cbn [fst].
    rewrite (Hlack ";"%char) by (intros c Hc; apply Hplain in Hc; tauto).
    now rewrite andb_false_r. }
  rewrite Hpath.
  assert (Hso : has_char "/" owner = false)
    by (apply (name_chars_lack "/" owner Ho); reflexivity).
  assert (Hsr : has_char "/" repo = false)
    by (apply (name_chars_lack "/" repo Hr); reflexivity).
  assert (Hfirst : match front with
                   | c :: _ => (c =? "/")%char = false
                   | [] => True
                   end)
    by (unfold front; rewrite Ho'; reflexivity).
  destruct repo as [|r0 repo'].
  - assert (Hstrip : strip (fun c => (c =? "/")%char) front = owner).
    { unfold strip.
      rewrite (lstrip_keep (fun c => (c =? "/")%char) front Hfirst).
      unfold front. rewrite rev_app_distr. cbn [rev app lstrip].
      rewrite Ascii.eqb_refl.
      rewrite lstrip_keep.
      - apply rev_involutive.
      - destruct (rev owner) as [|c r] eqn:E; [exact I|].
        apply rev_head_in in E. rewrite forallb_forall in Ho.
        apply Ho, name_char_plain in E. tauto. }
    rewrite Hstrip, split_no_sep by assumption. reflexivity.
  - assert (Hstrip : strip (fun c => (c =? "/")%char) front = front).
    { apply strip_keep; [exact Hfirst|].
      unfold front. rewrite rev_app_distr.
      destruct (rev ("/"%char :: r0 :: repo')) as [|c r] eqn:E.
      - apply (f_equal (@List.length ascii)) in E.
        rewrite length_rev in E. discriminate.
      - cbn [app].
        assert (Hc : In c (r0 :: repo')).
        { assert (Hin : In c ("/"%char :: r0 :: repo'))
            by (apply rev_head_in in E; exact E).
          destruct Hin as [<-|Hin]; [|exact Hin].
          exfalso. cbn [rev] in E.
          destruct (rev repo' ++ [r0]) as [|x l] eqn:E'.
          - destruct (rev repo'); discriminate.
          - cbn [app] in E. injection E as -> _.
            assert (Hx : In "/"%char (rev repo' ++ [r0]))
              by (rewrite E'; now left).
            apply in_app_or in Hx as [Hx|[Hx|[]]].
            + apply in_rev in Hx. apply has_char_In in Hx.
              cbn [has_char existsb] in Hsr. unfold has_char in Hx.
              apply orb_false_iff in Hsr as [_ Hsr]. congruence.
            + subst r0. cbn [has_char existsb] in Hsr.
              now rewrite Ascii.eqb_refl in Hsr. }
        rewrite forallb_forall in Hr. apply Hr, name_char_plain in Hc. tauto. }
    rewrite Hstrip. unfold front. rewrite split_app, split_no_sep by assumption.
    reflexivity.
Qed.

Lemma X2_witness :
  parse_github_url (U := unchecked_brackets)
    (txt "httpie" ++ txt "/" ++ txt "cli" ++ txt "#" ++ txt "42")
  = None.
Proof.
  apply (X2_http_owner_rejected (U := unchecked_brackets) (txt "httpie") (txt "cli") (txt "42"));
    vm_compute; reflexivity.
Defined.

Lemma rev_app_head {T} (s1 s2 : list T) (c : T) (r : list T) :
  rev (s1 ++ s2) = c :: r -> s2 <> [] -> In c s2.
Proof.
  rewrite rev_app_distr. intros E Hne.
  destruct (rev s2) as [|x l] eqn:E2.
  - exfalso. apply Hne. apply (f_equal (@rev T)) in E2.
    now rewrite rev_involutive in E2.
  - cbn [app] in E. injection E as <- _. apply in_rev. rewrite E2. now left.
Qed.

Lemma url_scheme_https (rest : text) :
  url_scheme (txt "https:" ++ rest) = (txt "https", rest).
Proof. reflexivity. Qed.

Lemma strip_leading (p : ascii -> bool) (c : ascii) (s : text) :
  p c = true ->
  match s with x :: _ => p x = false | [] => False end ->
  match rev s with x :: _ => p x = false | [] => True end ->
  strip p (c :: s) = s.
Proof.
  intros Hc Hfirst Hlast. unfold strip. cbn [lstrip]. rewrite Hc.
  rewrite (lstrip_keep p s) by (destruct s; [contradiction | assumption]).
  rewrite (lstrip_keep p (rev s) Hlast). apply rev_involutive.
Qed.

(** X3: the URL form is read back: for a host, an owner and a repository
    made of name characters, the owner not empty,
    [https://host/owner/repo/issues/N] with [N] written as [str] writes it
    parses to (owner, repo, N). *)
Theorem X3_url_identifier_round_trip {U : UrlLib}
  (host owner repo : text) (n : Z) :
  forallb is_name_char host = true ->
  forallb is_name_char owner = true ->
  forallb is_name_char repo = true ->
  owner <> [] ->
  parse_github_url
    (txt "https://" ++ host ++ txt "/" ++ owner ++ txt "/" ++ repo
     ++ txt "/issues/" ++ py_str n)
  = Some (owner, repo, n).
Proof.
  intros Hhost Ho Hr Hne.
  pose proof (py_str_name_chars n) as Hn.
  set (tail := owner ++ "/"%char :: repo ++ "/"%char :: txt "issues"
               ++ "/"%char :: py_str n).
  assert (Htail : forallb (fun c => is_name_char c || (c =? "/")%char) tail = true).
  { unfold tail. rewrite !forallb_app. cbn [forallb].
    rewrite !forallb_app. cbn [forallb].
    assert (Hw : forall s, forallb is_name_char s = true ->
              forallb (fun c => is_name_char c || (c =? "/")%char) s = true).
    { intros s. apply forallb_weaken. now intros c ->. }
    rewrite forallb_app. cbn [forallb].
    rewrite (Hw owner Ho), (Hw repo Hr), (Hw (py_str n) Hn). reflexivity. }
  assert (Hlack : forall sep,
            is_name_char sep = false -> (sep =? "/")%char = false ->
            has_char sep ("/"%char :: tail) = false).
  { intros sep H1 H2. cbn [has_char existsb]. rewrite Ascii.eqb_sym, H2.
    apply (has_char_forallb (fun c => is_name_char c || (c =? "/")%char));
      [assumption | now rewrite H1, H2]. }
  replace (txt "https://" ++ host ++ txt "/" ++ owner ++ txt "/" ++ repo
           ++ txt "/issues/" ++ py_str n)
    with (txt "https:" ++ "/"%char :: "/"%char :: host ++ "/"%char :: tail)
    by (unfold tail; cbn [txt list_ascii_of_string app];
        now rewrite <- ?app_assoc).
  unfold parse_github_url.
  change (starts_with (txt "http")
            (txt "https:" ++ "/"%char :: "/"%char :: host ++ "/"%char :: tail))
    with true.
  cbv iota.
  assert (Hpath : urlparse_path
                    (txt "https:" ++ "/"%char :: "/"%char :: host
                     ++ "/"%char :: tail)
                  = Some ("/"%char :: tail)).
  { unfold urlparse_path.
    rewrite lstrip_keep by reflexivity.
    rewrite filter_keep.
    2:{ cbn [txt list_ascii_of_string app forallb].
        change (negb (is_unsafe_url_char "h")) with true.
        change (negb (is_unsafe_url_char "t")) with true.
        change (negb (is_unsafe_url_char "p")) with true.
        change (negb (is_unsafe_url_char "s")) with true.
        change (negb (is_unsafe_url_char ":")) with true.
        change (negb (is_unsafe_url_char "/")) with true.
        cbn [andb]. rewrite forallb_app. cbn [forallb].
        change (negb (is_unsafe_url_char "/")) with true. cbn [andb].
        apply andb_true_iff. split.
        - apply (forallb_weaken is_name_char); [|assumption].
          intros c Hc. apply name_char_plain in Hc. apply negb_true_iff. tauto.
        - apply (forallb_weaken (fun c => is_name_char c || (c =? "/")%char));
            [|assumption].
          intros c Hc. apply negb_true_iff. apply orb_true_iff in Hc as [Hc|Hc].
          + apply name_char_plain in Hc. tauto.
          + apply Ascii.eqb_eq in Hc. now subst c. }
    rewrite url_scheme_https.
    rewrite take_until_split; [|(apply (forallb_weaken is_name_char); [|assumption];
                                 intros c Hc; apply name_char_plain in Hc;
                                 apply negb_true_iff; tauto)
                               |reflexivity].
    rewrite (name_chars_lack "[" host Hhost), (name_chars_lack "]" host Hhost)
      by reflexivity.
    cbn [xorb andb].
    rewrite (take_until_all (fun c => (c =? "#")%char) ("/"%char :: tail))
      by (apply lacks_forallb, Hlack; reflexivity).
    cbn [fst].
    rewrite (take_until_all (fun c => (c =? "?")%char) ("/"%char :: tail))
      by (apply lacks_forallb, Hlack; reflexivity).
    cbn [fst].
    rewrite (Hlack ";"%char) by reflexivity.
    now rewrite andb_false_r. }
  rewrite Hpath.
  assert (Hstrip : strip (fun c => (c =? "/")%char) ("/"%char :: tail) = tail).
  { apply strip_leading; [reflexivity|..].
    - unfold tail. destruct owner as [|c o]; [contradiction|]. cbn [app].
      cbn [forallb] in Ho. apply andb_true_iff in Ho as [Hc _].
      apply name_char_plain in Hc. tauto.
    - destruct (rev tail) as [|c r] eqn:E; [exact I|].
      assert (Htl : tail = (owner ++ "/"%char :: repo ++ "/"%char
                            :: txt "issues" ++ ["/"%char]) ++ py_str n).
      { unfold tail. cbn [txt list_ascii_of_string app].
        repeat (rewrite <- app_assoc; cbn [app]). reflexivity. }
      rewrite Htl in E. apply rev_app_head in E.
      + rewrite forallb_forall in Hn. apply Hn, name_char_plain in E. tauto.
      + destruct (py_str_shape n) as (d & Hd & _ & Hs). rewrite Hs.
        pose proof (uint_text_nonempty d Hd).
        destruct (n <? 0); [discriminate | assumption]. }
  rewrite Hstrip. unfold tail.
  rewrite split_app by (apply (name_chars_lack "/" owner Ho); reflexivity).
  rewrite split_app by (apply (name_chars_lack "/" repo Hr); reflexivity).
  rewrite split_app by reflexivity.
  rewrite split_no_sep by (apply (name_chars_lack "/" _ Hn); reflexivity).
  cbn [List.length Nat.leb nth andb].
  change (text_eqb (txt "issues") (txt "issues")) with true. cbv iota.
  now rewrite py_int_py_str.
Qed.

Lemma X3_witness :
  parse_github_url (U := unchecked_brackets)
    (txt "https://" ++ txt "github.com" ++ txt "/" ++ txt "octo" ++ txt "/"
     ++ txt "repo" ++ txt "/issues/" ++ py_str 42)
  = Some (txt "octo", txt "repo", 42).
Proof.
  apply (X3_url_identifier_round_trip (U := unchecked_brackets)
           (txt "github.com") (txt "octo")
           (txt "repo") 42); [vm_compute; reflexivity..|discriminate].
Defined.

(* ================================================================== *)
(** ** What the extraction finds *)

Lemma digits_us_nonneg (t : text) :
  forallb is_digit t = true ->
  forall acc v, 0 <= acc -> digits_us acc t = Some v -> 0 <= v.
Proof.
  induction t as [|c t IH]; intros Ht acc v Hacc H; cbn [digits_us] in H.
  - now injection H as <-.
  - cbn [forallb] in Ht. apply andb_true_iff in Ht as [Hc Ht].
    rewrite Hc in H. apply (IH Ht) in H; [assumption|].
    unfold is_digit, in_range in Hc. unfold digit_val.
    apply andb_true_iff in Hc as [H1 _]. apply N.leb_le in H1. lia.
Qed.

(** A non-empty string of digits reads as a number that is not negative. *)
Lemma py_int_digits_nonneg (g : text) (n : Z) :
  g <> [] -> forallb is_digit g = true -> py_int g = Some n -> 0 <= n.
Proof.
  intros Hne Hd H.
  assert (Hs : strip is_int_space g = g).
  { rewrite forallb_forall in Hd. apply strip_keep.
    - destruct g as [|c g]; [exact I|]. apply digit_not_int_space, Hd. now left.
    - destruct (rev g) as [|c r] eqn:E; [exact I|].
      apply rev_head_in in E. now apply digit_not_int_space, Hd. }
  destruct g as [|d t]; [contradiction|].
  cbn [forallb] in Hd. apply andb_true_iff in Hd as [Hd Ht].
  rewrite py_int_unsigned in H by assumption.
  cbn [unsigned_literal] in H. rewrite Hd in H.
  apply (digits_us_nonneg t Ht) in H; [assumption|].
  unfold is_digit, in_range in Hd. unfold digit_val.
  apply andb_true_iff in Hd as [H1 _]. apply N.leb_le in H1. lia.
Qed.

Lemma int_value_digits (g : text) :
  g <> [] -> forallb is_digit g = true -> py_int g = Some (int_value g).
Proof.
  intros Hne Hd. unfold int_value.
  now destruct (py_int_digits g Hne Hd) as [v ->].
Qed.

(** Where a reference of the URL pattern stands in the text. *)
Lemma findall_url_position (owner repo t g : text) :
  In g (re_findall false (url_pattern owner repo) t) ->
  exists pre rest,
    t = pre ++ pull_url_prefix owner repo ++ g ++ rest
    /\ g <> [] /\ forallb is_digit g = true.
Proof.
  intros H. apply findall_from_sound in H as (p & s & len & [pre ->] & H).
  unfold match_at, url_pattern in H. rewrite rmatch_cat in H.
  apply lits_inv in H as (p' & rest & -> & H).
  2:{ intros c x _ Hc. simpl in Hc. apply Ascii.eqb_eq in Hc. now symmetry. }
  rewrite digits_group_rmatch in H by (intros; discriminate).
  destruct (leading_digits rest) as [|d ds] eqn:E; [discriminate|].
  injection H as _ <-.
  exists pre, (after_digits rest). repeat split.
  - rewrite <- E, <- leading_digits_app. reflexivity.
  - discriminate.
  - rewrite <- E. apply leading_digits_all.
Qed.

Lemma findall_hashtag_position (t g : text) :
  In g (re_findall false hashtag_pattern t) ->
  exists pre rest,
    t = pre ++ "#"%char :: g ++ rest
    /\ g <> [] /\ forallb is_digit g = true.
Proof.
  intros H. apply findall_from_sound in H as (p & s & len & [pre ->] & H).
  apply hashtag_match_inv in H as (rest & -> & Hne & Hd & _).
  now exists pre, rest.
Qed.

(** A [#] followed by the decimal writing of a number, and then by no
    further digit, is found by the hashtag pattern. *)
Lemma hashtag_number_found (pre rest : text) (n : Z) :
  0 <= n ->
  match rest with c :: _ => is_digit c = false | [] => True end ->
  In n (map int_value
          (re_findall false hashtag_pattern
             (pre ++ "#"%char :: py_str n ++ rest))).
Proof.
  intros Hn Hrest.
  destruct (py_str_shape n) as (d & Hd & _ & Hs).
  assert (Hlt : (n <? 0) = false) by (apply Z.ltb_ge; lia).
  rewrite Hlt in Hs.
  apply in_map_iff. exists (py_str n).
  split; [unfold int_value; now rewrite py_int_py_str|].
  unfold re_findall.
  apply findall_hashtag_complete; try assumption.
  - rewrite Hs. now apply uint_text_nonempty.
  - rewrite Hs. apply uint_text_digits.
  - cbn [List.length]. lia.
  - reflexivity.
Qed.

(** X4: no hashtag reference is missed: where the extraction returns, a
    [#] followed by the decimal writing of a number that is not negative,
    and then by no further digit, has made that number one of the
    candidates, wherever it stands in the text. *)
Theorem X4_every_hashtag_is_a_candidate {S : PySet}
  (owner repo pre rest : text) (n : Z) (refs : list Z) (log : list Action) :
  extract_pr_references (pre ++ "#"%char :: py_str n ++ rest) owner repo
  = (Return refs, log) ->
  0 <= n ->
  match rest with c :: _ => is_digit c = false | [] => True end ->
  In n refs.
Proof.
  intros H Hn Hrest. rewrite extract_pr_references_returns in H.
  injection H as <- _.
  apply list_set_In, in_or_app. left.
  now apply hashtag_number_found.
Qed.

Lemma X4_witness :
  extract_pr_references (S := first_seen)
    (txt "see " ++ "#"%char :: py_str 7 ++ txt " for context")
    (txt "octo") (txt "repo")
  = (Return [7], [])
  /\ In 7 [7].
Proof.
  split; [vm_compute; reflexivity|].
  apply (X4_every_hashtag_is_a_candidate (S := first_seen) (txt "octo")
           (txt "repo") (txt "see ") (txt " for context") 7 [7] []).
  - vm_compute. reflexivity.
  - lia.
  - reflexivity.
Defined.

(** X5: every candidate of the extraction is a number that is not negative,
    read from a run of digits that stands in the text right after a [#] or
    right after the pull-request URL of the repository. *)
Theorem X5_candidates_come_from_the_text {S : PySet}
  (t owner repo : text) (refs : list Z) (n : Z) :
  extract_pr_references t owner repo = (Return refs, []) ->
  In n refs ->
  0 <= n
  /\ exists pre g rest,
       g <> [] /\ forallb is_digit g = true /\ py_int g = Some n
       /\ (t = pre ++ "#"%char :: g ++ rest
           \/ t = pre ++ pull_url_prefix owner repo ++ g ++ rest).
Proof.
  rewrite extract_pr_references_returns. intros [= <-] Hn.
  apply (proj1 (list_set_In _ _)) in Hn.
  assert (H : exists pre g rest,
            g <> [] /\ forallb is_digit g = true /\ n = int_value g
            /\ (t = pre ++ "#"%char :: g ++ rest
                \/ t = pre ++ pull_url_prefix owner repo ++ g ++ rest)).
  { apply in_app_or in Hn as [Hn|Hn]; [|apply in_app_or in Hn as [Hn|Hn]];
      apply in_map_iff in Hn as (g & <- & Hg).
    - apply findall_hashtag_position in Hg as (pre & rest & -> & Hne & Hd).
      exists pre, g, rest. auto.
    - apply findall_url_position in Hg as (pre & rest & -> & Hne & Hd).
      exists pre, g, rest. auto.
    - apply closing_in_hashtag, findall_hashtag_position in Hg
        as (pre & rest & -> & Hne & Hd).
      exists pre, g, rest. auto. }
  destruct H as (pre & g & rest & Hne & Hd & -> & Hpos).
  pose proof (int_value_digits g Hne Hd) as Hv.
  split; [now apply (py_int_digits_nonneg g)|].
  now exists pre, g, rest.
Qed.

Lemma X5_witness :
  0 <= 99
  /\ exists pre g rest,
       g <> [] /\ forallb is_digit g = true /\ py_int g = Some 99
       /\ (txt "fixed by #99, closes #42 via #99" = pre ++ "#"%char :: g ++ rest
           \/ txt "fixed by #99, closes #42 via #99"
              = pre ++ pull_url_prefix (txt "octo") (txt "repo") ++ g ++ rest).
Proof.
  apply (X5_candidates_come_from_the_text (S := first_seen)
           (txt "fixed by #99, closes #42 via #99") (txt "octo") (txt "repo")
           [99; 42] 99).
  - vm_compute. reflexivity.
  - now left.
Defined.

(* ================================================================== *)
(** ** What the closing pattern of the selection accepts *)

Lemma prev_after_cons (c : ascii) (m : text) (prev : option ascii) :
  prev_after (c :: m) prev = prev_after m (Some c).
Proof.
  unfold prev_after. cbn [rev]. now destruct (rev m).
Qed.

Lemma prev_after_snoc (m : text) (c : ascii) (prev : option ascii) :
  prev_after (m ++ [c]) prev = Some c.
Proof. unfold prev_after. now rewrite rev_app_distr. Qed.

Lemma prev_after_in (m : text) (prev : option ascii) :
  m <> [] -> exists c, In c m /\ prev_after m prev = Some c.
Proof.
  intros Hne. unfold prev_after. destruct (rev m) as [|c r] eqn:E.
  - exfalso. apply Hne. apply (f_equal (@rev ascii)) in E.
    now rewrite rev_involutive in E.
  - exists c. split; [now apply rev_head_in in E | reflexivity].
Qed.

Lemma or_else_some {A} (a b : option A) :
  or_else a b <> None <-> a <> None \/ b <> None.
Proof.
  destruct a as [x|]; cbn [or_else].
  - split; [intros _; left; discriminate | intros _; discriminate].
  - split; [intros H; now right | intros [H|H]; [contradiction | assumption]].
Qed.

(** What a string of literals consumes, character for character. *)
Lemma lits_inv_each {A} (ic : bool) (l : text) :
  forall prev s cap (k : cont A) y,
    rmatch ic (lits l) prev s cap k = Some y ->
    exists m rest,
      s = m ++ rest
      /\ Forall2 (fun c x => char_eq ic c x = true) l m
      /\ k (prev_after m prev) rest cap = Some y.
Proof.
  induction l as [|c l IH]; intros prev s cap k y H.
  - exists [], s. repeat split; [constructor | assumption].
  - cbn [lits rmatch] in H.
    apply one_char_inv in H as (x & s' & -> & Hc & H).
    apply IH in H as (m & rest & -> & Hall & H).
    exists (x :: m), rest. rewrite prev_after_cons.
    repeat split; [now constructor | assumption].
Qed.

Lemma lits_match {A} (ic : bool) (l : text) :
  forall m prev rest cap (k : cont A),
    Forall2 (fun c x => char_eq ic c x = true) l m ->
    rmatch ic (lits l) prev (m ++ rest) cap k
    = k (prev_after m prev) rest cap.
Proof.
  induction l as [|c l IH]; intros m prev rest cap k H; inversion H; subst.
  - reflexivity.
  - cbn [lits rmatch app one_char]. rewrite H2, prev_after_cons. now apply IH.
Qed.

Lemma char_eq_lower (c x : ascii) :
  char_eq true c x = true <-> lower c = lower x.
Proof. unfold char_eq. apply Ascii.eqb_eq. Qed.

Lemma each_lower (l m : text) :
  Forall2 (fun c x => char_eq true c x = true) l m <->
  map lower m = map lower l.
Proof.
  split.
  - induction 1 as [|c x l m Hc _ IH]; [reflexivity|].
    apply char_eq_lower in Hc. cbn [map]. now rewrite IH, Hc.
  - revert m; induction l as [|c l IH]; intros [|x m] H; try discriminate.
    + constructor.
    + injection H as Hx Hm. constructor; [now apply char_eq_lower | auto].
Qed.

Lemma each_caseless (l m : text) :
  (forall c, In c l -> is_ascii_alpha c = false) ->
  Forall2 (fun c x => char_eq true c x = true) l m -> m = l.
Proof.
  intros Hl H. induction H as [|c x l m Hc _ IH]; [reflexivity|].
  apply char_eq_caseless in Hc; [|apply Hl; now left].
  rewrite Hc, IH; [reflexivity|]. intros c' Hc'. apply Hl. now right.
Qed.

(** What a repeated character class consumes: a non-empty run of the
    class. *)
Lemma plus_class_inv {A} (p : ascii -> bool)
  (step : option ascii -> text -> option text -> cont A -> option A) :
  (forall prev s cap k, step prev s cap k = one_char p s cap k) ->
  forall n prev s cap k y,
    plus_loop step n prev s cap k = Some y ->
    exists ws rest,
      s = ws ++ rest /\ ws <> [] /\ forallb p ws = true
      /\ k (prev_after ws prev) rest cap = Some y.
Proof.
  intros Hstep. induction n as [|n IH]; intros prev s cap k y H;
    rewrite plus_loop_unfold, Hstep in H;
    apply one_char_inv in H as (c & s' & -> & Hc & H).
  - exists [c], s'. cbn [forallb]. rewrite Hc.
    repeat split; [discriminate | assumption].
  - destruct (plus_loop step n (Some c) s' cap k) as [z|] eqn:E; cbn in H.
    + injection H as ->. apply IH in E as (ws & rest & -> & _ & Hws & E).
      exists (c :: ws), rest. rewrite prev_after_cons. cbn [forallb].
      rewrite Hc, Hws. repeat split; [discriminate | assumption].
    + exists [c], s'. cbn [forallb]. rewrite Hc.
      repeat split; [discriminate | assumption].
Qed.

(** A repeated character class finds a match wherever the continuation
    accepts the end of some run of the class. *)
Lemma plus_class_some {A} (p : ascii -> bool)
  (step : option ascii -> text -> option text -> cont A -> option A) :
  (forall prev s cap k, step prev s cap k = one_char p s cap k) ->
  forall ws rest n prev cap k,
    ws <> [] -> forallb p ws = true ->
    (List.length ws <= Datatypes.S n)%nat ->
    k (prev_after ws prev) rest cap <> None ->
    plus_loop step n prev (ws ++ rest) cap k <> None.
Proof.
  intros Hstep. induction ws as [|c ws IH];
    intros rest n prev cap k Hne Hws Hn Hk; [contradiction|].
  cbn [forallb] in Hws. apply andb_true_iff in Hws as [Hc Hws].
  rewrite prev_after_cons in Hk.
  rewrite plus_loop_unfold, Hstep. cbn [app one_char]. rewrite Hc.
  destruct ws as [|c2 ws].
  - cbn [app]. destruct n; [exact Hk|]. apply or_else_some. now right.
  - destruct n as [|n]; [simpl in Hn; lia|].
    apply or_else_some. left. apply IH; try assumption.
    + discriminate.
    + simpl in *. lia.
Qed.

(** One alternative of the verb: the word, and perhaps an [s]. *)
Lemma verb_alt_inv {A} (w : text) (prev : option ascii) (s : text)
  (cap : option text) (k : cont A) (y : A) :
  rmatch true (Cat (lits w) (Opt (Lit "s"))) prev s cap k = Some y ->
  exists v rest,
    s = v ++ rest
    /\ (map lower v = map lower w \/ map lower v = map lower (w ++ [ "s"%char ]))
    /\ k (prev_after v prev) rest cap = Some y.
Proof.
  rewrite rmatch_cat. intros H.
  apply lits_inv_each in H as (m & rest & -> & Hm & H).
  apply each_lower in Hm. cbn [rmatch] in H.
  destruct (one_char (char_eq true "s") rest cap k) as [z|] eqn:E; cbn in H.
  - injection H as ->. apply one_char_inv in E as (x & r & -> & Hx & E).
    apply char_eq_lower in Hx.
    exists (m ++ [x]), r. rewrite <- app_assoc, prev_after_snoc.
    repeat split; [|assumption].
    right. rewrite !map_app, Hm. cbn [map]. now rewrite Hx.
  - exists m, rest. repeat split; [now left | assumption].
Qed.

Lemma verb_alt_some {A} (w v : text) (prev : option ascii) (rest : text)
  (cap : option text) (k : cont A) :
  map lower v = map lower w \/ map lower v = map lower (w ++ [ "s"%char ]) ->
  k (prev_after v prev) rest cap <> None ->
  rmatch true (Cat (lits w) (Opt (Lit "s"))) prev (v ++ rest) cap k <> None.
Proof.
  intros [Hv|Hv] Hk; rewrite rmatch_cat.
  - rewrite lits_match by now apply each_lower.
    cbn [rmatch]. apply or_else_some. now right.
  - rewrite map_app in Hv. apply map_eq_app in Hv as (v0 & v1 & -> & Hv0 & Hv1).
    destruct v1 as [|x [|? ?]]; try discriminate. injection Hv1 as Hx.
    rewrite <- app_assoc. rewrite lits_match by now apply each_lower.
    cbn [rmatch app one_char]. apply or_else_some. left.
    assert (Hc : char_eq true "s" x = true) by (apply char_eq_lower; now rewrite Hx).
    rewrite Hc. now rewrite prev_after_snoc in Hk.
Qed.

Lemma rmatch_alt {A} (ic : bool) (r1 r2 : regex) (prev : option ascii)
  (s : text) (cap : option text) (k : cont A) :
  rmatch ic (Alt r1 r2) prev s cap k =
  or_else (rmatch ic r1 prev s cap k) (rmatch ic r2 prev s cap k).
Proof. reflexivity. Qed.

Lemma closing_verb_inv {A} (prev : option ascii) (s : text)
  (cap : option text) (k : cont A) (y : A) :
  rmatch true closing_verb prev s cap k = Some y ->
  exists v rest,
    s = v ++ rest /\ is_closing_verb v = true
    /\ k (prev_after v prev) rest cap = Some y.
Proof.
  assert (Hfin : forall w,
            In w (map txt ["close"; "fixe"; "resolve"]%string) ->
            rmatch true (Cat (lits w) (Opt (Lit "s"))) prev s cap k = Some y ->
            exists v rest,
              s = v ++ rest /\ is_closing_verb v = true
              /\ k (prev_after v prev) rest cap = Some y).
  { intros w Hw H. apply verb_alt_inv in H as (v & rest & -> & Hv & Hk).
    exists v, rest. repeat split; [|assumption].
    unfold is_closing_verb. cbn [map In] in Hw.
    destruct Hw as [<-|[<-|[<-|[]]]]; destruct Hv as [-> | ->]; reflexivity. }
  unfold closing_verb. rewrite !rmatch_alt. intros H.
  destruct (rmatch true (Cat (lits (txt "close")) (Opt (Lit "s"))) prev s cap k)
    as [z|] eqn:E1; cbn [or_else] in H.
  { injection H as ->. apply (Hfin (txt "close")); [now left | assumption]. }
  destruct (rmatch true (Cat (lits (txt "fixe")) (Opt (Lit "s"))) prev s cap k)
    as [z|] eqn:E2; cbn [or_else] in H.
  { injection H as ->. apply (Hfin (txt "fixe")); [right; now left | assumption]. }
  apply (Hfin (txt "resolve")); [right; right; now left | assumption].
Qed.

Lemma closing_verb_some {A} (v : text) (prev : option ascii) (rest : text)
  (cap : option text) (k : cont A) :
  is_closing_verb v = true ->
  k (prev_after v prev) rest cap <> None ->
  rmatch true closing_verb prev (v ++ rest) cap k <> None.
Proof.
  unfold is_closing_verb. intros Hv Hk.
  apply existsb_exists in Hv as (w & Hw & Hv).
  unfold text_eqb in Hv.
  destruct (list_eq_dec ascii_dec (map lower v) w) as [Hvw|]; [|discriminate].
  unfold closing_verb. rewrite !rmatch_alt.
  cbn [map In] in Hw.
  destruct Hw as [<-|[<-|[<-|[<-|[<-|[<-|[]]]]]]].
  - apply or_else_some. left. apply verb_alt_some; [now left | assumption].
  - apply or_else_some. left. apply verb_alt_some; [now right | assumption].
  - apply or_else_some. right. apply or_else_some. left.
    apply verb_alt_some; [now left | assumption].
  - apply or_else_some. right. apply or_else_some. left.
    apply verb_alt_some; [now right | assumption].
  - apply or_else_some. right. apply or_else_some. right.
    apply verb_alt_some; [now left | assumption].
  - apply or_else_some. right. apply or_else_some. right.
    apply verb_alt_some; [now right | assumption].
Qed.

Lemma digit_is_word (c : ascii) : is_digit c = true -> is_word c = true.
Proof. unfold is_word. now intros ->. Qed.

(** The character before the end of [#N] is a digit, hence a word
    character. *)
Lemma prev_after_number (n : Z) (prev : option ascii) :
  word_before (prev_after ("#"%char :: py_str n) prev) = true.
Proof.
  rewrite prev_after_cons.
  destruct (py_str_shape n) as (d & Hd & _ & Hs).
  pose proof (uint_text_nonempty d Hd) as Hne.
  pose proof (uint_text_digits d) as Hall. rewrite forallb_forall in Hall.
  assert (H : word_before (prev_after (uint_text d) (Some "-"%char)) = true).
  { destruct (prev_after_in (uint_text d) (Some "-"%char) Hne) as (c & Hc & ->).
    now apply digit_is_word, Hall. }
  rewrite Hs. destruct (n <? 0).
  - now rewrite prev_after_cons.
  - destruct (prev_after_in (uint_text d) (Some "#"%char) Hne) as (c & Hc & ->).
    now apply digit_is_word, Hall.
Qed.

Lemma search_from_complete (ic : bool) (r : regex) (s : text) :
  (forall p, match_at ic r p s <> None) ->
  forall pre prev, search_from ic r prev (pre ++ s) <> None.
Proof.
  intros Hs. induction pre as [|c pre IH]; intros prev.
  - cbn [app]. specialize (Hs prev).
    destruct s; cbn [search_from];
      destruct (match_at ic r prev _); [discriminate | contradiction
                                       | discriminate | contradiction].
  - cbn [app search_from].
    destruct (match_at ic r prev (c :: pre ++ s)); [discriminate | apply IH].
Qed.

(** X6: a body matches the closing pattern of the selection only where it
    holds one of the words close, closes, fixe, fixes, resolve, resolves in
    any letter case, then at least one blank, then [#] and the issue number
    as [str] writes it, with no word character after it. *)
Theorem X6_closing_pattern_is_anchored (issue_number : Z) (body : text) :
  closes issue_number body = true ->
  exists pre v ws rest,
    body = pre ++ v ++ ws ++ "#"%char :: py_str issue_number ++ rest
    /\ is_closing_verb v = true
    /\ ws <> [] /\ forallb is_space ws = true
    /\ word_after rest = false.
Proof.
  unfold closes, re_search. intros H.
  destruct (search_from true (closing_pattern_for issue_number) None body)
    as [m|] eqn:E; [clear H | discriminate].
  apply search_from_sound in E as (p1 & s1 & [pre ->] & E).
  unfold match_at, closing_pattern_for in E. rewrite rmatch_cat in E.
  apply closing_verb_inv in E as (v & s2 & -> & Hv & E).
  rewrite rmatch_cat in E. cbn [rmatch] in E.
  apply (plus_class_inv is_space _ (fun _ _ _ _ => eq_refl)) in E
    as (ws & s3 & -> & Hne & Hws & E).
  apply lits_inv_each in E as (l & rest & -> & Hl & E).
  apply each_caseless in Hl.
  2:{ intros c [<-|Hc]; [reflexivity | now apply py_str_chars in Hc]. }
  subst l. rewrite prev_after_number in E.
  destruct (word_after rest) eqn:Hw; [discriminate|].
  exists pre, v, ws, rest. cbn [app]. repeat split; assumption.
Qed.

Lemma X6_witness :
  exists pre v ws rest,
    txt "This closes  #42." = pre ++ v ++ ws ++ "#"%char :: py_str 42 ++ rest
    /\ is_closing_verb v = true
    /\ ws <> [] /\ forallb is_space ws = true
    /\ word_after rest = false.
Proof.
  apply (X6_closing_pattern_is_anchored 42 (txt "This closes  #42.")).
  vm_compute. reflexivity.
Defined.

(** X7: and wherever a body holds such a word, blanks, [#] and the issue
    number with no word character after it, the pattern matches: among
    them [Fixes #N] and [closes #N], not [fix #N]. *)
Theorem X7_closing_pattern_matches (issue_number : Z)
  (pre v ws rest : text) :
  is_closing_verb v = true ->
  ws <> [] -> forallb is_space ws = true ->
  word_after rest = false ->
  closes issue_number
    (pre ++ v ++ ws ++ "#"%char :: py_str issue_number ++ rest) = true.
Proof.
  intros Hv Hne Hws Hw. unfold closes, re_search.
  destruct (search_from true (closing_pattern_for issue_number) None
              (pre ++ v ++ ws ++ "#"%char :: py_str issue_number ++ rest))
    eqn:E; [reflexivity|].
  exfalso. revert E. apply search_from_complete. intros p.
  unfold match_at, closing_pattern_for. rewrite rmatch_cat.
  apply closing_verb_some; [assumption|].
  rewrite rmatch_cat. cbn [rmatch].
  apply (plus_class_some is_space _ (fun _ _ _ _ => eq_refl)); try assumption.
  - rewrite length_app. lia.
  - change ("#"%char :: py_str issue_number ++ rest)
      with (("#"%char :: py_str issue_number) ++ rest).
    rewrite lits_match.
    + rewrite prev_after_number, Hw. discriminate.
    + clear. induction ("#"%char :: py_str issue_number) as [|c l IH];
        constructor; [apply char_eq_lower; reflexivity | assumption].
Qed.

Lemma X7_witness :
  closes 42 (txt "Merged. " ++ txt "FIXES" ++ txt "  "
             ++ "#"%char :: py_str 42 ++ txt ", thanks") = true.
Proof.
  apply (X7_closing_pattern_matches 42 (txt "Merged. ") (txt "FIXES")
           (txt "  ") (txt ", thanks"));
    [vm_compute; reflexivity | discriminate | reflexivity | reflexivity].
Defined.

(** X8: the test for a mention of the issue never stands in the way of the
    closing pattern: a body the pattern matches holds [#N], so a closed and
    merged pull request with such a body is a strong match. *)
Theorem X8_pattern_match_is_a_mention (issue_number : Z) (p : PullRequest) :
  closed_and_merged p = true ->
  closes issue_number (body_or_empty (pr_body p)) = true ->
  mentions issue_number (body_or_empty (pr_body p)) = true
  /\ strong issue_number (Some p) = true.
Proof.
  intros Hcm Hc. rewrite strong_spec, Hcm, Hc.
  split; [|reflexivity].
  unfold mentions. now rewrite (closes_mentions _ _ Hc).
Qed.

Lemma X8_witness :
  mentions 42 (body_or_empty (pr_body (merged_pull 99 "Closes #42"))) = true
  /\ strong 42 (Some (merged_pull 99 "Closes #42")) = true.
Proof.
  apply (X8_pattern_match_is_a_mention 42 (merged_pull 99 "Closes #42"));
    vm_compute; reflexivity.
Defined.

(* ================================================================== *)
(** ** The rule of the selection *)

Section SelectionRule.

Variable self : Tracker.
Variables owner repo : text.
Variable issue_number : Z.

Lemma strong_is_fetched (c : Z) :
  strong issue_number (fetched self owner repo c) = true ->
  exists p, fetched self owner repo c = Some p.
Proof. destruct (fetched self owner repo c) as [p|]; [eauto | discriminate]. Qed.

Lemma strong_is_eligible (o : option PullRequest) :
  strong issue_number o = true -> eligible issue_number o = true.
Proof.
  destruct o as [p|]; [|discriminate]. cbn [strong].
  intros H. now apply andb_true_iff in H as [? _].
Qed.

Lemma solving_loop_rule (cands : list Z) :
  forall solving_pr,
    fst (solving_loop self owner repo issue_number cands solving_pr) =
    Return (match first_strong self owner repo issue_number cands with
            | Some p => Some p
            | None =>
                match solving_pr with
                | Some q => Some q
                | None => first_eligible self owner repo issue_number cands
                end
            end).
Proof.
  induction cands as [|c rest IH]; intros sp.
  - cbn. now destruct sp.
  - cbn [first_strong first_eligible].
    destruct (strong issue_number (fetched self owner repo c)) eqn:Hs.
    + rewrite solving_loop_step_strong by assumption. cbn [fst].
      now destruct (strong_is_fetched c Hs) as [p ->].
    + rewrite solving_loop_step_weak by assumption.
      rewrite bind_outcome. cbn [tell fst]. rewrite IH.
      destruct (first_strong self owner repo issue_number rest);
        [reflexivity|].
      destruct sp; [reflexivity|].
      destruct (fetched self owner repo c) as [p|]; [|reflexivity].
      now destruct (eligible issue_number (Some p)).
Qed.

Lemma first_strong_none (cands : list Z) :
  first_strong self owner repo issue_number cands = None ->
  forall c, In c cands ->
    strong issue_number (fetched self owner repo c) = false.
Proof.
  induction cands as [|x rest IH]; intros H c Hc; [contradiction|].
  cbn [first_strong] in H.
  destruct (strong issue_number (fetched self owner repo x)) eqn:Hx.
  - destruct (strong_is_fetched x Hx) as [p Hp]. congruence.
  - destruct Hc as [<-|Hc]; [assumption | now apply IH].
Qed.

Lemma first_eligible_none (cands : list Z) :
  first_eligible self owner repo issue_number cands = None ->
  forall c, In c cands ->
    eligible issue_number (fetched self owner repo c) = false.
Proof.
  induction cands as [|x rest IH]; intros H c Hc; [contradiction|].
  cbn [first_eligible] in H.
  destruct (eligible issue_number (fetched self owner repo x)) eqn:Hx.
  - destruct (fetched self owner repo x); [discriminate | discriminate Hx].
  - destruct Hc as [<-|Hc]; [assumption | now apply IH].
Qed.

Lemma first_strong_sound (cands : list Z) (p : PullRequest) :
  first_strong self owner repo issue_number cands = Some p ->
  exists pre c post,
    cands = pre ++ c :: post
    /\ (forall x, In x pre ->
          strong issue_number (fetched self owner repo x) = false)
    /\ fetched self owner repo c = Some p
    /\ strong issue_number (Some p) = true.
Proof.
  induction cands as [|x rest IH]; intros H; [discriminate|].
  cbn [first_strong] in H.
  destruct (strong issue_number (fetched self owner repo x)) eqn:Hx.
  - exists [], x, rest. rewrite H in Hx. repeat split; [contradiction | assumption..].
  - apply IH in H as (pre & c & post & -> & Hpre & Hc & Hs).
    exists (x :: pre), c, post. repeat split; try assumption.
    intros y [<-|Hy]; [assumption | now apply Hpre].
Qed.

Lemma first_eligible_sound (cands : list Z) (p : PullRequest) :
  first_eligible self owner repo issue_number cands = Some p ->
  exists c, In c cands /\ fetched self owner repo c = Some p
            /\ eligible issue_number (Some p) = true.
Proof.
  induction cands as [|x rest IH]; intros H; [discriminate|].
  cbn [first_eligible] in H.
  destruct (eligible issue_number (fetched self owner repo x)) eqn:Hx.
  - exists x. rewrite H in Hx. repeat split; [now left | assumption..].
  - apply IH in H as (c & Hc & Hf & He). exists c.
    repeat split; [now right | assumption..].
Qed.

End SelectionRule.

(** X9: the selection in one rule: the loop returns the first strong
    candidate of the iteration if there is one, and otherwise the first
    eligible one, or nothing. *)
Theorem X9_selection_rule (self : Tracker) (owner repo : text)
  (issue_number : Z) (cands : list Z) :
  fst (solving_loop self owner repo issue_number cands None) =
  Return (match first_strong self owner repo issue_number cands with
          | Some p => Some p
          | None => first_eligible self owner repo issue_number cands
          end).
Proof. apply solving_loop_rule. Qed.

(** A pull request the loop returns has been fetched by it with status 200
    and is eligible. *)
Lemma solving_loop_selected (self : Tracker)
  (owner repo : text) (issue_number : Z) (cands : list Z) (p : PullRequest) :
  fst (solving_loop self owner repo issue_number cands None) = Return (Some p) ->
  (exists c,
     In c (pulls_requested
             (snd (solving_loop self owner repo issue_number cands None)))
     /\ status_code (pull_resp self owner repo c) = 200
     /\ json (pull_resp self owner repo c) = p)
  /\ text_eqb (pr_state p) (txt "closed") = true
  /\ pr_merged p = true
  /\ contains (py_str issue_number) (body_or_empty (pr_body p)) = true.
Proof.
  rewrite solving_loop_rule. intros [= H].
  assert (Hfetched : forall c, fetched self owner repo c = Some p ->
            status_code (pull_resp self owner repo c) = 200
            /\ json (pull_resp self owner repo c) = p).
  { intros c. unfold fetched.
    destruct (status_code (pull_resp self owner repo c) =? 200) eqn:E;
      [|discriminate].
    intros [= <-]. split; [now apply Z.eqb_eq | reflexivity]. }
  assert (Hel : eligible issue_number (Some p) = true ->
            text_eqb (pr_state p) (txt "closed") = true
            /\ pr_merged p = true
            /\ contains (py_str issue_number) (body_or_empty (pr_body p)) = true).
  { cbn [eligible]. rewrite mentions_bare. unfold closed_and_merged.
    intros He. apply andb_true_iff in He as [He ?].
    apply andb_true_iff in He as [? ?]. auto. }
  destruct (first_strong self owner repo issue_number cands) as [q|] eqn:Hs.
  - injection H as ->.
    apply first_strong_sound in Hs as (pre & c & post & -> & Hpre & Hc & Hst).
    split; [|now apply Hel, strong_is_eligible].
    exists c. rewrite solving_loop_strong by (try assumption; now rewrite Hc).
    cbn [snd]. rewrite pulls_requested_map.
    split; [apply in_or_app; right; now left | now apply Hfetched].
  - apply first_eligible_sound in H as (c & Hin & Hc & He).
    split; [|now apply Hel].
    exists c. rewrite solving_loop_no_strong by now apply first_strong_none.
    cbn [snd]. rewrite pulls_requested_map.
    split; [assumption | now apply Hfetched].
Qed.

(** X10: a pull request that [find_solving_pr] returns has been fetched in
    that run with status 200 and is eligible: closed, merged, and with the
    decimal string of the issue number in its body. *)
Theorem X10_solution_is_fetched_and_eligible {S : PySet} (self : Tracker)
  (fuel : nat) (owner repo : text) (issue_number : Z) (p : PullRequest) :
  fst (find_solving_pr self fuel owner repo issue_number) = Return (Some p) ->
  (exists c,
     In c (pulls_requested
             (snd (find_solving_pr self fuel owner repo issue_number)))
     /\ status_code (pull_resp self owner repo c) = 200
     /\ json (pull_resp self owner repo c) = p)
  /\ text_eqb (pr_state p) (txt "closed") = true
  /\ pr_merged p = true
  /\ contains (py_str issue_number) (body_or_empty (pr_body p)) = true.
Proof.
  intros H.
  destruct (Z.eq_dec (status_code (issue_resp self owner repo issue_number)) 200)
    as [Hok|Hko].
  2:{ destruct (find_solving_pr_fails self owner repo issue_number fuel Hko)
        as (e & _ & He).
      rewrite He in H. discriminate. }
  destruct (find_solving_pr_reaches_loop self owner repo issue_number fuel Hok)
    as (pre & Hpre & [E|[E|(cands & E)]]); rewrite E in H |- *;
    cbn [fst snd] in *; try discriminate.
  apply solving_loop_selected in H as ((c & Hc & Hst & Hj) & Hrest).
  split; [|assumption].
  exists c. rewrite pulls_requested_app.
  split; [apply in_or_app; now right | now split].
Qed.

Lemma X10_witness :
  (exists c,
     In c (pulls_requested
             (snd (find_solving_pr (S := first_seen) (scenario "Closes #42") 2
                     (txt "octo") (txt "repo") 42)))
     /\ status_code (pull_resp (scenario "Closes #42") (txt "octo") (txt "repo") c)
        = 200
     /\ json (pull_resp (scenario "Closes #42") (txt "octo") (txt "repo") c)
        = merged_pull 99 "Closes #42")
  /\ text_eqb (pr_state (merged_pull 99 "Closes #42")) (txt "closed") = true
  /\ pr_merged (merged_pull 99 "Closes #42") = true
  /\ contains (py_str 42) (body_or_empty (pr_body (merged_pull 99 "Closes #42")))
     = true.
Proof.
  apply (X10_solution_is_fetched_and_eligible (S := first_seen)
           (scenario "Closes #42") 2 (txt "octo") (txt "repo") 42).
  vm_compute. reflexivity.
Defined.

(** The loop returns nothing only after every candidate. *)
Lemma solving_loop_none (self : Tracker) (owner repo : text)
  (issue_number : Z) (cands : list Z) :
  fst (solving_loop self owner repo issue_number cands None) = Return None ->
  pulls_requested (snd (solving_loop self owner repo issue_number cands None))
  = cands
  /\ forall c, In c cands ->
       eligible issue_number (fetched self owner repo c) = false.
Proof.
  rewrite solving_loop_rule. intros [= H].
  destruct (first_strong self owner repo issue_number cands) eqn:Hs;
    [discriminate|].
  split.
  - rewrite solving_loop_no_strong by now apply first_strong_none.
    cbn [snd]. apply pulls_requested_map.
  - now apply first_eligible_none.
Qed.

(** X11: the loop returns nothing only after it has fetched every
    candidate, each once and in order, and found none eligible. *)
Theorem X11_none_after_every_candidate (self : Tracker) (owner repo : text)
  (issue_number : Z) (cands : list Z) :
  fst (solving_loop self owner repo issue_number cands None) = Return None ->
  pulls_requested (snd (solving_loop self owner repo issue_number cands None))
  = cands
  /\ forall c, In c cands ->
       eligible issue_number (fetched self owner repo c) = false.
Proof. apply solving_loop_none. Qed.

Lemma X11_witness :
  pulls_requested
    (snd (solving_loop (scenario "unrelated") (txt "octo") (txt "repo") 42
            [7; 99; 42] None))
  = [7; 99; 42]
  /\ forall c, In c [7; 99; 42] ->
       eligible 42 (fetched (scenario "unrelated") (txt "octo") (txt "repo") c)
       = false.
Proof.
  apply (X11_none_after_every_candidate (scenario "unrelated") (txt "octo")
           (txt "repo") 42 [7; 99; 42]).
  vm_compute. reflexivity.
Defined.

(* ================================================================== *)
(** ** A run from end to end *)

Lemma bind_return_inv {A B} (m : M A) (f : A -> M B) (r : B) :
  fst (bind m f) = Return r ->
  exists a, fst m = Return a /\ fst (f a) = Return r
            /\ snd (bind m f) = snd m ++ snd (f a).
Proof.
  rewrite bind_outcome, bind_log.
  destruct (fst m) as [a|e|]; [|discriminate..].
  intros H. now exists a.
Qed.

Lemma try_except_log {A} (m : M A) (h : exn -> M A) :
  exists l, snd (try_except m h) = snd m ++ l.
Proof.
  destruct m as [[a|e|] l1]; cbn [try_except snd].
  - exists []. now rewrite app_nil_r.
  - destruct (h e) as [o l2]. now exists l2.
  - exists []. now rewrite app_nil_r.
Qed.

Section EndToEnd.

Context {S : PySet}.
Variable self : Tracker.
Variables owner repo : text.
Variable issue_number : Z.

Lemma comments_refs_grows (comments : list Comment) :
  forall pr_candidates, exists l,
    comments_refs owner repo comments pr_candidates = (Return l, [])
    /\ incl pr_candidates l.
Proof.
  induction comments as [|c comments IH]; intros cands; cbn [comments_refs].
  - exists cands. split; [reflexivity | apply incl_refl].
  - destruct (truthy (comment_body c)); [|apply IH].
    rewrite extract_pr_references_returns. cbn [bind].
    match goal with |- context [comments_refs _ _ _ ?l] =>
      destruct (IH l) as (l' & -> & Hl) end.
    exists l'. split; [reflexivity|].
    intros x Hx. apply Hl, in_or_app. now left.
Qed.

Lemma events_refs_grows (events : list Event) :
  forall pr_candidates l,
    fst (events_refs events pr_candidates) = Return l -> incl pr_candidates l.
Proof.
  induction events as [|ev events IH]; intros cands l H; cbn [events_refs] in H.
  - injection H as <-. apply incl_refl.
  - destruct (if text_eqb (event_kind ev) (txt "cross-referenced")
              then event_source ev else None) as [src|];
      [|destruct (text_eqb (event_kind ev) (txt "closed")
                  && truthy (event_commit_id ev)); now apply IH].
    destruct (text_eqb (source_type src) (txt "issue")); [|now apply IH].
    destruct (source_pull_request_url src) as [url|]; [|now apply IH].
    apply bind_return_inv in H as (n & _ & H & _).
    apply IH in H. intros x Hx. apply H, in_or_app. now left.
Qed.

(** One link that [int] does not read makes the reading of the events
    raise. *)
Lemma events_refs_unreadable (events : list Event) :
  existsb unreadable_link events = true ->
  forall pr_candidates,
    fst (events_refs events pr_candidates) = Raise ValueError.
Proof.
  induction events as [|ev events IH]; intros H cands; [discriminate|].
  cbn [existsb] in H. cbn [events_refs].
  unfold unreadable_link in H.
  destruct (text_eqb (event_kind ev) (txt "cross-referenced")) eqn:Ek;
    cbn [andb] in H.
  - destruct (event_source ev) as [src|]; cbn [orb] in H.
    + destruct (text_eqb (source_type src) (txt "issue")); cbn [andb orb] in H;
        [|now apply IH].
      destruct (source_pull_request_url src) as [url|]; cbn [orb] in H;
        [|now apply IH].
      destruct (py_int (last (split "/" url) [])) as [n|]; cbn [orb] in H.
      * rewrite bind_outcome. cbn [of_option ret fst]. now apply IH.
      * reflexivity.
    + destruct (text_eqb (event_kind ev) (txt "closed")
                && truthy (event_commit_id ev)); now apply IH.
  - destruct (text_eqb (event_kind ev) (txt "closed")
              && truthy (event_commit_id ev)); now apply IH.
Qed.

Lemma text_eqb_refl (a : text) : text_eqb a a = true.
Proof. unfold text_eqb. now destruct (list_eq_dec ascii_dec a a). Qed.

(** The last part of a text cut at a separator is what follows the last
    separator. *)
Lemma split_last (sep : ascii) (b : text) :
  has_char sep b = false ->
  forall a, exists front,
    split sep (a ++ sep :: b) = front ++ [b] /\ front <> [].
Proof.
  intros Hb. induction a as [|c a (front & IH & Hne)]; cbn [app split].
  - rewrite Ascii.eqb_refl, (split_no_sep sep b Hb).
    exists [[]]. split; [reflexivity | discriminate].
  - rewrite IH. destruct (c =? sep)%char.
    + exists ([] :: front). split; [reflexivity | discriminate].
    + destruct front as [|p ps]; [contradiction|]. cbn [app].
      exists ((c :: p) :: ps). split; [reflexivity | discriminate].
Qed.

Lemma last_split (sep : ascii) (a b : text) :
  has_char sep b = false -> last (split sep (a ++ sep :: b)) [] = b.
Proof.
  intros Hb. destruct (split_last sep b Hb a) as (front & -> & _).
  apply last_last.
Qed.

(** A hashtag reference in the body of a comment is among the candidates
    after the comments are read. *)
Lemma comments_refs_member (comments : list Comment) :
  forall pr_candidates l comment t n,
    fst (comments_refs owner repo comments pr_candidates) = Return l ->
    In comment comments ->
    comment_body comment = Some t -> truthy (Some t) = true ->
    In n (map int_value (re_findall false hashtag_pattern t)) ->
    In n l.
Proof.
  induction comments as [|c comments IH];
    intros cands l comment t n H Hin Hbody Ht Hn; [contradiction|].
  cbn [comments_refs] in H. destruct Hin as [->|Hin].
  - rewrite Hbody, Ht in H. cbn [body_or_empty] in H.
    apply bind_return_inv in H as (refs & Hr & H & _).
    rewrite extract_pr_references_returns in Hr. injection Hr as <-.
    destruct (comments_refs_grows comments
                (cands ++
                 list_set
                   (map int_value (re_findall false hashtag_pattern t)
                    ++ map int_value (re_findall false (url_pattern owner repo) t)
                    ++ map int_value (re_findall true closing_pattern t))))
      as (l' & Hl & Hincl).
    rewrite Hl in H. injection H as <-.
    apply Hincl, in_or_app. right. apply list_set_In, in_or_app. now left.
  - destruct (truthy (comment_body c)).
    + apply bind_return_inv in H as (refs & _ & H & _).
      exact (IH _ _ _ _ _ H Hin Hbody Ht Hn).
    + exact (IH _ _ _ _ _ H Hin Hbody Ht Hn).
Qed.

(** A cross-reference event of type issue whose link ends in [/N] makes
    [N] a candidate after the events are read. *)
Lemma events_refs_member (events : list Event) :
  forall pr_candidates l event source base n,
    fst (events_refs events pr_candidates) = Return l ->
    In event events ->
    event_kind event = txt "cross-referenced" ->
    event_source event = Some source ->
    source_type source = txt "issue" ->
    source_pull_request_url source = Some (base ++ "/"%char :: py_str n) ->
    In n l.
Proof.
  induction events as [|ev events IH];
    intros cands l event source base n H Hin Hk Hs Ht Hu; [contradiction|].
  cbn [events_refs] in H. destruct Hin as [->|Hin].
  - rewrite Hk, text_eqb_refl, Hs, Ht, text_eqb_refl, Hu in H.
    rewrite last_split, py_int_py_str in H
      by (apply name_chars_lack; [apply py_str_name_chars | reflexivity]).
    apply bind_return_inv in H as (m & Hm & H & _).
    cbn [of_option ret fst] in Hm. injection Hm as <-.
    apply events_refs_grows in H. apply H, in_or_app. right. now left.
  - destruct (if text_eqb (event_kind ev) (txt "cross-referenced")
              then event_source ev else None) as [src|];
      [|destruct (text_eqb (event_kind ev) (txt "closed")
                  && truthy (event_commit_id ev));
        exact (IH _ _ _ _ _ _ H Hin Hk Hs Ht Hu)].
    destruct (text_eqb (source_type src) (txt "issue"));
      [|exact (IH _ _ _ _ _ _ H Hin Hk Hs Ht Hu)].
    destruct (source_pull_request_url src) as [url|];
      [|exact (IH _ _ _ _ _ _ H Hin Hk Hs Ht Hu)].
    apply bind_return_inv in H as (m & _ & H & _).
    exact (IH _ _ _ _ _ _ H Hin Hk Hs Ht Hu).
Qed.

(** What a run that returns has gone through. *)
Lemma find_solving_pr_return_inv (fuel : nat) (r : option PullRequest) :
  fst (find_solving_pr self fuel owner repo issue_number) = Return r ->
  status_code (issue_resp self owner repo issue_number) = 200
  /\ exists from_body comments from_comments cands pre,
       fst (if truthy (issue_body (json (issue_resp self owner repo issue_number)))
            then extract_pr_references
                   (body_or_empty
                      (issue_body
                         (json (issue_resp self owner repo issue_number))))
                   owner repo
            else ret []) = Return from_body
       /\ fst (get_issue_comments self fuel owner repo issue_number)
          = Return comments
       /\ fst (comments_refs owner repo comments from_body)
          = Return from_comments
       /\ fst (events_refs
                 (if status_code (events_resp self owner repo issue_number) =? 200
                  then json (events_resp self owner repo issue_number) else [])
                 from_comments) = Return cands
       /\ fst (solving_loop self owner repo issue_number (list_set cands) None)
          = Return r
       /\ snd (find_solving_pr self fuel owner repo issue_number)
          = pre ++ snd (solving_loop self owner repo issue_number
                          (list_set cands) None).
Proof.
  intros H.
  assert (Hok : status_code (issue_resp self owner repo issue_number) = 200).
  { destruct (Z.eq_dec (status_code (issue_resp self owner repo issue_number)) 200)
      as [Hok|Hko]; [assumption|].
    destruct (find_solving_pr_fails self owner repo issue_number fuel Hko)
      as (e & _ & He).
    rewrite He in H. discriminate. }
  split; [assumption|].
  unfold find_solving_pr in *.
  apply bind_return_inv in H as (issue & Hi & H & L1). rewrite L1.
  rewrite (get_issue_ok self owner repo issue_number Hok) in Hi.
  injection Hi as <-. cbv beta in H |- *.
  apply bind_return_inv in H as (u & _ & H & L2). rewrite L2.
  cbv beta in H |- *.
  apply bind_return_inv in H as (from_body & Hfb & H & L3). rewrite L3.
  cbv beta in H |- *.
  apply bind_return_inv in H as (comments & Hcm & H & L4). rewrite L4.
  cbv beta in H |- *.
  apply bind_return_inv in H as (from_comments & Hfc & H & L5). rewrite L5.
  cbv beta in H |- *.
  apply bind_return_inv in H as (events & Hev & H & L6). rewrite L6.
  cbv beta in H |- *.
  apply bind_return_inv in H as (cands & Hc & H & L7). rewrite L7.
  cbv beta in H |- *.
  rewrite get_issue_events_returns in Hev. injection Hev as <-.
  exists from_body, comments, from_comments, cands. eexists.
  repeat split; try eassumption.
  rewrite !app_assoc. reflexivity.
Qed.

End EndToEnd.

(** X12: a successful run of [print_issue_and_solution] asks for the issue
    twice: once for the report, and once more inside [find_solving_pr],
    before any other request. *)
Theorem X12_issue_is_fetched_twice {S : PySet} (self : Tracker) (fuel : nat)
  (owner repo : text) (issue_number : Z) :
  status_code (issue_resp self owner repo issue_number) = 200 ->
  exists rest,
    requests (snd (print_issue_and_solution self fuel owner repo issue_number))
    = GetIssue owner repo issue_number
      :: GetIssue owner repo issue_number :: rest.
Proof.
  intros Hok. unfold print_issue_and_solution.
  match goal with |- context [try_except ?m ?h] =>
    destruct (try_except_log m h) as [l ->] end.
  rewrite bind_log. cbn [tell fst snd].
  rewrite bind_log, (get_issue_ok self owner repo issue_number Hok).
  cbn [fst snd]. rewrite bind_log. cbn [tell fst snd].
  rewrite bind_log. cbn [tell fst snd]. rewrite bind_log.
  unfold find_solving_pr at 1. rewrite bind_log.
  rewrite (get_issue_ok self owner repo issue_number Hok). cbn [fst snd].
  rewrite !requests_app. cbn [requests app]. eexists. reflexivity.
Qed.

Lemma X12_witness :
  exists rest,
    requests (snd (print_issue_and_solution (S := first_seen)
                     (scenario "Closes #42") 2 (txt "octo") (txt "repo") 42))
    = GetIssue (txt "octo") (txt "repo") 42
      :: GetIssue (txt "octo") (txt "repo") 42 :: rest.
Proof.
  apply (X12_issue_is_fetched_twice (S := first_seen) (scenario "Closes #42") 2
           (txt "octo") (txt "repo") 42).
  reflexivity.
Defined.

(** X13: one cross-reference event of type issue whose pull-request link
    does not end in a number makes [find_solving_pr] raise [ValueError]
    although every fetch has succeeded; no pull request is then asked
    for. *)
Theorem X13_unreadable_event_link_raises {S : PySet} (self : Tracker)
  (fuel k : nat) (owner repo : text) (issue_number : Z) :
  status_code (issue_resp self owner repo issue_number) = 200 ->
  (k < fuel)%nat ->
  (forall p, In p (page_numbers 1 k) ->
     page_continues self owner repo issue_number p) ->
  page_stops self owner repo issue_number (1 + Z.of_nat k) ->
  status_code (events_resp self owner repo issue_number) = 200 ->
  existsb unreadable_link (json (events_resp self owner repo issue_number))
  = true ->
  fst (find_solving_pr self fuel owner repo issue_number) = Raise ValueError
  /\ pulls_requested (snd (find_solving_pr self fuel owner repo issue_number))
     = [].
Proof.
  intros Hok Hk Hgo Hstop Hev Hbad.
  pose proof (find_solving_pr_finishes self owner repo issue_number fuel k
                Hk Hgo Hstop) as Hfin.
  destruct (find_solving_pr_reaches_loop self owner repo issue_number fuel Hok)
    as (pre & Hpre & [E|[E|(cands & E)]]).
  - rewrite E in Hfin. now contradiction Hfin.
  - rewrite E. now split.
  - exfalso.
    destruct (solving_loop_returns self owner repo issue_number
                (list_set cands) None) as [r Hr].
    assert (Hret : fst (find_solving_pr self fuel owner repo issue_number)
                   = Return r) by (rewrite E; exact Hr).
    apply find_solving_pr_return_inv in Hret
      as (_ & fb & cm & fc & cs & pre' & _ & _ & _ & Hevents & _).
    apply Z.eqb_eq in Hev. rewrite Hev in Hevents.
    rewrite (events_refs_unreadable _ Hbad) in Hevents. discriminate.
Qed.

Lemma X13_witness :
  fst (find_solving_pr (S := first_seen) odd_event_tracker 1
         (txt "octo") (txt "repo") 42) = Raise ValueError
  /\ pulls_requested
       (snd (find_solving_pr (S := first_seen) odd_event_tracker 1
               (txt "octo") (txt "repo") 42)) = [].
Proof.
  apply (X13_unreadable_event_link_raises (S := first_seen)
           odd_event_tracker 1 0 (txt "octo") (txt "repo") 42).
  - reflexivity.
  - lia.
  - intros p [].
  - right. reflexivity.
  - reflexivity.
  - vm_compute. reflexivity.
Defined.

(** X14: when [find_solving_pr] returns nothing, every hashtag reference of
    the issue body has been looked up: its number was asked for in that run
    and the answer was no eligible pull request. *)
Theorem X14_no_solution_after_every_body_reference {S : PySet}
  (self : Tracker) (fuel : nat) (owner repo : text) (issue_number : Z)
  (pre rest : text) (n : Z) :
  fst (find_solving_pr self fuel owner repo issue_number) = Return None ->
  issue_body (json (issue_resp self owner repo issue_number))
  = Some (pre ++ "#"%char :: py_str n ++ rest) ->
  0 <= n ->
  match rest with c :: _ => is_digit c = false | [] => True end ->
  In n (pulls_requested
          (snd (find_solving_pr self fuel owner repo issue_number)))
  /\ eligible issue_number (fetched self owner repo n) = false.
Proof.
  intros H Hbody Hn Hrest.
  apply find_solving_pr_return_inv in H
    as (_ & fb & cm & fc & cands & lg & Hfb & Hcm & Hfc & Hev & Hloop & ->).
  destruct (comments_refs_grows owner repo cm fb) as (fc' & Hfc' & Hincl).
  rewrite Hfc' in Hfc. injection Hfc as ->.
  rewrite Hbody in Hfb.
  assert (Htruthy : truthy (Some (pre ++ "#"%char :: py_str n ++ rest)) = true)
    by now destruct pre.
  rewrite Htruthy in Hfb. cbn [body_or_empty] in Hfb.
  rewrite extract_pr_references_returns in Hfb. injection Hfb as <-.
  assert (Hin : In n (list_set
                        (map int_value
                           (re_findall false hashtag_pattern
                              (pre ++ "#"%char :: py_str n ++ rest))
                         ++ map int_value
                              (re_findall false (url_pattern owner repo)
                                 (pre ++ "#"%char :: py_str n ++ rest))
                         ++ map int_value
                              (re_findall true closing_pattern
                                 (pre ++ "#"%char :: py_str n ++ rest)))))
    by (apply list_set_In, in_or_app; left;
        now apply hashtag_number_found).
  apply events_refs_grows in Hev.
  assert (Hc : In n (list_set cands))
    by (apply list_set_In, Hev, Hincl, Hin).
  apply solving_loop_none in Hloop as [Hlog Hel].
  split; [|now apply Hel].
  rewrite pulls_requested_app, Hlog. apply in_or_app. now right.
Qed.

Lemma X14_witness :
  In 7 (pulls_requested
          (snd (find_solving_pr (S := first_seen) (scenario "Unrelated change")
                  2 (txt "octo") (txt "repo") 42)))
  /\ eligible 42 (fetched (scenario "Unrelated change")
                    (txt "octo") (txt "repo") 7) = false.
Proof.
  apply (X14_no_solution_after_every_body_reference (S := first_seen)
           (scenario "Unrelated change") 2 (txt "octo") (txt "repo") 42
           (txt "see ") (txt " for context") 7).
  - vm_compute. reflexivity.
  - reflexivity.
  - lia.
  - reflexivity.
Defined.

(** X15: when [find_solving_pr] returns nothing, every hashtag reference in
    the body of a comment on a page that was read has been looked up: its
    number was asked for in that run and the answer was no eligible pull
    request. *)
Theorem X15_no_solution_after_every_comment_reference {S : PySet}
  (self : Tracker) (fuel k : nat) (owner repo : text) (issue_number page : Z)
  (comment : Comment) (pre rest : text) (n : Z) :
  fst (find_solving_pr self fuel owner repo issue_number) = Return None ->
  (k < fuel)%nat ->
  (forall p, In p (page_numbers 1 k) ->
     page_continues self owner repo issue_number p) ->
  page_stops self owner repo issue_number (1 + Z.of_nat k) ->
  In page (page_numbers 1 k) ->
  In comment (json (comments_resp self owner repo issue_number page)) ->
  comment_body comment = Some (pre ++ "#"%char :: py_str n ++ rest) ->
  0 <= n ->
  match rest with c :: _ => is_digit c = false | [] => True end ->
  In n (pulls_requested
          (snd (find_solving_pr self fuel owner repo issue_number)))
  /\ eligible issue_number (fetched self owner repo n) = false.
Proof.
  intros H Hk Hgo Hstop Hpage Hcomment Hbody Hn Hrest.
  apply find_solving_pr_return_inv in H
    as (_ & fb & cm & fc & cands & lg & _ & Hcm & Hfc & Hev & Hloop & ->).
  unfold get_issue_comments in Hcm.
  rewrite (comments_loop_pages self owner repo issue_number k fuel 1 []
             Hk Hgo Hstop) in Hcm.
  cbn [fst app] in Hcm. injection Hcm as <-.
  assert (Hin : In n fc).
  { apply (comments_refs_member owner repo _ _ _ comment
             (pre ++ "#"%char :: py_str n ++ rest) n Hfc).
    - apply in_concat.
      exists (json (comments_resp self owner repo issue_number page)).
      split; [|assumption].
      apply in_map_iff. now exists page.
    - exact Hbody.
    - now destruct pre.
    - now apply hashtag_number_found. }
  apply events_refs_grows in Hev.
  assert (Hc : In n (list_set cands)) by (apply list_set_In, Hev, Hin).
  apply solving_loop_none in Hloop as [Hlog Hel].
  split; [|now apply Hel].
  rewrite pulls_requested_app, Hlog. apply in_or_app. now right.
Qed.

Lemma X15_witness :
  In 99 (pulls_requested
           (snd (find_solving_pr (S := first_seen) (scenario "Unrelated change")
                   2 (txt "octo") (txt "repo") 42)))
  /\ eligible 42 (fetched (scenario "Unrelated change")
                    (txt "octo") (txt "repo") 99) = false.
Proof.
  apply (X15_no_solution_after_every_comment_reference (S := first_seen)
           (scenario "Unrelated change") 2 1 (txt "octo") (txt "repo") 42 1
           {| comment_body := Some (txt "fixed by #99, closes #42 via #99") |}
           (txt "fixed by ") (txt ", closes #42 via #99") 99).
  - vm_compute. reflexivity.
  - lia.
  - intros p [<-|[]]. split; [reflexivity | discriminate].
  - right. reflexivity.
  - left. reflexivity.
  - left. reflexivity.
  - reflexivity.
  - lia.
  - reflexivity.
Defined.

(** X16: when [find_solving_pr] returns nothing, every pull request that a
    cross-reference event of type issue links by a URL ending in [/N] has
    been looked up as well. *)
Theorem X16_no_solution_after_every_cross_reference {S : PySet}
  (self : Tracker) (fuel : nat) (owner repo : text) (issue_number : Z)
  (event : Event) (source : Source) (base : text) (n : Z) :
  fst (find_solving_pr self fuel owner repo issue_number) = Return None ->
  status_code (events_resp self owner repo issue_number) = 200 ->
  In event (json (events_resp self owner repo issue_number)) ->
  event_kind event = txt "cross-referenced" ->
  event_source event = Some source ->
  source_type source = txt "issue" ->
  source_pull_request_url source = Some (base ++ "/"%char :: py_str n) ->
  In n (pulls_requested
          (snd (find_solving_pr self fuel owner repo issue_number)))
  /\ eligible issue_number (fetched self owner repo n) = false.
Proof.
  intros H Hok Hin Hk Hs Ht Hu.
  apply find_solving_pr_return_inv in H
    as (_ & fb & cm & fc & cands & lg & _ & _ & _ & Hev & Hloop & ->).
  apply Z.eqb_eq in Hok. rewrite Hok in Hev.
  pose proof (events_refs_member _ _ _ _ _ _ _ Hev Hin Hk Hs Ht Hu) as Hn.
  assert (Hc : In n (list_set cands)) by now apply list_set_In.
  apply solving_loop_none in Hloop as [Hlog Hel].
  split; [|now apply Hel].
  rewrite pulls_requested_app, Hlog. apply in_or_app. now right.
Qed.

Lemma X16_witness :
  In 7 (pulls_requested
          (snd (find_solving_pr (S := first_seen) linked_event_tracker
                  1 (txt "octo") (txt "repo") 42)))
  /\ eligible 42 (fetched linked_event_tracker (txt "octo") (txt "repo") 7)
     = false.
Proof.
  apply (X16_no_solution_after_every_cross_reference (S := first_seen)
           linked_event_tracker 1 (txt "octo") (txt "repo") 42
           {| event_kind := txt "cross-referenced";
              event_source :=
                Some {| source_type := txt "issue";
                        source_pull_request_url :=
                          Some (txt "https://api.github.com/repos/octo/repo/pulls"
                                ++ "/"%char :: py_str 7) |};
              event_commit_id := None |}
           {| source_type := txt "issue";
              source_pull_request_url :=
                Some (txt "https://api.github.com/repos/octo/repo/pulls"
                      ++ "/"%char :: py_str 7) |}
           (txt "https://api.github.com/repos/octo/repo/pulls") 7).
  - vm_compute. reflexivity.
  - reflexivity.
  - left. reflexivity.
  - reflexivity.
  - reflexivity.
  - reflexivity.
  - reflexivity.
Defined.

(* ================================================================== *)
(** ** The requests of a run, in order *)

Lemma requests_map_http (l : list Request) : requests (map Http l) = l.
Proof. induction l as [|r l IH]; [reflexivity|]. simpl. now rewrite IH. Qed.

Section Trace.

Context {S : PySet}.
Variable self : Tracker.
Variables owner repo : text.
Variable issue_number : Z.

(** The log of a run of [find_solving_pr] that returns. *)
Lemma find_solving_pr_log (fuel : nat) (r : option PullRequest) :
  fst (find_solving_pr self fuel owner repo issue_number) = Return r ->
  exists cands,
    snd (find_solving_pr self fuel owner repo issue_number)
    = Http (GetIssue owner repo issue_number)
      :: (if negb (text_eqb
                     (issue_state
                        (json (issue_resp self owner repo issue_number)))
                     (txt "closed"))
          then [Print (PrintWarningOpen issue_number)] else [])
      ++ snd (get_issue_comments self fuel owner repo issue_number)
      ++ Http (GetEvents owner repo issue_number)
      :: snd (solving_loop self owner repo issue_number (list_set cands) None).
Proof.
  intros H.
  assert (Hok : status_code (issue_resp self owner repo issue_number) = 200).
  { destruct (Z.eq_dec (status_code (issue_resp self owner repo issue_number)) 200)
      as [Hok|Hko]; [assumption|].
    destruct (find_solving_pr_fails self owner repo issue_number fuel Hko)
      as (e & _ & He).
    rewrite He in H. discriminate. }
  unfold find_solving_pr in *.
  apply bind_return_inv in H as (issue & Hi & H & L1). rewrite L1.
  rewrite (get_issue_ok self owner repo issue_number Hok) in Hi |- *.
  injection Hi as <-. cbv beta in H |- *.
  apply bind_return_inv in H as (u & _ & H & L2). rewrite L2.
  cbv beta in H |- *.
  apply bind_return_inv in H as (from_body & Hfb & H & L3). rewrite L3.
  cbv beta in H |- *.
  apply bind_return_inv in H as (comments & Hcm & H & L4). rewrite L4.
  cbv beta in H |- *.
  apply bind_return_inv in H as (from_comments & Hfc & H & L5). rewrite L5.
  cbv beta in H |- *.
  apply bind_return_inv in H as (events & Hev & H & L6). rewrite L6.
  cbv beta in H |- *.
  apply bind_return_inv in H as (cands & Hc & H & L7). rewrite L7.
  cbv beta in H |- *.
  exists cands.
  rewrite get_issue_events_returns.
  destruct (events_refs_quiet events from_comments) as [-> _].
  destruct (comments_refs_returns owner repo comments from_body) as [l ->].
  destruct (truthy (issue_body (json (issue_resp self owner repo issue_number))));
    [rewrite extract_pr_references_returns|];
    destruct (negb (text_eqb
                      (issue_state
                         (json (issue_resp self owner repo issue_number)))
                      (txt "closed"))); reflexivity.
Qed.

End Trace.

(** X17: a run of [find_solving_pr] that returns has sent its requests in
    this order: the issue, the comment pages 1, 2, ... up to the first page
    that fails or is empty, the events, and then the pull requests. *)
Theorem X17_requests_in_order {S : PySet} (self : Tracker) (fuel k : nat)
  (owner repo : text) (issue_number : Z) (r : option PullRequest) :
  fst (find_solving_pr self fuel owner repo issue_number) = Return r ->
  (k < fuel)%nat ->
  (forall p, In p (page_numbers 1 k) ->
     page_continues self owner repo issue_number p) ->
  page_stops self owner repo issue_number (1 + Z.of_nat k) ->
  requests (snd (find_solving_pr self fuel owner repo issue_number))
  = GetIssue owner repo issue_number
    :: map (GetComments owner repo issue_number)
         (page_numbers 1 (Datatypes.S k))
    ++ GetEvents owner repo issue_number
    :: map (GetPull owner repo)
         (pulls_requested
            (snd (find_solving_pr self fuel owner repo issue_number))).
Proof.
  intros H Hk Hgo Hstop.
  destruct (find_solving_pr_log self owner repo issue_number fuel r H)
    as (cands & ->).
  unfold get_issue_comments.
  rewrite (comments_loop_pages self owner repo issue_number k fuel 1 []
             Hk Hgo Hstop).
  destruct (solving_loop_log self owner repo issue_number
              (list_set cands) None) as [m ->].
  cbn [snd requests pulls_requested].
  rewrite !requests_app, !pulls_requested_app.
  cbn [requests pulls_requested].
  rewrite pulls_requested_map.
  rewrite <- (map_map (GetComments owner repo issue_number) Http).
  rewrite <- (map_map (GetPull owner repo) Http).
  rewrite !requests_map_http.
  replace (pulls_requested
             (map Http
                (map (GetComments owner repo issue_number)
                   (page_numbers 1 (Datatypes.S k))))) with (@nil Z).
  2:{ induction (page_numbers 1 (Datatypes.S k)) as [|p l IH];
        [reflexivity | exact IH]. }
  destruct (negb (text_eqb
                    (issue_state (json (issue_resp self owner repo issue_number)))
                    (txt "closed"))); reflexivity.
Qed.

Lemma X17_witness :
  requests (snd (find_solving_pr (S := first_seen) (scenario "Closes #42") 2
                   (txt "octo") (txt "repo") 42))
  = GetIssue (txt "octo") (txt "repo") 42
    :: map (GetComments (txt "octo") (txt "repo") 42) (page_numbers 1 2)
    ++ GetEvents (txt "octo") (txt "repo") 42
    :: map (GetPull (txt "octo") (txt "repo"))
         (pulls_requested
            (snd (find_solving_pr (S := first_seen) (scenario "Closes #42") 2
                    (txt "octo") (txt "repo") 42))).
Proof.
  apply (X17_requests_in_order (S := first_seen) (scenario "Closes #42") 2 1
           (txt "octo") (txt "repo") 42 (Some (merged_pull 99 "Closes #42"))).
  - vm_compute. reflexivity.
  - lia.
  - intros p [<-|[]]. split; [reflexivity | discriminate].
  - right. reflexivity.
Defined.
